(** * Panel cut optimizer: the placement engine of [optimizer.py]

    A shallow embedding of [find_position] and [optimize_layout], and the
    properties of the layouts they produce.

    Numbers.  The program computes with Python floats.  The development
    has two models of them.

    In the exact model numbers are rationals ([Q]): [0.001] is [1/1000],
    no operation rounds, and equality is [Qeq] (written [==]).  It carries
    the properties that come from comparisons of the inputs, from the
    order of the loops and from the store of panel objects, and the runs
    on inputs where binary64 computes the same numbers.

    In the binary64 model (module [B64]) numbers are IEEE 754 doubles
    ([float]): every operation rounds to nearest, comparisons are false on
    NaN, and [np.arange] sizes and fills its array as NumPy does, with the
    exceptions it raises.  It carries the properties that depend on the
    numbers computed: the candidates of the search and the choice among
    them, the grid, the overlap test, the exceptions of a run, the
    efficiency, and the order of the turns of the allocation loop.

    Objects.  [Panel] objects are shared: the caller's list, the working
    copy [panels_copy] and every used-space entry point to them, and the
    allocation loop mutates them in place.  They live in a store ([heap])
    and are designated by their address ([ref]).  [StockSheet] objects and
    the used-space dictionaries are reachable from the sheet list only,
    and are modelled as values.

    Exceptions.  Fallible code returns a [result]. *)

From Stdlib Require Import QArith Qround Lqa Lia ZArith Sorted Floats Uint63.
From stdpp Require Import base tactics option list.

#[global] Set Warnings "-inexact-float".

Open Scope Q_scope.

(** ** Results *)

Inductive exn : Type :=
| ValueError
| ZeroDivisionError.

(** [Stuck] is no Python outcome: the model stops there when a reference
    designates no object or when the fuel of a loop runs out. *)
Inductive result (A : Type) : Type :=
| Ok (a : A)
| Raise (e : exn)
| Stuck.

Arguments Ok {A} a.
Arguments Raise {A} e.
Arguments Stuck {A}.

#[global] Instance result_ret : MRet result := fun A a => Ok a.

#[global] Instance result_bind : MBind result := fun A B f m =>
  match m with
  | Ok a => f a
  | Raise e => Raise e
  | Stuck => Stuck
  end.

(** ** Comparisons of numbers *)

#[global] Instance Qle_decision (a b : Q) : Decision (a <= b) :=
  match Qlt_le_dec b a with
  | left Hlt => right (Qlt_not_le b a Hlt)
  | right Hle => left Hle
  end.

#[global] Instance Qlt_decision (a b : Q) : Decision (a < b) :=
  match Qlt_le_dec a b with
  | left Hlt => left Hlt
  | right Hle => right (Qle_not_lt b a Hle)
  end.

#[global] Instance Qeq_decision (a b : Q) : Decision (a == b) := Qeq_dec a b.

(** Python's [min(a, b)] and [max(a, b)]: the first argument is kept unless
    the second is strictly better. *)
Definition py_min (a b : Q) : Q := if bool_decide (b < a) then b else a.
Definition py_max (a b : Q) : Q := if bool_decide (a < b) then b else a.

(** ** [list.sort(key=...)]

    Python's sort is stable and compares keys with [<] only.  Its result
    is computed here by stable insertion: an element goes in front of the
    first element whose key is not strictly smaller than its own. *)

Section Sort.
Context {A K : Type} (key : A -> K) (ltb : K -> K -> bool).

Fixpoint insert_sorted (a : A) (l : list A) : list A :=
  match l with
  | [] => [a]
  | b :: l' =>
      if ltb (key b) (key a) then b :: insert_sorted a l' else a :: b :: l'
  end.

Definition list_sort (l : list A) : list A := foldr insert_sorted [] l.

End Sort.

(** [<] on tuples of numbers is lexicographic. *)
Definition tuple2_lt (a b : Q * Q) : bool :=
  if bool_decide (a.1 == b.1) then bool_decide (a.2 < b.2)
  else bool_decide (a.1 < b.1).

Definition tuple3_lt (a b : Q * Q * Q) : bool :=
  if bool_decide (a.1.1 == b.1.1) then tuple2_lt (a.1.2, a.2) (b.1.2, b.2)
  else bool_decide (a.1.1 < b.1.1).

(** ** [np.arange(start, stop, step)]

    [ceil((stop - start) / step)] values [start + i * step]; none when that
    count is not positive; the division raises when [step] is zero. *)
Definition arange_values (start stop step : Q) : list Q :=
  let n := Z.to_nat (Qceiling ((stop - start) / step)) in
  map (fun i : nat => start + inject_Z (Z.of_nat i) * step) (seq 0 n).

Definition arange (start stop step : Q) : result (list Q) :=
  if bool_decide (step == 0) then Raise ZeroDivisionError
  else Ok (arange_values start stop step).

(** ** Data *)

(** Addresses of the store. *)
Abbreviation ref := nat.

Module Panel.
Record t : Type := mk {
  width : Q;
  height : Q;
  quantity : Z;
  position : option (Q * Q);
  rotated : bool
}.
End Panel.

(** [Panel(width, height, quantity)] *)
Definition new_Panel (width height : Q) (quantity : Z) : Panel.t :=
  Panel.mk width height quantity None false.

(** The store: the [Panel] objects by address, in allocation order. *)
Abbreviation heap := (list Panel.t).

(** An entry of [used_space]: the dictionary with keys x, y, w, h, panel. *)
Module Rect.
Record t : Type := mk {
  x : Q;
  y : Q;
  w : Q;
  h : Q;
  panel : ref
}.
End Rect.

Module StockSheet.
Record t : Type := mk {
  width : Q;
  height : Q;
  used_space : list Rect.t;
  efficiency : Q
}.
End StockSheet.

(** [StockSheet(width, height)] *)
Definition new_StockSheet (width height : Q) : StockSheet.t :=
  StockSheet.mk width height [] 0.

(** ** [find_position] *)

(** The condition under the [not] of the overlap test: the rectangle
    [w] by [h] at [(x, y)] lies beside, or above or below, [used]. *)
Definition apart (x y w h : Q) (used : Rect.t) : Prop :=
  x + w <= Rect.x used \/ x >= Rect.x used + Rect.w used \/
  y + h <= Rect.y used \/ y >= Rect.y used + Rect.h used.

(** The inner loop over [sheet.used_space]: [valid] stays [True] unless
    some entry is not apart. *)
Definition is_valid (used_space : list Rect.t) (w h x y : Q) : bool :=
  forallb (fun used => bool_decide (apart x y w h used)) used_space.

(** The running best.  [None] stands for [can_place = False], where
    [best_x] and [best_y] are still infinite and [best_rotated] is [False];
    [Some (x, y, rotated)] stands for [can_place = True] with these
    values.  It is also what [find_position] returns. *)
Definition best : Type := option (Q * Q * bool).

(** [if not can_place or (y < best_y or (y == best_y and x < best_x))] *)
Definition improves (b : best) (x y : Q) : Prop :=
  match b with
  | None => True
  | Some (best_x, best_y, _) => y < best_y \/ (y == best_y /\ x < best_x)
  end.

#[global] Instance improves_decision b x y : Decision (improves b x y).
Proof. destruct b as [[[bx by_] r]|]; simpl; apply _. Defined.

(** One candidate position: the validity loop, then the update. *)
Definition consider (used_space : list Rect.t) (w h : Q) (rotated : bool)
    (b : best) (x y : Q) : best :=
  if is_valid used_space w h x y then
    if bool_decide (improves b x y) then Some (x, y, rotated) else b
  else b.

Definition orientation : Type := Q * Q * bool.

(** The key of [orientations.sort]. *)
Definition orientation_key (sheet : StockSheet.t) (o : orientation) : Q * Q :=
  (- (if bool_decide (o.1.1 <= StockSheet.width sheet) then o.1.1 else 0),
   - (if bool_decide (o.1.2 <= StockSheet.height sheet) then o.1.2 else 0)).

Definition orientations (sheet : StockSheet.t) (panel : Panel.t)
    : list orientation :=
  let l := [(Panel.width panel, Panel.height panel, false)] ++
           (if bool_decide (Panel.width panel == Panel.height panel) then []
            else [(Panel.height panel, Panel.width panel, true)]) in
  list_sort (orientation_key sheet) tuple2_lt l.

(** The corners, then the right side and the top side of each entry. *)
Definition priority_positions (sheet : StockSheet.t) (w h : Q)
    : list (Q * Q) :=
  let all :=
    [ (0, 0);
      (StockSheet.width sheet - w, 0);
      (0, StockSheet.height sheet - h);
      (StockSheet.width sheet - w, StockSheet.height sheet - h) ] ++
    flat_map (fun used =>
                [ (Rect.x used + Rect.w used, Rect.y used);
                  (Rect.x used, Rect.y used + Rect.h used) ])
             (StockSheet.used_space sheet) in
  List.filter
    (fun p => bool_decide (0 <= p.1 <= StockSheet.width sheet - w /\
                           0 <= p.2 <= StockSheet.height sheet - h))
    all.

(** A [for] loop whose body may raise. *)
Fixpoint for_each {A S : Type} (body : S -> A -> result S) (l : list A)
    (s : S) : result S :=
  match l with
  | [] => Ok s
  | a :: l' => s' ← body s a; for_each body l' s'
  end.

(** The fallback scan: [x] over the outer range, [y] over the inner one,
    which is built again for each [x]. *)
Definition grid_scan (sheet : StockSheet.t) (step w h : Q) (rotated : bool)
    (b : best) : result best :=
  xs ← arange 0 (StockSheet.width sheet - w + step) step;
  for_each
    (fun b x =>
       ys ← arange 0 (StockSheet.height sheet - h + step) step;
       Ok (foldl (fun b y =>
                    consider (StockSheet.used_space sheet) w h rotated b x y)
                 b ys))
    xs b.

(** The body of [for w, h, rotated in orientations]. *)
Definition try_orientation (sheet : StockSheet.t) (step : Q) (b : best)
    (o : orientation) : result best :=
  let '(w, h, rotated) := o in
  if bool_decide (w > StockSheet.width sheet \/ h > StockSheet.height sheet)
  then Ok b
  else
    let b :=
      foldl (fun b p =>
               consider (StockSheet.used_space sheet) w h rotated b p.1 p.2)
            b (priority_positions sheet w h) in
    match b with
    | Some _ => Ok b
    | None => grid_scan sheet step w h rotated b
    end.

Definition grid_step (sheet : StockSheet.t) (panel : Panel.t) : Q :=
  py_min (py_min (py_min (Panel.width panel) (Panel.height panel))
                 (StockSheet.width sheet))
         (StockSheet.height sheet) * (1 # 1000).

Definition find_position (sheet : StockSheet.t) (panel : Panel.t)
    : result best :=
  let step := grid_step sheet panel in
  for_each (try_orientation sheet step) (orientations sheet panel) None.

(** ** [optimize_layout] *)

(** Reading a field of the object at [r]. *)
Definition deref (σ : heap) (r : ref) : result Panel.t :=
  match σ !! r with
  | Some p => Ok p
  | None => Stuck
  end.

Fixpoint map_each {A B : Type} (f : A -> result B) (l : list A)
    : result (list B) :=
  match l with
  | [] => Ok []
  | a :: l' => b ← f a; bs ← map_each f l'; Ok (b :: bs)
  end.

(** The copy loop: [quantity] fresh panels of quantity 1 per given panel,
    each allocated at the end of the store and appended to [panels_copy]. *)
Fixpoint copy_panels (panels : list ref) (panels_copy : list ref) (σ : heap)
    : result (list ref * heap) :=
  match panels with
  | [] => Ok (panels_copy, σ)
  | r :: panels' =>
      panel ← deref σ r;
      let n := Z.to_nat (Panel.quantity panel) in
      copy_panels panels'
        (panels_copy ++ seq (length σ) n)
        (σ ++ replicate n
                (new_Panel (Panel.width panel) (Panel.height panel) 1))
  end.

(** The key of [panels_copy.sort]. *)
Definition panel_key (p : Panel.t) : Q * Q * Q :=
  (- py_max (Panel.width p) (Panel.height p),
   - (Panel.width p * Panel.height p),
   - py_min (Panel.width p) (Panel.height p)).

(** [panels_copy.sort(key=...)]: the keys are computed once, from the
    objects, then the references are sorted on them. *)
Definition sort_panels (panels_copy : list ref) (σ : heap)
    : result (list ref) :=
  keyed ← map_each (fun r => p ← deref σ r; Ok (panel_key p, r)) panels_copy;
  Ok (map snd (list_sort fst tuple3_lt keyed)).

(** [sheet.used_space.append({x, y, w, h, panel})], with [w] and [h] taken
    from the panel according to [rotated]. *)
Definition add_used (sheet : StockSheet.t) (panel : Panel.t) (r : ref)
    (x y : Q) (rotated : bool) : StockSheet.t :=
  let w := if rotated then Panel.height panel else Panel.width panel in
  let h := if rotated then Panel.width panel else Panel.height panel in
  StockSheet.mk (StockSheet.width sheet) (StockSheet.height sheet)
    (StockSheet.used_space sheet ++ [Rect.mk x y w h r])
    (StockSheet.efficiency sheet).

(** [panel.position = (x, y); panel.rotated = rotated; panel.quantity -= 1] *)
Definition mark_placed (panel : Panel.t) (x y : Q) (rotated : bool)
    : Panel.t :=
  Panel.mk (Panel.width panel) (Panel.height panel)
    (Panel.quantity panel - 1) (Some (x, y)) rotated.

(** [for sheet in sheets: ... break]: [Some] of the updated sheets and
    store when a sheet took the panel ([placed = True]), [None] when the
    loop ran to its end. *)
Fixpoint try_sheets (sheets : list StockSheet.t) (panel : Panel.t) (r : ref)
    (σ : heap) : result (option (list StockSheet.t * heap)) :=
  match sheets with
  | [] => Ok None
  | sheet :: sheets' =>
      found ← find_position sheet panel;
      match found with
      | Some (x, y, rotated) =>
          Ok (Some (add_used sheet panel r x y rotated :: sheets',
                    <[r := mark_placed panel x y rotated]> σ))
      | None =>
          placed ← try_sheets sheets' panel r σ;
          match placed with
          | Some (sheets', σ) => Ok (Some (sheet :: sheets', σ))
          | None => Ok None
          end
      end
  end.

(** [if not placed]: a new sheet, appended when it takes the panel. *)
Definition place_on_new_sheet (stock_width stock_height : Q)
    (sheets : list StockSheet.t) (panel : Panel.t) (r : ref) (σ : heap)
    : result (list StockSheet.t * heap) :=
  let new_sheet := new_StockSheet stock_width stock_height in
  found ← find_position new_sheet panel;
  match found with
  | Some (x, y, rotated) =>
      Ok (sheets ++ [add_used new_sheet panel r x y rotated],
          <[r := mark_placed panel x y rotated]> σ)
  | None => Raise ValueError
  end.

Definition state : Type := list StockSheet.t * list ref * heap.

(** The body of [while remaining_panels], for its head [r]. *)
Definition loop_body (stock_width stock_height : Q)
    (sheets : list StockSheet.t) (r : ref) (remaining_panels : list ref)
    (σ : heap) : result state :=
  panel ← deref σ r;
  placed ← try_sheets sheets panel r σ;
  '(sheets, σ) ← match placed with
                 | Some res => Ok res
                 | None =>
                     place_on_new_sheet stock_width stock_height
                       sheets panel r σ
                 end;
  panel ← deref σ r;
  if bool_decide (Panel.quantity panel = 0%Z)
  then Ok (sheets, tail remaining_panels, σ)
  else Ok (sheets, remaining_panels, σ).

(** [while remaining_panels], with the number of iterations bounded by
    [fuel]. *)
Fixpoint while_remaining (fuel : nat) (stock_width stock_height : Q)
    (st : state) : result state :=
  match st with
  | (sheets, [], σ) => Ok st
  | (sheets, (r :: _) as remaining_panels, σ) =>
      match fuel with
      | O => Stuck
      | S fuel' =>
          st' ← loop_body stock_width stock_height sheets r
                  remaining_panels σ;
          while_remaining fuel' stock_width stock_height st'
      end
  end.

(** [sum(space['w'] * space['h'] for space in sheet.used_space)] *)
Definition used_area (sheet : StockSheet.t) : Q :=
  foldl (fun acc space => acc + Rect.w space * Rect.h space) 0
        (StockSheet.used_space sheet).

(** [sheet.efficiency = (used_area / (sheet.width * sheet.height)) * 100] *)
Definition set_efficiency (sheet : StockSheet.t) : result StockSheet.t :=
  let area := StockSheet.width sheet * StockSheet.height sheet in
  if bool_decide (area == 0) then Raise ZeroDivisionError
  else Ok (StockSheet.mk (StockSheet.width sheet) (StockSheet.height sheet)
             (StockSheet.used_space sheet)
             (used_area sheet / area * 100)).

(** [optimize_layout(stock_width, stock_height, panels)], run in the store
    [σ]: the sheets returned and the store left behind.  Every turn of the
    main loop removes the head of [remaining_panels] (see
    [optimize_layout_not_stuck]), so its length is fuel enough. *)
Definition optimize_layout (stock_width stock_height : Q)
    (panels : list ref) (σ : heap) : result (list StockSheet.t * heap) :=
  '(panels_copy, σ) ← copy_panels panels [] σ;
  panels_copy ← sort_panels panels_copy σ;
  let sheets := [new_StockSheet stock_width stock_height] in
  '(sheets, _, σ) ← while_remaining (length panels_copy)
                      stock_width stock_height (sheets, panels_copy, σ);
  sheets ← map_each set_efficiency sheets;
  Ok (sheets, σ).

(** * Specifications *)

(** ** The candidates of the placement search *)

(** A candidate position with the [rotated] flag of its orientation. *)
Definition candidate : Type := Q * Q * bool.

Definition tag (rotated : bool) (p : Q * Q) : candidate := (p.1, p.2, rotated).

(** An orientation is searched when it fits the raw extent of the sheet. *)
Definition fits (sheet : StockSheet.t) (w h : Q) : Prop :=
  w <= StockSheet.width sheet /\ h <= StockSheet.height sheet.

(** The positions of a list that overlap no entry of the sheet. *)
Definition valid_among (sheet : StockSheet.t) (w h : Q) (l : list (Q * Q))
    : list (Q * Q) :=
  List.filter (fun p => is_valid (StockSheet.used_space sheet) w h p.1 p.2) l.

(** The grid positions in scan order. *)
Definition grid_positions (sheet : StockSheet.t) (step w h : Q)
    : list (Q * Q) :=
  flat_map
    (fun x => map (fun y => (x, y))
                  (arange_values 0 (StockSheet.height sheet - h + step) step))
    (arange_values 0 (StockSheet.width sheet - w + step) step).

Definition nonempty {A : Type} (l : list A) : bool :=
  match l with
  | [] => false
  | _ :: _ => true
  end.

(** The admissible candidates one orientation contributes, in the order
    they are examined: its priority positions; its grid positions when it
    has no admissible priority position and nothing was [found] before. *)
Definition examined_in (sheet : StockSheet.t) (step : Q) (found : bool)
    (o : orientation) : list candidate :=
  let '(w, h, rotated) := o in
  if bool_decide (fits sheet w h) then
    match valid_among sheet w h (priority_positions sheet w h), found with
    | [], false =>
        map (tag rotated) (valid_among sheet w h (grid_positions sheet step w h))
    | prio, _ => map (tag rotated) prio
    end
  else [].

Fixpoint examined (sheet : StockSheet.t) (step : Q) (found : bool)
    (os : list orientation) : list candidate :=
  match os with
  | [] => []
  | o :: os' =>
      let here := examined_in sheet step found o in
      here ++ examined sheet step (found || nonempty here) os'
  end.

(** [b] is the choice among the candidates [C]: none when there is no
    candidate, otherwise a candidate that strictly improves on all those
    before it and on which none after it improves, so the smallest
    [(y, x)] and, among equals, the first. *)
Definition is_best (C : list candidate) (b : best) : Prop :=
  match b with
  | None => C = []
  | Some c =>
      exists C1 C2, C = C1 ++ c :: C2 /\
        (forall c', c' ∈ C1 -> improves (Some c') c.1.1 c.1.2) /\
        (forall c', c' ∈ C2 -> ~ improves (Some c) c'.1.1 c'.1.2)
  end.

(** The extent a panel takes on the sheet, by its [rotated] flag: the [w]
    and [h] that the allocation loop records. *)
Definition placed_w (panel : Panel.t) (rotated : bool) : Q :=
  if rotated then Panel.height panel else Panel.width panel.

Definition placed_h (panel : Panel.t) (rotated : bool) : Q :=
  if rotated then Panel.width panel else Panel.height panel.

(** ** The allocation loop *)

(** Sheet [i] is the first, in creation order, on which the search gives
    the panel a position, and [c] is that position. *)
Definition first_fit (sheets : list StockSheet.t) (panel : Panel.t)
    (i : nat) (c : candidate) : Prop :=
  (exists sheet, sheets !! i = Some sheet /\
                 find_position sheet panel = Ok (Some c)) /\
  forall j s, (j < i)%nat -> sheets !! j = Some s ->
              find_position s panel = Ok None.

(** Every sheet rejects the panel. *)
Definition all_reject (sheets : list StockSheet.t) (panel : Panel.t) : Prop :=
  Forall (fun s => find_position s panel = Ok None) sheets.

(** The sheet list after the panel at [r] went to sheet [i] at [c]. *)
Definition placed_on (sheets : list StockSheet.t) (i : nat) (panel : Panel.t)
    (r : ref) (c : candidate) : list StockSheet.t :=
  match sheets !! i with
  | Some sheet => <[i := add_used sheet panel r c.1.1 c.1.2 c.2]> sheets
  | None => sheets
  end.

(** ** Geometry of the layouts *)

(** An entry lies within its sheet. *)
Definition inside (sheet : StockSheet.t) (u : Rect.t) : Prop :=
  0 <= Rect.x u /\ 0 <= Rect.y u /\
  Rect.x u + Rect.w u <= StockSheet.width sheet /\
  Rect.y u + Rect.h u <= StockSheet.height sheet.

(** ** The queue of instances *)

(** The queue designates distinct objects of the store, each of quantity
    1: what the copy loop creates and the sort permutes. *)
Definition queue_ok (σ : heap) (rem : list ref) : Prop :=
  NoDup rem /\
  Forall (fun r => exists p, σ !! r = Some p /\ Panel.quantity p = 1%Z) rem.

(** ** The normalised queue *)

(** The list [panels] designates the objects [specs] of the store. *)
Definition panels_in (σ : heap) (panels : list ref) (specs : list Panel.t)
    : Prop :=
  Forall2 (fun r p => σ !! r = Some p) panels specs.

(** The unit instances of a spec, and of a list of specs in its order. *)
Definition copies_of (spec : Panel.t) : list Panel.t :=
  replicate (Z.to_nat (Panel.quantity spec))
            (new_Panel (Panel.width spec) (Panel.height spec) 1).

Definition expansion (specs : list Panel.t) : list Panel.t :=
  flat_map copies_of specs.

(** References paired with the keys of the objects they designate. *)
Definition keyed (instances : list Panel.t) (refs : list ref)
    : list (Q * Q * Q * ref) :=
  zip_with (fun p r => (panel_key p, r)) instances refs.

(** ** Requests and outcomes *)

(** A panel fits an empty stock sheet in one orientation at least. *)
Definition panel_fits (W H : Q) (p : Panel.t) : Prop :=
  (Panel.width p <= W /\ Panel.height p <= H) \/
  (Panel.height p <= W /\ Panel.width p <= H).

(** The data model's panel spec: positive sides, at least one piece. *)
Definition spec_ok (p : Panel.t) : Prop :=
  0 < Panel.width p /\ 0 < Panel.height p /\ (1 <= Panel.quantity p)%Z.

Definition positive_sides (p : Panel.t) : Prop :=
  0 < Panel.width p /\ 0 < Panel.height p.

(** A sheet has the stock dimensions. *)
Definition stock_sized (W H : Q) (s : StockSheet.t) : Prop :=
  StockSheet.width s = W /\ StockSheet.height s = H.

(** The panels that the entries of a layout point to, sheet by sheet in
    placement order. *)
Definition placed_refs (sheets : list StockSheet.t) : list ref :=
  flat_map (fun s => map Rect.panel (StockSheet.used_space s)) sheets.

(** Every (some) reference of the queue designates an object with [P]. *)
Definition queue_all (P : Panel.t -> Prop) (σ : heap) (rem : list ref)
    : Prop :=
  Forall (fun r => exists p, σ !! r = Some p /\ P p) rem.

Definition queue_any (P : Panel.t -> Prop) (σ : heap) (rem : list ref)
    : Prop :=
  Exists (fun r => exists p, σ !! r = Some p /\ P p) rem.

(** ** What a computation returns, mapped *)

Definition result_map {A B : Type} (f : A -> B) (m : result A) : result B :=
  match m with
  | Ok a => Ok (f a)
  | Raise e => Raise e
  | Stuck => Stuck
  end.

(** ** The order of the queue *)






(** ** Concrete requests *)

(** A 100 by 100 sheet holding an 80 by 80 panel, as after the first
    placement of Scenario B. *)
Definition sheet_B : StockSheet.t :=
  StockSheet.mk 100 100 [Rect.mk 0 0 80 80 1%nat] 0.

(** ** Invariants of a layout in the making *)

(** The entry and the object of its panel agree: the object records the
    position of the entry and a [rotated] flag that gives the extent of the
    entry, with nothing left to place. *)
Definition entry_ok (σ : heap) (u : Rect.t) : Prop :=
  exists p, σ !! Rect.panel u = Some p /\
    Panel.position p = Some (Rect.x u, Rect.y u) /\
    Rect.w u = placed_w p (Panel.rotated p) /\
    Rect.h u = placed_h p (Panel.rotated p) /\
    Panel.quantity p = 0%Z.

(** The entry goes beyond the far edges of the sheet by less than [m]
    thousandths. *)
Definition overshoot_below (sheet : StockSheet.t) (u : Rect.t) (m : Q)
    : Prop :=
  Rect.x u + Rect.w u < StockSheet.width sheet + m * (1 # 1000) /\
  Rect.y u + Rect.h u < StockSheet.height sheet + m * (1 # 1000).

(** The entry starts within the sheet and goes beyond it by less than a
    thousandth of each of its own sides and of the sides of the sheet. *)
Definition near_inside (sheet : StockSheet.t) (u : Rect.t) : Prop :=
  0 <= Rect.x u /\ 0 <= Rect.y u /\
  overshoot_below sheet u (Rect.w u) /\
  overshoot_below sheet u (Rect.h u) /\
  overshoot_below sheet u (StockSheet.width sheet) /\
  overshoot_below sheet u (StockSheet.height sheet).

(** The first entry of the sheet, if any, is at the origin. *)
Definition starts_at_origin (s : StockSheet.t) : Prop :=
  match StockSheet.used_space s with
  | [] => True
  | u :: _ => Rect.x u = 0 /\ Rect.y u = 0
  end.

Definition occupied (s : StockSheet.t) : Prop :=
  StockSheet.used_space s <> [].

(** The objects of [σ'] have the sides they have in [σ]. *)
Definition same_sides (σ σ' : heap) : Prop :=
  length σ' = length σ /\
  forall i p, σ !! i = Some p ->
    exists p', σ' !! i = Some p' /\
      Panel.width p' = Panel.width p /\ Panel.height p' = Panel.height p.

(** What one turn of the loop does to the sheet list: the panel at [r]
    goes at [c] to a sheet that gave this position, or to a new sheet when
    all reject it. *)
Definition placement (W H : Q) (sheets : list StockSheet.t)
    (panel : Panel.t) (r : ref) (c : candidate)
    (sheets' : list StockSheet.t) : Prop :=
  (exists i sheet,
     sheets !! i = Some sheet /\
     find_position sheet panel = Ok (Some c) /\
     sheets' = <[i := add_used sheet panel r c.1.1 c.1.2 c.2]> sheets) \/
  (all_reject sheets panel /\
   find_position (new_StockSheet W H) panel = Ok (Some c) /\
   sheets' = sheets ++
             [add_used (new_StockSheet W H) panel r c.1.1 c.1.2 c.2]).

(** The state of the allocation loop, between two turns of a run whose
    store was [σ1] after the copy loop and whose sorted queue is [queue]. *)
Definition layout_inv (W H : Q) (σ1 : heap) (queue : list ref) (st : state)
    : Prop :=
  Forall (stock_sized W H) st.1.1 /\
  placed_refs st.1.1 ++ st.1.2 ≡ₚ queue /\
  queue_ok st.2 st.1.2 /\
  same_sides σ1 st.2 /\
  Forall (fun s => Forall (entry_ok st.2) (StockSheet.used_space s)) st.1.1 /\
  Forall starts_at_origin st.1.1 /\
  (st.1.1 = [new_StockSheet W H] \/
   (st.1.1 <> [] /\ Forall occupied st.1.1 /\
    (length st.1.1 <= length (placed_refs st.1.1))%nat)) /\
  (0 < W -> 0 < H -> queue_all positive_sides σ1 queue ->
   Forall (fun s => Forall (near_inside s) (StockSheet.used_space s)) st.1.1).

(** ** [main.py]: the check before a run *)

(** The message that [validate_input] returns: the empty string, or an
    f-string, kept as its template with the numbers it formats. *)
Inductive message : Type :=
| NoMessage
| TooLargeForWidth (width height stock_width : Q)
| TooLargeForHeight (width height stock_height : Q).

(** [validate_input(stock_width, stock_height, panels)] *)
Fixpoint validate_input (stock_width stock_height : Q) (panels : list ref)
    (σ : heap) : result (bool * message) :=
  match panels with
  | [] => Ok (true, NoMessage)
  | r :: panels' =>
      panel ← deref σ r;
      if bool_decide (Panel.width panel > stock_width /\
                      Panel.height panel > stock_width)
      then Ok (false,
               TooLargeForWidth (Panel.width panel) (Panel.height panel)
                                stock_width)
      else if bool_decide (Panel.height panel > stock_height /\
                           Panel.width panel > stock_height)
      then Ok (false,
               TooLargeForHeight (Panel.width panel) (Panel.height panel)
                                 stock_height)
      else validate_input stock_width stock_height panels' σ
  end.

(** A panel passes the two tests of [validate_input]. *)
Definition passes_validation (W H : Q) (p : Panel.t) : Prop :=
  ~ (Panel.width p > W /\ Panel.height p > W) /\
  ~ (Panel.height p > H /\ Panel.width p > H).

(** The sheet list [sheets'] continues [sheets]: every sheet is still
    there, at its place, with its dimensions, and its entries begin with
    those it had. *)
Definition continues (sheets sheets' : list StockSheet.t) : Prop :=
  forall i s, sheets !! i = Some s ->
    exists s', sheets' !! i = Some s' /\
      StockSheet.width s' = StockSheet.width s /\
      StockSheet.height s' = StockSheet.height s /\
      StockSheet.used_space s `prefix_of` StockSheet.used_space s'.

(** ** The entries of a layout *)

(** The entries of a layout, sheet by sheet. *)
Definition entries (sheets : list StockSheet.t) : list Rect.t :=
  flat_map StockSheet.used_space sheets.

(** * The binary64 model

    The same program with the numbers it computes with: Python floats are
    IEEE 754 binary64 values ([float]), every operation rounds to nearest,
    ties to even, and comparisons are those of the standard, false on NaN.
    Integer operands ([0], the counter of [np.arange]) enter an operation
    converted to binary64, as Python and C do.  The store, the results and
    the loops are those of the exact model. *)

Module B64.

#[local] Open Scope float_scope.

(** Python's [min(a, b)] and [max(a, b)]: the first argument is kept unless
    the second is strictly better. *)
Definition py_min (a b : float) : float := if b <? a then b else a.
Definition py_max (a b : float) : float := if a <? b then b else a.

(** [<] on tuples of numbers: the first components that differ decide. *)
Definition tuple2_lt (a b : float * float) : bool :=
  if a.1 =? b.1 then a.2 <? b.2 else a.1 <? b.1.

Definition tuple3_lt (a b : float * float * float) : bool :=
  if a.1.1 =? b.1.1 then tuple2_lt (a.1.2, a.2) (b.1.2, b.2)
  else a.1.1 <? b.1.1.

(** ** [np.arange(start, stop, step)] on Python floats

    NumPy computes the length as the ceiling of the binary64 quotient
    [(stop - start) / step]; the division is Python's and raises on a zero
    divisor.  A quotient that is NaN, or whose ceiling is outside the range
    of [npy_intp], is reported as a [ValueError], and so is an array of more
    bytes than [npy_intp] can count.  A quotient that rounds to zero from a
    difference that is not zero gives length 1 (0 when it is a negative
    zero).  Memory is not bounded here: an array that fits the address
    space is built. *)

(** The ceiling of a finite number; none for infinities and NaN. *)
Definition ceiling (f : float) : option Z :=
  match Prim2SF f with
  | S754_zero _ => Some 0%Z
  | S754_finite s m e =>
      let z := if s then Z.neg m else Z.pos m in
      Some (match e with
            | Z.neg p => (- ((- z) / 2 ^ Z.pos p))%Z
            | _ => (z * 2 ^ e)%Z
            end)
  | S754_infinity _ | S754_nan => None
  end.

(** Bounds of [npy_intp], and the greatest length of an array of doubles. *)
Definition intp_min : Z := Eval cbv in (- 2 ^ 63)%Z.
Definition max_length : Z := Eval cbv in (2 ^ 60 - 1)%Z.

Definition arange_length (start stop step : float) : result Z :=
  let delta := stop - start in
  if step =? 0 then Raise ZeroDivisionError
  else
    let value := delta / step in
    match ceiling value with
    | None => Raise ValueError
    | Some n =>
        if (n <? intp_min)%Z then Raise ValueError
        else
          let n := if (value =? 0) && negb (delta =? 0)
                   then (if get_sign value then 0%Z else 1%Z)
                   else n in
          if (max_length <? n)%Z then Raise ValueError else Ok n
    end.

(** The counter [i] of the fill loop as a double. *)
Definition of_nat (i : nat) : float :=
  of_uint63 (Uint63.of_Z (Z.of_nat i)).

(** The values: [start], then [start + step], then [start + i * delta]
    with [delta = (start + step) - start]. *)
Definition arange_values (start step : float) (n : Z) : list float :=
  let next := start + step in
  let delta := next - start in
  map (fun i : nat =>
         match i with
         | 0%nat => start
         | 1%nat => next
         | _ => start + of_nat i * delta
         end)
      (seq 0 (Z.to_nat n)).

Definition arange (start stop step : float) : result (list float) :=
  n ← arange_length start stop step;
  Ok (arange_values start step n).

(** ** Data *)

Module Panel.
Record t : Type := mk {
  width : float;
  height : float;
  quantity : Z;
  position : option (float * float);
  rotated : bool
}.
End Panel.

Definition new_Panel (width height : float) (quantity : Z) : Panel.t :=
  Panel.mk width height quantity None false.

Abbreviation heap := (list Panel.t).

Module Rect.
Record t : Type := mk {
  x : float;
  y : float;
  w : float;
  h : float;
  panel : ref
}.
End Rect.

Module StockSheet.
Record t : Type := mk {
  width : float;
  height : float;
  used_space : list Rect.t;
  efficiency : float
}.
End StockSheet.

Definition new_StockSheet (width height : float) : StockSheet.t :=
  StockSheet.mk width height [] 0.

(** ** [find_position] *)

(** The condition under the [not] of the overlap test, on the sums as
    they are computed. *)
Definition apart (x y w h : float) (used : Rect.t) : bool :=
  (x + w <=? Rect.x used) || (Rect.x used + Rect.w used <=? x) ||
  (y + h <=? Rect.y used) || (Rect.y used + Rect.h used <=? y).

Definition is_valid (used_space : list Rect.t) (w h x y : float) : bool :=
  forallb (apart x y w h) used_space.

Definition best : Type := option (float * float * bool).

(** [if not can_place or (y < best_y or (y == best_y and x < best_x))] *)
Definition improves (b : best) (x y : float) : bool :=
  match b with
  | None => true
  | Some (best_x, best_y, _) => (y <? best_y) || ((y =? best_y) && (x <? best_x))
  end.

Definition consider (used_space : list Rect.t) (w h : float) (rotated : bool)
    (b : best) (x y : float) : best :=
  if is_valid used_space w h x y then
    if improves b x y then Some (x, y, rotated) else b
  else b.

Definition orientation : Type := float * float * bool.

Definition orientation_key (sheet : StockSheet.t) (o : orientation)
    : float * float :=
  (- (if o.1.1 <=? StockSheet.width sheet then o.1.1 else 0),
   - (if o.1.2 <=? StockSheet.height sheet then o.1.2 else 0)).

Definition orientations (sheet : StockSheet.t) (panel : Panel.t)
    : list orientation :=
  let l := [(Panel.width panel, Panel.height panel, false)] ++
           (if Panel.width panel =? Panel.height panel then []
            else [(Panel.height panel, Panel.width panel, true)]) in
  list_sort (orientation_key sheet) tuple2_lt l.

(** The filter of the priority positions. *)
Definition within (sheet : StockSheet.t) (w h : float) (p : float * float)
    : bool :=
  (0 <=? p.1) && (p.1 <=? StockSheet.width sheet - w) &&
  (0 <=? p.2) && (p.2 <=? StockSheet.height sheet - h).

Definition priority_positions (sheet : StockSheet.t) (w h : float)
    : list (float * float) :=
  let all :=
    [ (0, 0);
      (StockSheet.width sheet - w, 0);
      (0, StockSheet.height sheet - h);
      (StockSheet.width sheet - w, StockSheet.height sheet - h) ] ++
    flat_map (fun used =>
                [ (Rect.x used + Rect.w used, Rect.y used);
                  (Rect.x used, Rect.y used + Rect.h used) ])
             (StockSheet.used_space sheet) in
  List.filter (within sheet w h) all.

Definition grid_scan (sheet : StockSheet.t) (step w h : float)
    (rotated : bool) (b : best) : result best :=
  xs ← arange 0 (StockSheet.width sheet - w + step) step;
  for_each
    (fun b x =>
       ys ← arange 0 (StockSheet.height sheet - h + step) step;
       Ok (foldl (fun b y =>
                    consider (StockSheet.used_space sheet) w h rotated b x y)
                 b ys))
    xs b.

Definition try_orientation (sheet : StockSheet.t) (step : float) (b : best)
    (o : orientation) : result best :=
  let '(w, h, rotated) := o in
  if (StockSheet.width sheet <? w) || (StockSheet.height sheet <? h)
  then Ok b
  else
    let b :=
      foldl (fun b p =>
               consider (StockSheet.used_space sheet) w h rotated b p.1 p.2)
            b (priority_positions sheet w h) in
    match b with
    | Some _ => Ok b
    | None => grid_scan sheet step w h rotated b
    end.

Definition grid_step (sheet : StockSheet.t) (panel : Panel.t) : float :=
  py_min (py_min (py_min (Panel.width panel) (Panel.height panel))
                 (StockSheet.width sheet))
         (StockSheet.height sheet) * 0.001.

Definition find_position (sheet : StockSheet.t) (panel : Panel.t)
    : result best :=
  let step := grid_step sheet panel in
  for_each (try_orientation sheet step) (orientations sheet panel) None.

(** ** [optimize_layout] *)

Definition deref (σ : heap) (r : ref) : result Panel.t :=
  match σ !! r with
  | Some p => Ok p
  | None => Stuck
  end.

Fixpoint copy_panels (panels : list ref) (panels_copy : list ref) (σ : heap)
    : result (list ref * heap) :=
  match panels with
  | [] => Ok (panels_copy, σ)
  | r :: panels' =>
      panel ← deref σ r;
      let n := Z.to_nat (Panel.quantity panel) in
      copy_panels panels'
        (panels_copy ++ seq (length σ) n)
        (σ ++ replicate n
                (new_Panel (Panel.width panel) (Panel.height panel) 1))
  end.

Definition panel_key (p : Panel.t) : float * float * float :=
  (- py_max (Panel.width p) (Panel.height p),
   - (Panel.width p * Panel.height p),
   - py_min (Panel.width p) (Panel.height p)).

Definition sort_panels (panels_copy : list ref) (σ : heap)
    : result (list ref) :=
  keyed ← map_each (fun r => p ← deref σ r; Ok (panel_key p, r)) panels_copy;
  Ok (map snd (list_sort fst tuple3_lt keyed)).

Definition add_used (sheet : StockSheet.t) (panel : Panel.t) (r : ref)
    (x y : float) (rotated : bool) : StockSheet.t :=
  let w := if rotated then Panel.height panel else Panel.width panel in
  let h := if rotated then Panel.width panel else Panel.height panel in
  StockSheet.mk (StockSheet.width sheet) (StockSheet.height sheet)
    (StockSheet.used_space sheet ++ [Rect.mk x y w h r])
    (StockSheet.efficiency sheet).

Definition mark_placed (panel : Panel.t) (x y : float) (rotated : bool)
    : Panel.t :=
  Panel.mk (Panel.width panel) (Panel.height panel)
    (Panel.quantity panel - 1) (Some (x, y)) rotated.

Fixpoint try_sheets (sheets : list StockSheet.t) (panel : Panel.t) (r : ref)
    (σ : heap) : result (option (list StockSheet.t * heap)) :=
  match sheets with
  | [] => Ok None
  | sheet :: sheets' =>
      found ← find_position sheet panel;
      match found with
      | Some (x, y, rotated) =>
          Ok (Some (add_used sheet panel r x y rotated :: sheets',
                    <[r := mark_placed panel x y rotated]> σ))
      | None =>
          placed ← try_sheets sheets' panel r σ;
          match placed with
          | Some (sheets', σ) => Ok (Some (sheet :: sheets', σ))
          | None => Ok None
          end
      end
  end.

Definition place_on_new_sheet (stock_width stock_height : float)
    (sheets : list StockSheet.t) (panel : Panel.t) (r : ref) (σ : heap)
    : result (list StockSheet.t * heap) :=
  let new_sheet := new_StockSheet stock_width stock_height in
  found ← find_position new_sheet panel;
  match found with
  | Some (x, y, rotated) =>
      Ok (sheets ++ [add_used new_sheet panel r x y rotated],
          <[r := mark_placed panel x y rotated]> σ)
  | None => Raise ValueError
  end.

Definition state : Type := list StockSheet.t * list ref * heap.

Definition loop_body (stock_width stock_height : float)
    (sheets : list StockSheet.t) (r : ref) (remaining_panels : list ref)
    (σ : heap) : result state :=
  panel ← deref σ r;
  placed ← try_sheets sheets panel r σ;
  '(sheets, σ) ← match placed with
                 | Some res => Ok res
                 | None =>
                     place_on_new_sheet stock_width stock_height
                       sheets panel r σ
                 end;
  panel ← deref σ r;
  if bool_decide (Panel.quantity panel = 0%Z)
  then Ok (sheets, tail remaining_panels, σ)
  else Ok (sheets, remaining_panels, σ).

Fixpoint while_remaining (fuel : nat) (stock_width stock_height : float)
    (st : state) : result state :=
  match st with
  | (sheets, [], σ) => Ok st
  | (sheets, (r :: _) as remaining_panels, σ) =>
      match fuel with
      | O => Stuck
      | S fuel' =>
          st' ← loop_body stock_width stock_height sheets r
                  remaining_panels σ;
          while_remaining fuel' stock_width stock_height st'
      end
  end.

(** [sum(space['w'] * space['h'] for space in sheet.used_space)] *)
Definition used_area (sheet : StockSheet.t) : float :=
  foldl (fun acc space => acc + Rect.w space * Rect.h space) 0
        (StockSheet.used_space sheet).

Definition set_efficiency (sheet : StockSheet.t) : result StockSheet.t :=
  let area := StockSheet.width sheet * StockSheet.height sheet in
  if area =? 0 then Raise ZeroDivisionError
  else Ok (StockSheet.mk (StockSheet.width sheet) (StockSheet.height sheet)
             (StockSheet.used_space sheet)
             (used_area sheet / area * 100)).

Definition optimize_layout (stock_width stock_height : float)
    (panels : list ref) (σ : heap) : result (list StockSheet.t * heap) :=
  '(panels_copy, σ) ← copy_panels panels [] σ;
  panels_copy ← sort_panels panels_copy σ;
  let sheets := [new_StockSheet stock_width stock_height] in
  '(sheets, _, σ) ← while_remaining (length panels_copy)
                      stock_width stock_height (sheets, panels_copy, σ);
  sheets ← map_each set_efficiency sheets;
  Ok (sheets, σ).

End B64.

(** ** The order of binary64 numbers

    A number that is not NaN has a rank, a triple of integers ordered
    lexicographically as the numbers are: the sign class first, then the
    exponent and the mantissa, both negated for negative numbers. *)
Definition sf_rank (x : spec_float) : option (Z * Z * Z) :=
  match x with
  | S754_nan => None
  | S754_zero _ => Some (0, 0, 0)%Z
  | S754_infinity s => Some (if s then (-2)%Z else 2%Z, 0%Z, 0%Z)
  | S754_finite s m e =>
      Some (if s then ((-1)%Z, (- e)%Z, Z.neg m) else (1%Z, e, Z.pos m))
  end.

Definition rank (x : float) : option (Z * Z * Z) := sf_rank (Prim2SF x).

Definition lex3 (a b : Z * Z * Z) : comparison :=
  match (a.1.1 ?= b.1.1)%Z with
  | Eq => match (a.1.2 ?= b.1.2)%Z with
          | Eq => (a.2 ?= b.2)%Z
          | c => c
          end
  | c => c
  end.

Definition lt3 (a b : Z * Z * Z) : Prop :=
  (a.1.1 < b.1.1 \/
   (a.1.1 = b.1.1 /\ (a.1.2 < b.1.2 \/ (a.1.2 = b.1.2 /\ a.2 < b.2))))%Z.

Definition eq3 (a b : Z * Z * Z) : Prop :=
  (a.1.1 = b.1.1 /\ a.1.2 = b.1.2 /\ a.2 = b.2)%Z.

Definition le3 (a b : Z * Z * Z) : Prop := lt3 a b \/ eq3 a b.

(** Both numbers have a rank, and the ranks are related. *)
Definition ranked (R : Z * Z * Z -> Z * Z * Z -> Prop) (x y : float) : Prop :=
  exists a b, rank x = Some a /\ rank y = Some b /\ R a b.

(** The result of rounding has the sign it was given. *)
Definition signed (s : bool) (x : spec_float) : Prop :=
  x = S754_zero s \/ x = S754_infinity s \/ exists m e, x = S754_finite s m e.

(** ** The candidates of the placement search, in binary64 *)

Module B64Spec.
Import B64.

#[local] Open Scope float_scope.

Definition candidate : Type := float * float * bool.

Definition tag (rotated : bool) (p : float * float) : candidate :=
  (p.1, p.2, rotated).

(** An orientation is searched unless the test of line 42 skips it. *)
Definition searched (sheet : StockSheet.t) (w h : float) : bool :=
  negb ((StockSheet.width sheet <? w) || (StockSheet.height sheet <? h)).

(** The orientation fits the raw extent of the sheet. *)
Definition fits (sheet : StockSheet.t) (w h : float) : bool :=
  (w <=? StockSheet.width sheet) && (h <=? StockSheet.height sheet).

Definition valid_among (sheet : StockSheet.t) (w h : float)
    (l : list (float * float)) : list (float * float) :=
  List.filter (fun p => is_valid (StockSheet.used_space sheet) w h p.1 p.2) l.

(** The values of a range that [np.arange] builds; none when it raises. *)
Definition range_values (stop step : float) : list float :=
  match arange 0 stop step with
  | Ok l => l
  | _ => []
  end.

(** The grid positions in scan order. *)
Definition grid_positions (sheet : StockSheet.t) (step w h : float)
    : list (float * float) :=
  flat_map
    (fun x => map (fun y => (x, y))
                  (range_values (StockSheet.height sheet - h + step) step))
    (range_values (StockSheet.width sheet - w + step) step).

(** The admissible candidates one orientation contributes, in the order
    they are examined: its priority positions; its grid positions when it
    has no admissible priority position and nothing was [found] before. *)
Definition examined_in (sheet : StockSheet.t) (step : float) (found : bool)
    (o : orientation) : list candidate :=
  let '(w, h, rotated) := o in
  if searched sheet w h then
    match valid_among sheet w h (priority_positions sheet w h), found with
    | [], false =>
        map (tag rotated) (valid_among sheet w h (grid_positions sheet step w h))
    | prio, _ => map (tag rotated) prio
    end
  else [].

Fixpoint examined (sheet : StockSheet.t) (step : float) (found : bool)
    (os : list orientation) : list candidate :=
  match os with
  | [] => []
  | o :: os' =>
      let here := examined_in sheet step found o in
      here ++ examined sheet step (found || nonempty here) os'
  end.

(** The two phases taken for each orientation on its own. *)
Definition admissible (sheet : StockSheet.t) (step : float)
    (os : list orientation) : list candidate :=
  flat_map (examined_in sheet step false) os.

(** [b] is the choice among the candidates [C]: none when there is no
    candidate, otherwise a candidate that strictly improves on all those
    before it and on which none after it improves, so the smallest
    [(y, x)] and, among equals, the first. *)
Definition is_best (C : list candidate) (b : best) : Prop :=
  match b with
  | None => C = []
  | Some c =>
      exists C1 C2, C = C1 ++ c :: C2 /\
        (forall c', c' ∈ C1 -> improves (Some c') c.1.1 c.1.2 = true) /\
        (forall c', c' ∈ C2 -> improves (Some c) c'.1.1 c'.1.2 = false)
  end.

(** Both coordinates are numbers. *)
Definition comparable (c : candidate) : Prop :=
  is_nan c.1.1 = false /\ is_nan c.1.2 = false.

Definition placed_w (panel : Panel.t) (rotated : bool) : float :=
  if rotated then Panel.height panel else Panel.width panel.

Definition placed_h (panel : Panel.t) (rotated : bool) : float :=
  if rotated then Panel.width panel else Panel.height panel.

(** The two ranges of the scan of an orientation have a length: the
    step is not zero and NumPy can build both arrays. *)
Definition scan_ok (sheet : StockSheet.t) (step w h : float) : Prop :=
  (exists n, arange_length 0 (StockSheet.width sheet - w + step) step = Ok n) /\
  (exists n, arange_length 0 (StockSheet.height sheet - h + step) step = Ok n).

(** So it is for every orientation of the panel that is searched. *)
Definition scans_ok (sheet : StockSheet.t) (panel : Panel.t) : Prop :=
  forall w h rot,
    (w, h, rot) ∈ orientations sheet panel -> searched sheet w h = true ->
    scan_ok sheet (grid_step sheet panel) w h.

(** The origin passes the filter of the priority positions. *)
Definition origin_within (sheet : StockSheet.t) (w h : float) : Prop :=
  within sheet w h (0, 0) = true.

(** ** The allocation loop, in binary64 *)

(** The entry that records the panel at [r] placed at [c], the sheet with
    one more entry, and the panel object after its placement. *)
Definition entry (panel : Panel.t) (r : ref) (c : candidate) : Rect.t :=
  Rect.mk c.1.1 c.1.2 (placed_w panel c.2) (placed_h panel c.2) r.

Definition with_entry (sheet : StockSheet.t) (u : Rect.t) : StockSheet.t :=
  StockSheet.mk (StockSheet.width sheet) (StockSheet.height sheet)
    (StockSheet.used_space sheet ++ [u]) (StockSheet.efficiency sheet).

Definition placed (panel : Panel.t) (c : candidate) : Panel.t :=
  Panel.mk (Panel.width panel) (Panel.height panel)
    (Panel.quantity panel - 1) (Some (c.1.1, c.1.2)) c.2.

(** Sheet [i] is the first, in creation order, on which the search gives
    the panel a position, and [c] is that position. *)
Definition first_fit (sheets : list StockSheet.t) (panel : Panel.t)
    (i : nat) (c : candidate) : Prop :=
  (exists sheet, sheets !! i = Some sheet /\
                 find_position sheet panel = Ok (Some c)) /\
  forall j s, (j < i)%nat -> sheets !! j = Some s ->
              find_position s panel = Ok None.

(** Every sheet rejects the panel. *)
Definition all_reject (sheets : list StockSheet.t) (panel : Panel.t) : Prop :=
  Forall (fun s => find_position s panel = Ok None) sheets.

(** What one turn does to the sheet list: the panel at [r] goes at [c] to
    the first sheet that gives it a position, the other sheets staying as
    they are, or, when every sheet rejects it, to a new sheet of the stock
    dimensions appended to the list. *)
Definition placement (W H : float) (sheets : list StockSheet.t)
    (panel : Panel.t) (r : ref) (c : candidate)
    (sheets' : list StockSheet.t) : Prop :=
  (exists i sheet,
     first_fit sheets panel i c /\ sheets !! i = Some sheet /\
     sheets' = <[i := with_entry sheet (entry panel r c)]> sheets) \/
  (all_reject sheets panel /\
   find_position (new_StockSheet W H) panel = Ok (Some c) /\
   sheets' = sheets ++ [with_entry (new_StockSheet W H) (entry panel r c)]).

(** The turns of a run on a queue: one placement for each instance, in
    queue order, each recorded in the object of the instance. *)
Inductive turns (W H : float)
    : list StockSheet.t * heap -> list ref -> list StockSheet.t * heap -> Prop :=
| turns_nil (st : list StockSheet.t * heap) : turns W H st [] st
| turns_cons (sheets : list StockSheet.t) (σ : heap) (r : ref)
    (queue : list ref) (panel : Panel.t) (c : candidate)
    (sheets1 : list StockSheet.t) (st' : list StockSheet.t * heap) :
    σ !! r = Some panel ->
    placement W H sheets panel r c sheets1 ->
    turns W H (sheets1, <[r := placed panel c]> σ) queue st' ->
    turns W H (sheets, σ) (r :: queue) st'.

(** The queue designates distinct objects of the store, each of quantity
    1. *)
Definition queue_ok (σ : heap) (rem : list ref) : Prop :=
  NoDup rem /\
  Forall (fun r => exists p, σ !! r = Some p /\ Panel.quantity p = 1%Z) rem.

Definition panels_in (σ : heap) (panels : list ref) (specs : list Panel.t)
    : Prop :=
  Forall2 (fun r p => σ !! r = Some p) panels specs.

Definition copies_of (spec : Panel.t) : list Panel.t :=
  replicate (Z.to_nat (Panel.quantity spec))
            (new_Panel (Panel.width spec) (Panel.height spec) 1).

Definition expansion (specs : list Panel.t) : list Panel.t :=
  flat_map copies_of specs.

Definition stock_sized (W H : float) (s : StockSheet.t) : Prop :=
  StockSheet.width s = W /\ StockSheet.height s = H.

Definition placed_refs (sheets : list StockSheet.t) : list ref :=
  flat_map (fun s => map Rect.panel (StockSheet.used_space s)) sheets.

(** The sheets [sheets'] are the sheets [sheets] with an efficiency. *)
Definition same_layout (sheets sheets' : list StockSheet.t) : Prop :=
  Forall2 (fun s s' =>
             StockSheet.width s' = StockSheet.width s /\
             StockSheet.height s' = StockSheet.height s /\
             StockSheet.used_space s' = StockSheet.used_space s)
          sheets sheets'.

(** ** Requests, in binary64 *)

(** The panel fits the stock sheet in one orientation at least. *)
Definition panel_fits (W H : float) (p : Panel.t) : bool :=
  (Panel.width p <=? W) && (Panel.height p <=? H) ||
  (Panel.height p <=? W) && (Panel.width p <=? H).

(** A panel spec of finite sides and at least one piece. *)
Definition spec_ok (p : Panel.t) : Prop :=
  is_finite (Panel.width p) = true /\ is_finite (Panel.height p) = true /\
  (1 <= Panel.quantity p)%Z.

(** A panel of finite sides that fits the stock sheet, and whose scans can
    be built; a panel of finite sides that fits in neither orientation. *)
Definition placeable (W H : float) (p : Panel.t) : Prop :=
  scans_ok (new_StockSheet W H) p /\
  is_finite (Panel.width p) = true /\ is_finite (Panel.height p) = true /\
  panel_fits W H p = true.

Definition unplaceable (W H : float) (p : Panel.t) : Prop :=
  is_finite (Panel.width p) = true /\ is_finite (Panel.height p) = true /\
  panel_fits W H p = false.

(** Every (some) reference of the queue designates an object with [P]. *)
Definition queue_all (P : Panel.t -> Prop) (σ : heap) (rem : list ref)
    : Prop :=
  Forall (fun r => exists p, σ !! r = Some p /\ P p) rem.

Definition queue_any (P : Panel.t -> Prop) (σ : heap) (rem : list ref)
    : Prop :=
  Exists (fun r => exists p, σ !! r = Some p /\ P p) rem.

(** ** Relocation, in binary64

    [shift_sheet k] moves the references of a sheet by [k]; [allocate] is
    [optimize_layout] after its copy loop, in the store of the instances
    alone. *)

Definition shift_rect (k : nat) (u : Rect.t) : Rect.t :=
  Rect.mk (Rect.x u) (Rect.y u) (Rect.w u) (Rect.h u) (k + Rect.panel u).

Definition shift_sheet (k : nat) (s : StockSheet.t) : StockSheet.t :=
  StockSheet.mk (StockSheet.width s) (StockSheet.height s)
    (map (shift_rect k) (StockSheet.used_space s)) (StockSheet.efficiency s).

Definition shift_state (α : heap) (st : state) : state :=
  (map (shift_sheet (length α)) st.1.1, map (Nat.add (length α)) st.1.2,
   α ++ st.2).

Definition allocate (stock_width stock_height : float) (instances : heap)
    : result (list StockSheet.t * heap) :=
  panels_copy ← sort_panels (seq 0 (length instances)) instances;
  let sheets := [new_StockSheet stock_width stock_height] in
  '(sheets, _, σ) ← while_remaining (length panels_copy)
                      stock_width stock_height
                      (sheets, panels_copy, instances);
  sheets ← map_each set_efficiency sheets;
  Ok (sheets, σ).

(** ** What a caller sees of a layout, in binary64

    The sheets with, for every entry, the object its panel reference
    designates in the store. *)
Definition rect_view (σ : heap) (u : Rect.t)
    : float * float * float * float * option Panel.t :=
  (Rect.x u, Rect.y u, Rect.w u, Rect.h u, σ !! Rect.panel u).

Definition sheet_view (σ : heap) (s : StockSheet.t)
    : float * float * float
      * list (float * float * float * float * option Panel.t) :=
  (StockSheet.width s, StockSheet.height s, StockSheet.efficiency s,
   map (rect_view σ) (StockSheet.used_space s)).

Definition layout_view (σ : heap) (sheets : list StockSheet.t)
    : list (float * float * float
            * list (float * float * float * float * option Panel.t)) :=
  map (sheet_view σ) sheets.

(** What a caller sees of the outcome of a run. *)
Definition outcome_view (m : result (list StockSheet.t * heap))
    : result (list (float * float * float
                    * list (float * float * float * float * option Panel.t))) :=
  result_map (fun res : list StockSheet.t * heap => layout_view res.2 res.1) m.

(** ** Overlap, in binary64 and in exact numbers *)

(** The overlap test read between two entries, on the sums as computed. *)
Definition rect_apart (u v : Rect.t) : bool :=
  apart (Rect.x u) (Rect.y u) (Rect.w u) (Rect.h u) v.

(** Every entry passes the test against the entries placed before it. *)
Definition pairwise_apart (l : list Rect.t) : Prop :=
  forall i j u v, (i < j)%nat -> l !! i = Some u -> l !! j = Some v ->
                  rect_apart v u = true.

(** The rational number that a finite binary64 number is. *)
Definition exact (f : float) : Q :=
  match Prim2SF f with
  | S754_finite s m e =>
      inject_Z (if s then Z.neg m else Z.pos m) * Qpower 2 e
  | _ => 0%Q
  end.

(** A point strictly inside an entry, in exact numbers. *)
Definition interior (u : Rect.t) (px py : Q) : Prop :=
  (exact (Rect.x u) < px /\ px < exact (Rect.x u) + exact (Rect.w u) /\
   exact (Rect.y u) < py /\ py < exact (Rect.y u) + exact (Rect.h u))%Q.

(** The grid: the coordinates that the fill loop of [np.arange] gives from
    a step, [0], [step], then [0 + i * step] rounded. *)
Definition grid_coordinate (step : float) (i : nat) : float :=
  match i with
  | 0%nat => 0
  | 1%nat => step
  | _ => 0 + of_nat i * step
  end.

(** ** Concrete requests *)

(** A 4 by 3 sheet with two small entries at mid-height of its left and
    right edges, and a 3 by 1 panel. *)
Definition sheet_two_tabs : StockSheet.t :=
  StockSheet.mk 4 3
    [Rect.mk 0 0.5 0.5 0.5 0%nat; Rect.mk 3.5 0.5 0.5 0.5 1%nat] 0.

Definition panel_3x1 : Panel.t := new_Panel 3 1 1.

(** A 100 by 100 sheet holding an 80 by 80 panel, as after the first
    placement of Scenario B. *)
Definition sheet_B : StockSheet.t :=
  StockSheet.mk 100 100 [Rect.mk 0 0 80 80 1%nat] 0.

(** A sheet a hundred billion billion wide whose lower half is taken. *)
Definition sheet_wide : StockSheet.t :=
  StockSheet.mk 1e20 1 [Rect.mk 0 0 1e20 0.5 0%nat] 0.

End B64Spec.

(** * Properties *)

(** ** The result monad *)

Lemma bind_Ok {A B : Type} (m : result A) (f : A -> result B) (b : B) :
  m ≫= f = Ok b <-> exists a, m = Ok a /\ f a = Ok b.
Proof.
  destruct m as [a| |]; simpl; split.
  - intros H. exists a. auto.
  - intros (a' & Ha & H). congruence.
  - intros H. discriminate.
  - intros (a' & Ha & H). discriminate.
  - intros H. discriminate.
  - intros (a' & Ha & H). discriminate.
Qed.

(** ** The order on candidates *)

Lemma improves_trans (bx by_ cx cy x y : Q) (r r' : bool) :
  improves (Some (bx, by_, r)) cx cy ->
  improves (Some (cx, cy, r')) x y ->
  improves (Some (bx, by_, r)) x y.
Proof. simpl. intros [H1|[H1 H1']] [H2|[H2 H2']]; lra. Qed.

Lemma improves_not_trans (bx by_ cx cy x y : Q) (r r' : bool) :
  ~ improves (Some (bx, by_, r)) cx cy ->
  improves (Some (bx, by_, r)) x y ->
  improves (Some (cx, cy, r')) x y.
Proof.
  simpl. intros H1 H2.
  destruct (Qlt_le_dec y cy) as [Hy|Hy]; [left; assumption|].
  destruct (Qlt_le_dec x cx) as [Hx|Hx].
  - destruct (Qeq_dec y cy) as [He|He]; [right; split; assumption|].
    exfalso. apply H1. destruct H2 as [H2|[H2 H2']]; left; lra.
  - exfalso. apply H1. destruct H2 as [H2|[H2 H2']].
    + left; lra.
    + destruct (Qeq_dec cy by_) as [He|He]; [right; split; lra|left; lra].
Qed.

(** ** The running best is the choice among the candidates seen so far *)

Lemma is_best_None_iff (C : list candidate) (b : best) :
  is_best C b -> (b = None <-> C = []).
Proof.
  destruct b as [c|]; simpl.
  - intros (C1 & C2 & -> & _). split; [discriminate|].
    intros H. destruct C1; discriminate.
  - intros ->. split; reflexivity.
Qed.

Lemma is_best_snoc (C : list candidate) (b : best) (x y : Q) (rot : bool) :
  is_best C b ->
  is_best (C ++ [(x, y, rot)])
          (if bool_decide (improves b x y) then Some (x, y, rot) else b).
Proof.
  destruct b as [[[bx by_] r]|].
  - intros (C1 & C2 & -> & H1 & H2). case_bool_decide as Himp.
    + exists (C1 ++ (bx, by_, r) :: C2), []. split; [reflexivity|]. split.
      * intros [[cx cy] cr] Hin. simpl.
        apply elem_of_app in Hin as [Hin|Hin].
        { apply (improves_trans cx cy bx by_ x y cr r);
            [apply (H1 _ Hin)|exact Himp]. }
        apply elem_of_cons in Hin as [Heq|Hin].
        { inversion Heq; subst. exact Himp. }
        apply (improves_not_trans bx by_ cx cy x y r cr);
          [apply (H2 _ Hin)|exact Himp].
      * intros c' Hin. inversion Hin.
    + exists C1, (C2 ++ [(x, y, rot)]). split.
      { rewrite <- app_assoc. reflexivity. }
      split; [exact H1|].
      intros c' Hin. apply elem_of_app in Hin as [Hin|Hin]; [auto|].
      apply list_elem_of_singleton in Hin. subst c'. exact Himp.
  - intros ->. simpl. exists [], []. split; [reflexivity|].
    split; intros c' Hin; inversion Hin.
Qed.

Lemma foldl_consider_best (sheet : StockSheet.t) (w h : Q) (rot : bool)
    (l : list (Q * Q)) (C : list candidate) (b : best) :
  is_best C b ->
  is_best (C ++ map (tag rot) (valid_among sheet w h l))
    (foldl (fun b p => consider (StockSheet.used_space sheet) w h rot b p.1 p.2)
           b l).
Proof.
  revert C b. induction l as [|p l IH]; intros C b HC.
  - simpl. rewrite app_nil_r. exact HC.
  - unfold valid_among in *. cbn [foldl List.filter]. unfold consider at 2.
    destruct (is_valid (StockSheet.used_space sheet) w h p.1 p.2) eqn:Hv.
    + cbn [map]. rewrite cons_middle, app_assoc.
      apply IH. apply is_best_snoc. exact HC.
    + apply IH. exact HC.
Qed.

(** ** The fallback scan *)

Lemma arange_nonzero (start stop step : Q) :
  ~ step == 0 -> arange start stop step = Ok (arange_values start stop step).
Proof.
  intros Hstep. unfold arange.
  rewrite bool_decide_eq_false_2 by exact Hstep. reflexivity.
Qed.

Lemma grid_rows (used_space : list Rect.t) (w h : Q) (rot : bool)
    (xs ys : list Q) (b : best) :
  for_each
    (fun b x =>
       Ok (foldl (fun b y => consider used_space w h rot b x y) b ys))
    xs b
  = Ok (foldl (fun b p => consider used_space w h rot b p.1 p.2) b
          (flat_map (fun x => map (fun y => (x, y)) ys) xs)).
Proof.
  revert b. induction xs as [|x xs IH]; intros b.
  - reflexivity.
  - cbn [for_each flat_map mbind result_bind].
    rewrite IH. f_equal. rewrite foldl_app. f_equal.
    clear IH. revert b. induction ys as [|y ys IHy]; intros b; simpl; auto.
Qed.

Lemma grid_scan_nonzero (sheet : StockSheet.t) (step w h : Q) (rot : bool)
    (b : best) :
  ~ step == 0 ->
  grid_scan sheet step w h rot b
  = Ok (foldl
          (fun b p => consider (StockSheet.used_space sheet) w h rot b p.1 p.2)
          b (grid_positions sheet step w h)).
Proof.
  intros Hstep. unfold grid_scan.
  rewrite !(arange_nonzero 0 _ _ Hstep). cbn [mbind result_bind].
  apply grid_rows.
Qed.

Lemma grid_scan_zero (sheet : StockSheet.t) (step w h : Q) (rot : bool)
    (b : best) :
  step == 0 -> grid_scan sheet step w h rot b = Raise ZeroDivisionError.
Proof.
  intros Hstep. unfold grid_scan, arange.
  rewrite bool_decide_eq_true_2 by exact Hstep. reflexivity.
Qed.

Lemma grid_scan_Ok (sheet : StockSheet.t) (step w h : Q) (rot : bool)
    (b b' : best) :
  grid_scan sheet step w h rot b = Ok b' ->
  b' = foldl
         (fun b p => consider (StockSheet.used_space sheet) w h rot b p.1 p.2)
         b (grid_positions sheet step w h).
Proof.
  intros H. destruct (Qeq_dec step 0) as [Hz|Hnz].
  - rewrite grid_scan_zero in H by exact Hz. discriminate.
  - rewrite grid_scan_nonzero in H by exact Hnz. congruence.
Qed.

(** ** One orientation, then all of them *)

Lemma try_orientation_best (sheet : StockSheet.t) (step : Q)
    (C : list candidate) (b b' : best) (o : orientation) :
  is_best C b ->
  try_orientation sheet step b o = Ok b' ->
  is_best (C ++ examined_in sheet step (nonempty C) o) b'.
Proof.
  intros HC Hrun. destruct o as [[w h] rot].
  unfold try_orientation in Hrun. unfold examined_in.
  case_bool_decide as Hskip.
  - rewrite bool_decide_eq_false_2.
    2:{ unfold fits. intros [H1 H2]. destruct Hskip as [Hs|Hs]; lra. }
    rewrite app_nil_r. congruence.
  - rewrite bool_decide_eq_true_2.
    2:{ unfold fits. split.
        - destruct (Qlt_le_dec (StockSheet.width sheet) w); [|assumption].
          exfalso. apply Hskip. left. assumption.
        - destruct (Qlt_le_dec (StockSheet.height sheet) h); [|assumption].
          exfalso. apply Hskip. right. assumption. }
    pose proof (foldl_consider_best sheet w h rot
                  (priority_positions sheet w h) C b HC) as Hprio.
    destruct (foldl _ b (priority_positions sheet w h)) as [c|] eqn:Hfold.
    + inversion Hrun; subst b'.
      destruct (valid_among sheet w h (priority_positions sheet w h))
        as [|p prio] eqn:Hva; [|exact Hprio].
      destruct (nonempty C) eqn:HneC; [exact Hprio|].
      exfalso. simpl in Hprio. rewrite app_nil_r in Hprio.
      destruct C; [|discriminate]. simpl in Hprio.
      destruct Hprio as (C1 & C2 & Heq & _). destruct C1; discriminate.
    + apply is_best_None_iff in Hprio as Hnil.
      destruct Hnil as [Hnil _]. specialize (Hnil eq_refl).
      apply app_eq_nil in Hnil as [-> Hnil].
      apply map_eq_nil in Hnil. rewrite Hnil. simpl.
      apply grid_scan_Ok in Hrun. subst b'.
      apply (foldl_consider_best sheet w h rot _ [] None). reflexivity.
Qed.

Lemma for_each_orientation_best (sheet : StockSheet.t) (step : Q)
    (os : list orientation) (C : list candidate) (b b' : best) :
  is_best C b ->
  for_each (try_orientation sheet step) os b = Ok b' ->
  is_best (C ++ examined sheet step (nonempty C) os) b'.
Proof.
  revert C b. induction os as [|o os IH]; intros C b HC Hrun; simpl in *.
  - rewrite app_nil_r. congruence.
  - apply bind_Ok in Hrun as (b1 & Hone & Hrest).
    pose proof (try_orientation_best sheet step C b b1 o HC Hone) as H1.
    specialize (IH _ _ H1 Hrest).
    rewrite <- app_assoc in IH.
    replace (nonempty (C ++ examined_in sheet step (nonempty C) o))
      with (nonempty C || nonempty (examined_in sheet step (nonempty C) o))
      in IH; [exact IH|].
    destruct C; simpl; [reflexivity|reflexivity].
Qed.

Lemma find_position_best (sheet : StockSheet.t) (panel : Panel.t) (b : best) :
  find_position sheet panel = Ok b ->
  is_best (examined sheet (grid_step sheet panel) false
             (orientations sheet panel)) b.
Proof.
  intros H. unfold find_position in H.
  apply (for_each_orientation_best sheet _ _ [] None b eq_refl H).
Qed.

(** ** Stable insertion sort *)

Section SortFacts.
Context {A K : Type} (key : A -> K) (ltb : K -> K -> bool).

Lemma insert_sorted_perm (a : A) (l : list A) :
  insert_sorted key ltb a l ≡ₚ a :: l.
Proof.
  induction l as [|b l IH]; simpl.
  - reflexivity.
  - destruct (ltb (key b) (key a)).
    + rewrite IH. apply Permutation_swap.
    + reflexivity.
Qed.

Lemma list_sort_perm (l : list A) : list_sort key ltb l ≡ₚ l.
Proof.
  induction l as [|a l IH]; simpl.
  - reflexivity.
  - rewrite insert_sorted_perm. rewrite IH. reflexivity.
Qed.

Lemma list_sort_elem_of (a : A) (l : list A) :
  a ∈ list_sort key ltb l <-> a ∈ l.
Proof. rewrite list_sort_perm. reflexivity. Qed.

End SortFacts.

(** ** Orientations *)

Lemma orientations_elem_of (sheet : StockSheet.t) (panel : Panel.t)
    (w h : Q) (rot : bool) :
  (w, h, rot) ∈ orientations sheet panel ->
  w = placed_w panel rot /\ h = placed_h panel rot.
Proof.
  unfold orientations. rewrite list_sort_elem_of.
  case_bool_decide; simpl; intros Hin.
  - apply list_elem_of_singleton in Hin. inversion Hin. auto.
  - apply elem_of_cons in Hin as [Hin|Hin].
    + inversion Hin. auto.
    + apply list_elem_of_singleton in Hin. inversion Hin. auto.
Qed.

Lemma orientations_unrotated (sheet : StockSheet.t) (panel : Panel.t) :
  (Panel.width panel, Panel.height panel, false) ∈ orientations sheet panel.
Proof.
  unfold orientations. rewrite list_sort_elem_of. simpl. left.
Qed.

Lemma orientations_rotated (sheet : StockSheet.t) (panel : Panel.t) :
  ~ Panel.width panel == Panel.height panel ->
  (Panel.height panel, Panel.width panel, true) ∈ orientations sheet panel.
Proof.
  intros Hne. unfold orientations. rewrite list_sort_elem_of.
  rewrite bool_decide_eq_false_2 by exact Hne. simpl. right. left.
Qed.

(** ** What the examined candidates are *)

Lemma valid_among_elem_of (sheet : StockSheet.t) (w h : Q)
    (l : list (Q * Q)) (p : Q * Q) :
  p ∈ valid_among sheet w h l <->
  p ∈ l /\ is_valid (StockSheet.used_space sheet) w h p.1 p.2 = true.
Proof.
  unfold valid_among. rewrite !list_elem_of_In. apply filter_In.
Qed.

Lemma examined_in_elem_of (sheet : StockSheet.t) (step : Q) (found : bool)
    (w h : Q) (rot : bool) (c : candidate) :
  c ∈ examined_in sheet step found (w, h, rot) ->
  c.2 = rot /\ fits sheet w h /\
  is_valid (StockSheet.used_space sheet) w h c.1.1 c.1.2 = true /\
  ((c.1.1, c.1.2) ∈ priority_positions sheet w h \/
   (c.1.1, c.1.2) ∈ grid_positions sheet step w h).
Proof.
  unfold examined_in. case_bool_decide as Hfit; [|intros Hin; inversion Hin].
  assert (Hmap : forall l, c ∈ map (tag rot) (valid_among sheet w h l) ->
            c.2 = rot /\
            is_valid (StockSheet.used_space sheet) w h c.1.1 c.1.2 = true /\
            (c.1.1, c.1.2) ∈ l).
  { intros l Hin. apply list_elem_of_fmap in Hin as ([x y] & -> & Hin).
    apply valid_among_elem_of in Hin as [Hin Hv]. simpl in *. auto. }
  destruct (valid_among sheet w h (priority_positions sheet w h))
    as [|p prio] eqn:Hprio.
  - destruct found.
    + intros Hin. inversion Hin.
    + intros Hin. apply Hmap in Hin as (? & ? & ?). auto.
  - rewrite <- Hprio. intros Hin.
    assert (c ∈ map (tag rot)
              (valid_among sheet w h (priority_positions sheet w h))) as Hin'.
    { destruct found; exact Hin. }
    apply Hmap in Hin' as (? & ? & ?). auto.
Qed.

Lemma examined_elem_of (sheet : StockSheet.t) (step : Q) (found : bool)
    (os : list orientation) (c : candidate) :
  c ∈ examined sheet step found os ->
  exists w h, (w, h, c.2) ∈ os /\ fits sheet w h /\
    is_valid (StockSheet.used_space sheet) w h c.1.1 c.1.2 = true /\
    ((c.1.1, c.1.2) ∈ priority_positions sheet w h \/
     (c.1.1, c.1.2) ∈ grid_positions sheet step w h).
Proof.
  revert found. induction os as [|[[w h] rot] os IH]; intros found Hin.
  - inversion Hin.
  - cbn [examined] in Hin. apply elem_of_app in Hin as [Hin|Hin].
    + apply examined_in_elem_of in Hin as (<- & Hfit & Hv & Hpos).
      exists w, h. split; [left|]. auto.
    + apply IH in Hin as (w' & h' & Hin & Hrest).
      exists w', h'. split; [right; exact Hin|exact Hrest].
Qed.

(** A position returned by [find_position] overlaps no entry of the sheet,
    for the extent the allocation loop gives the panel, which fits the
    sheet's raw extent. *)
Lemma find_position_valid (sheet : StockSheet.t) (panel : Panel.t)
    (x y : Q) (rot : bool) :
  find_position sheet panel = Ok (Some (x, y, rot)) ->
  fits sheet (placed_w panel rot) (placed_h panel rot) /\
  is_valid (StockSheet.used_space sheet)
           (placed_w panel rot) (placed_h panel rot) x y = true.
Proof.
  intros H. apply find_position_best in H.
  destruct H as (C1 & C2 & HC & _).
  assert ((x, y, rot) ∈ examined sheet (grid_step sheet panel) false
                          (orientations sheet panel)) as Hin.
  { rewrite HC. apply elem_of_app. right. left. }
  apply examined_elem_of in Hin as (w & h & Ho & Hfit & Hv & _).
  apply orientations_elem_of in Ho as [-> ->]. simpl in *. auto.
Qed.

(** ** When the search succeeds, fails or raises *)

Lemma consider_is_Some (used_space : list Rect.t) (w h : Q) (rot : bool)
    (b : best) (x y : Q) :
  is_Some b -> is_Some (consider used_space w h rot b x y).
Proof.
  intros Hb. unfold consider.
  destruct (is_valid used_space w h x y); [|exact Hb].
  case_bool_decide; [eexists; reflexivity|exact Hb].
Qed.

Lemma foldl_consider_is_Some (used_space : list Rect.t) (w h : Q)
    (rot : bool) (l : list (Q * Q)) (b : best) :
  is_Some b ->
  is_Some (foldl (fun b p => consider used_space w h rot b p.1 p.2) b l).
Proof.
  revert b. induction l as [|p l IH]; intros b Hb; simpl.
  - exact Hb.
  - apply IH. apply consider_is_Some. exact Hb.
Qed.

Lemma try_orientation_is_Some (sheet : StockSheet.t) (step : Q) (b : best)
    (o : orientation) :
  is_Some b ->
  exists b', try_orientation sheet step b o = Ok b' /\ is_Some b'.
Proof.
  intros Hb. destruct o as [[w h] rot]. unfold try_orientation.
  case_bool_decide.
  - exists b. auto.
  - pose proof (foldl_consider_is_Some (StockSheet.used_space sheet) w h rot
                  (priority_positions sheet w h) b Hb) as Hs.
    destruct Hs as [c Hc]. rewrite Hc. exists (Some c). split; [reflexivity|].
    eexists; reflexivity.
Qed.

Lemma for_each_orientation_is_Some (sheet : StockSheet.t) (step : Q)
    (os : list orientation) (b : best) :
  is_Some b ->
  exists b', for_each (try_orientation sheet step) os b = Ok b' /\ is_Some b'.
Proof.
  revert b. induction os as [|o os IH]; intros b Hb; simpl.
  - exists b. auto.
  - destruct (try_orientation_is_Some sheet step b o Hb) as (b1 & -> & Hb1).
    simpl. apply IH. exact Hb1.
Qed.

Lemma try_orientation_no_fit (sheet : StockSheet.t) (step : Q) (b : best)
    (w h : Q) (rot : bool) :
  ~ fits sheet w h -> try_orientation sheet step b (w, h, rot) = Ok b.
Proof.
  intros Hfit. unfold try_orientation.
  rewrite bool_decide_eq_true_2; [reflexivity|].
  destruct (Qlt_le_dec (StockSheet.width sheet) w) as [Hw|Hw]; [left; exact Hw|].
  destruct (Qlt_le_dec (StockSheet.height sheet) h) as [Hh|Hh];
    [right; exact Hh|].
  exfalso. apply Hfit. split; assumption.
Qed.

Lemma try_orientation_total (sheet : StockSheet.t) (step : Q) (b : best)
    (o : orientation) :
  ~ step == 0 -> exists b', try_orientation sheet step b o = Ok b'.
Proof.
  intros Hstep. destruct o as [[w h] rot]. unfold try_orientation.
  case_bool_decide; [eexists; reflexivity|].
  destruct (foldl _ b (priority_positions sheet w h)) as [c|].
  - eexists; reflexivity.
  - rewrite grid_scan_nonzero by exact Hstep. eexists; reflexivity.
Qed.

Lemma for_each_orientation_total (sheet : StockSheet.t) (step : Q)
    (os : list orientation) (b : best) :
  ~ step == 0 ->
  exists b', for_each (try_orientation sheet step) os b = Ok b'.
Proof.
  intros Hstep. revert b. induction os as [|o os IH]; intros b; simpl.
  - eexists; reflexivity.
  - destruct (try_orientation_total sheet step b o Hstep) as (b1 & ->).
    simpl. apply IH.
Qed.

(** With a grid step that is not zero the search raises nothing. *)
Lemma find_position_total (sheet : StockSheet.t) (panel : Panel.t) :
  ~ grid_step sheet panel == 0 ->
  exists b, find_position sheet panel = Ok b.
Proof. intros Hstep. apply for_each_orientation_total. exact Hstep. Qed.

Lemma py_min_pos (a b : Q) : 0 < a -> 0 < b -> 0 < py_min a b.
Proof. intros Ha Hb. unfold py_min. case_bool_decide; assumption. Qed.

Lemma grid_step_pos (sheet : StockSheet.t) (panel : Panel.t) :
  0 < StockSheet.width sheet -> 0 < StockSheet.height sheet ->
  0 < Panel.width panel -> 0 < Panel.height panel ->
  0 < grid_step sheet panel.
Proof.
  intros HW HH Hw Hh. unfold grid_step.
  pose proof (py_min_pos _ _ (py_min_pos _ _ (py_min_pos _ _ Hw Hh) HW) HH).
  lra.
Qed.

(** A panel that fits the sheet in neither orientation gets no position,
    whatever the sheet holds. *)
Lemma find_position_no_fit (sheet : StockSheet.t) (panel : Panel.t) :
  ~ fits sheet (Panel.width panel) (Panel.height panel) ->
  ~ fits sheet (Panel.height panel) (Panel.width panel) ->
  find_position sheet panel = Ok None.
Proof.
  intros H1 H2. unfold find_position.
  assert (forall os, (forall w h rot, (w, h, rot) ∈ os -> ~ fits sheet w h) ->
            for_each (try_orientation sheet (grid_step sheet panel)) os None
            = Ok None) as Hskip.
  { induction os as [|[[w h] rot] os IH]; intros Hos; cbn [for_each].
    - reflexivity.
    - rewrite try_orientation_no_fit by (apply (Hos w h rot); left).
      simpl. apply IH. intros w' h' rot' Hin. apply (Hos w' h' rot').
      right. exact Hin. }
  apply Hskip. intros w h rot Hin.
  apply orientations_elem_of in Hin as [-> ->].
  destruct rot; simpl; assumption.
Qed.

Lemma priority_positions_origin (sheet : StockSheet.t) (w h : Q) :
  fits sheet w h ->
  exists l, priority_positions sheet w h = (0, 0) :: l.
Proof.
  intros [Hw Hh]. unfold priority_positions. cbn [app List.filter].
  rewrite bool_decide_eq_true_2.
  - eexists; reflexivity.
  - simpl. repeat split; lra.
Qed.

Lemma try_orientation_empty_fit (sheet : StockSheet.t) (step : Q) (b : best)
    (w h : Q) (rot : bool) :
  StockSheet.used_space sheet = [] -> fits sheet w h ->
  exists b', try_orientation sheet step b (w, h, rot) = Ok b' /\ is_Some b'.
Proof.
  intros Hused Hfit. unfold try_orientation.
  rewrite bool_decide_eq_false_2.
  2:{ destruct Hfit as [Hw Hh]. intros [H|H]; lra. }
  destruct (priority_positions_origin sheet w h Hfit) as (l & ->).
  cbn [foldl].
  assert (is_Some (consider (StockSheet.used_space sheet) w h rot b
                     (0, 0).1 (0, 0).2)) as Hs.
  { unfold consider. rewrite Hused. simpl.
    case_bool_decide as Himp; [eexists; reflexivity|].
    destruct b; [eexists; reflexivity|]. exfalso. apply Himp. exact I. }
  pose proof (foldl_consider_is_Some (StockSheet.used_space sheet) w h rot l
                _ Hs) as [c Hc].
  rewrite Hc. exists (Some c). split; [reflexivity|eexists; reflexivity].
Qed.

Lemma for_each_orientation_empty_fit (sheet : StockSheet.t) (step : Q)
    (os : list orientation) (b : best) :
  StockSheet.used_space sheet = [] ->
  (exists w h rot, (w, h, rot) ∈ os /\ fits sheet w h) ->
  exists b', for_each (try_orientation sheet step) os b = Ok b' /\ is_Some b'.
Proof.
  intros Hused. revert b.
  induction os as [|[[w h] rot] os IH]; intros b (w' & h' & rot' & Hin & Hfit).
  - inversion Hin.
  - cbn [for_each].
    destruct (decide (w <= StockSheet.width sheet /\
                      h <= StockSheet.height sheet)) as [Hf|Hf].
    + destruct (try_orientation_empty_fit sheet step b w h rot Hused Hf)
        as (b1 & -> & Hb1).
      simpl. apply for_each_orientation_is_Some. exact Hb1.
    + rewrite try_orientation_no_fit by exact Hf. simpl. apply IH.
      apply elem_of_cons in Hin as [Heq|Hin].
      * inversion Heq; subst. contradiction.
      * exists w', h', rot'. auto.
Qed.

(** On an empty sheet, a panel that fits in some orientation gets a
    position. *)
Lemma find_position_empty_fit (sheet : StockSheet.t) (panel : Panel.t) :
  StockSheet.used_space sheet = [] ->
  fits sheet (Panel.width panel) (Panel.height panel) \/
  fits sheet (Panel.height panel) (Panel.width panel) ->
  exists c, find_position sheet panel = Ok (Some c).
Proof.
  intros Hused Hfit.
  assert (exists w h rot, (w, h, rot) ∈ orientations sheet panel /\
                          fits sheet w h) as Hex.
  { destruct Hfit as [Hfit|Hfit].
    - eexists _, _, _. split; [apply orientations_unrotated|exact Hfit].
    - destruct (Qeq_dec (Panel.width panel) (Panel.height panel)) as [He|Hne].
      + eexists _, _, _. split; [apply orientations_unrotated|].
        destruct Hfit as [H1 H2]. split; lra.
      + eexists _, _, _. split; [apply orientations_rotated; exact Hne|].
        exact Hfit. }
  destruct (for_each_orientation_empty_fit sheet (grid_step sheet panel)
              (orientations sheet panel) None Hused Hex) as (b' & Hrun & [c ->]).
  exists c. exact Hrun.
Qed.

(** ** One turn of the allocation loop *)

Lemma deref_Ok (σ : heap) (r : ref) (p : Panel.t) :
  deref σ r = Ok p <-> σ !! r = Some p.
Proof.
  unfold deref. destruct (σ !! r) as [q|]; split; intros H;
    try discriminate; congruence.
Qed.

Lemma try_sheets_Some (sheets : list StockSheet.t) (panel : Panel.t)
    (r : ref) (σ : heap) (sheets' : list StockSheet.t) (σ' : heap) :
  try_sheets sheets panel r σ = Ok (Some (sheets', σ')) ->
  exists i c, first_fit sheets panel i c /\
    sheets' = placed_on sheets i panel r c /\
    σ' = <[r := mark_placed panel c.1.1 c.1.2 c.2]> σ.
Proof.
  revert sheets'. induction sheets as [|sheet sheets IH]; intros sheets' Hrun.
  - discriminate.
  - cbn [try_sheets] in Hrun. apply bind_Ok in Hrun as (found & Hfind & Hrun).
    destruct found as [[[x y] rot]|].
    + inversion Hrun; subst. exists 0%nat, (x, y, rot). split; [|auto].
      split; [exists sheet; auto|]. intros j s Hj. lia.
    + apply bind_Ok in Hrun as (placed & Hrest & Hrun).
      destruct placed as [[sheets1 σ1]|]; [|discriminate].
      inversion Hrun; subst.
      destruct (IH _ Hrest) as (i & c & [(s & Hs & Hc) Hbefore] & -> & Hσ).
      exists (S i), c. split; [|split; [|exact Hσ]].
      * split; [exists s; auto|]. intros [|j] s' Hj Hs'.
        { inversion Hs'; subst. exact Hfind. }
        apply (Hbefore j s'); [lia|exact Hs'].
      * unfold placed_on.
        change ((sheet :: sheets) !! S i) with (sheets !! i).
        rewrite Hs. reflexivity.
Qed.

Lemma try_sheets_None (sheets : list StockSheet.t) (panel : Panel.t)
    (r : ref) (σ : heap) :
  try_sheets sheets panel r σ = Ok None <-> all_reject sheets panel.
Proof.
  unfold all_reject. induction sheets as [|sheet sheets IH]; cbn [try_sheets].
  - split; [constructor|reflexivity].
  - split.
    + intros Hrun. apply bind_Ok in Hrun as (found & Hfind & Hrun).
      destruct found as [[[x y] rot]|]; [discriminate|].
      apply bind_Ok in Hrun as (placed & Hrest & Hrun).
      destruct placed as [[sheets1 σ1]|]; [discriminate|].
      constructor; [exact Hfind|]. apply IH. exact Hrest.
    + intros Hall. inversion Hall as [|s l Hs Hl]; subst.
      rewrite Hs. cbn [mbind result_bind].
      apply IH in Hl. rewrite Hl. reflexivity.
Qed.

Lemma try_sheets_first_fit (sheets : list StockSheet.t) (panel : Panel.t)
    (r : ref) (σ : heap) (i : nat) (c : candidate) :
  first_fit sheets panel i c ->
  try_sheets sheets panel r σ
  = Ok (Some (placed_on sheets i panel r c,
              <[r := mark_placed panel c.1.1 c.1.2 c.2]> σ)).
Proof.
  revert i. induction sheets as [|sheet sheets IH];
    intros i [(s & Hs & Hc) Hbefore].
  - discriminate.
  - cbn [try_sheets]. destruct i as [|i].
    + inversion Hs; subst. rewrite Hc. destruct c as [[x y] rot].
      reflexivity.
    + rewrite (Hbefore 0%nat sheet) by (lia || reflexivity).
      cbn [mbind result_bind]. rewrite (IH i).
      * cbn [mbind result_bind]. unfold placed_on.
        change ((sheet :: sheets) !! S i) with (sheets !! i) in *.
        rewrite Hs. reflexivity.
      * split; [exists s; auto|]. intros j s' Hj Hs'.
        apply (Hbefore (S j) s'); [lia|exact Hs'].
Qed.

(** What a turn that does not raise has done: the head panel went to the
    first sheet that takes it, or to a new sheet at the end when every
    sheet rejects it; its object records the position; it leaves the
    queue when its quantity reaches zero. *)
Lemma loop_body_Ok (W H : Q) (sheets : list StockSheet.t) (r : ref)
    (rem : list ref) (σ : heap) (sheets' : list StockSheet.t)
    (rem' : list ref) (σ' : heap) :
  loop_body W H sheets r rem σ = Ok (sheets', rem', σ') ->
  exists panel c,
    σ !! r = Some panel /\
    σ' = <[r := mark_placed panel c.1.1 c.1.2 c.2]> σ /\
    rem' = (if bool_decide (Panel.quantity panel - 1 = 0)%Z
            then tail rem else rem) /\
    ((exists i, first_fit sheets panel i c /\
                sheets' = placed_on sheets i panel r c) \/
     (all_reject sheets panel /\
      find_position (new_StockSheet W H) panel = Ok (Some c) /\
      sheets' = sheets ++
                [add_used (new_StockSheet W H) panel r c.1.1 c.1.2 c.2])).
Proof.
  unfold loop_body. intros Hrun.
  apply bind_Ok in Hrun as (panel & Hp & Hrun). apply deref_Ok in Hp.
  apply bind_Ok in Hrun as (placed & Htry & Hrun).
  apply bind_Ok in Hrun as ([sheets1 σ1] & Hplace & Hrun).
  apply bind_Ok in Hrun as (panel1 & Hp1 & Hrun). apply deref_Ok in Hp1.
  assert (exists c, σ1 = <[r := mark_placed panel c.1.1 c.1.2 c.2]> σ /\
            ((exists i, first_fit sheets panel i c /\
                        sheets1 = placed_on sheets i panel r c) \/
             (all_reject sheets panel /\
              find_position (new_StockSheet W H) panel = Ok (Some c) /\
              sheets1 = sheets ++
                [add_used (new_StockSheet W H) panel r c.1.1 c.1.2 c.2])))
    as (c & -> & Hcase).
  { destruct placed as [[sheets2 σ2]|].
    - inversion Hplace; subst.
      apply try_sheets_Some in Htry as (i & c & Hff & -> & ->).
      exists c. split; [reflexivity|]. left. exists i. auto.
    - apply try_sheets_None in Htry. unfold place_on_new_sheet in Hplace.
      apply bind_Ok in Hplace as (found & Hfind & Hplace).
      destruct found as [[[x y] rot]|]; [|discriminate].
      inversion Hplace; subst. exists (x, y, rot). split; [reflexivity|].
      right. auto. }
  rewrite list_lookup_insert_eq in Hp1 by (eapply lookup_lt_Some; exact Hp).
  inversion Hp1; subst panel1. cbn [mark_placed Panel.quantity] in Hrun.
  exists panel, c. split; [exact Hp|].
  case_bool_decide; inversion Hrun; subst; auto.
Qed.

(** ** Invariants of the allocation loop *)

Lemma while_remaining_inv (P : state -> Prop) (W H : Q) (fuel : nat)
    (st st' : state) :
  (forall sheets r rem σ st1,
     P (sheets, r :: rem, σ) ->
     loop_body W H sheets r (r :: rem) σ = Ok st1 -> P st1) ->
  P st -> while_remaining fuel W H st = Ok st' ->
  P st' /\ st'.1.2 = [].
Proof.
  intros Hstep. revert st. induction fuel as [|fuel IH]; intros st HP Hrun.
  - destruct st as [[sheets [|r rem]] σ]; simpl in Hrun; [|discriminate].
    inversion Hrun; subst. auto.
  - destruct st as [[sheets [|r rem]] σ]; cbn [while_remaining] in Hrun.
    + inversion Hrun; subst. auto.
    + apply bind_Ok in Hrun as (st1 & Hbody & Hrun).
      apply (IH st1); [|exact Hrun]. eapply Hstep; eauto.
Qed.

Lemma placed_on_Forall (P : StockSheet.t -> Prop)
    (sheets : list StockSheet.t) (i : nat) (panel : Panel.t) (r : ref)
    (c : candidate) :
  Forall P sheets ->
  (forall sheet, sheets !! i = Some sheet -> P sheet ->
                 P (add_used sheet panel r c.1.1 c.1.2 c.2)) ->
  Forall P (placed_on sheets i panel r c).
Proof.
  intros Hall Hnew. unfold placed_on.
  destruct (sheets !! i) as [sheet|] eqn:Hi; [|exact Hall].
  apply Forall_insert; [exact Hall|].
  apply Hnew; [reflexivity|].
  rewrite Forall_forall in Hall. apply Hall.
  eapply list_elem_of_lookup_2. exact Hi.
Qed.

(** ** The efficiency pass and the whole run *)

Lemma map_each_set_efficiency (sheets sheets' : list StockSheet.t) :
  map_each set_efficiency sheets = Ok sheets' ->
  Forall2 (fun s s' =>
             StockSheet.width s' = StockSheet.width s /\
             StockSheet.height s' = StockSheet.height s /\
             StockSheet.used_space s' = StockSheet.used_space s /\
             StockSheet.efficiency s'
             = used_area s / (StockSheet.width s * StockSheet.height s) * 100)
          sheets sheets'.
Proof.
  revert sheets'. induction sheets as [|s sheets IH]; intros sheets' Hrun.
  - inversion Hrun. constructor.
  - cbn [map_each] in Hrun. apply bind_Ok in Hrun as (s' & Hs & Hrun).
    apply bind_Ok in Hrun as (rest & Hrest & Hrun). inversion Hrun; subst.
    constructor; [|apply IH; exact Hrest].
    unfold set_efficiency in Hs. case_bool_decide; [discriminate|].
    inversion Hs; subst. simpl. auto.
Qed.

Lemma optimize_layout_Ok (W H : Q) (panels : list ref) (σ : heap)
    (sheets : list StockSheet.t) (σ' : heap) :
  optimize_layout W H panels σ = Ok (sheets, σ') <->
  exists panels_copy σ1 sorted sheets0 rem0,
    copy_panels panels [] σ = Ok (panels_copy, σ1) /\
    sort_panels panels_copy σ1 = Ok sorted /\
    while_remaining (length sorted) W H ([new_StockSheet W H], sorted, σ1)
    = Ok (sheets0, rem0, σ') /\
    map_each set_efficiency sheets0 = Ok sheets.
Proof.
  unfold optimize_layout. split.
  - intros Hrun.
    apply bind_Ok in Hrun as ([panels_copy σ1] & Hcopy & Hrun).
    apply bind_Ok in Hrun as (sorted & Hsort & Hrun).
    apply bind_Ok in Hrun as ([[sheets0 rem0] σ2] & Hloop & Hrun).
    apply bind_Ok in Hrun as (sheets1 & Heff & Hrun).
    inversion Hrun; subst. eexists _, _, _, _, _. eauto.
  - intros (panels_copy & σ1 & sorted & sheets0 & rem0 & -> & Hsort & Hloop
            & Heff).
    cbn [mbind result_bind]. rewrite Hsort. cbn [mbind result_bind].
    rewrite Hloop. cbn [mbind result_bind]. rewrite Heff. reflexivity.
Qed.

(** ** The search and the sheet loop never get stuck *)

Lemma for_each_not_Stuck {A S : Type} (body : S -> A -> result S)
    (l : list A) (s : S) :
  (forall s a, body s a <> Stuck) -> for_each body l s <> Stuck.
Proof.
  intros Hbody. revert s. induction l as [|a l IH]; intros s; simpl.
  - discriminate.
  - pose proof (Hbody s a) as Ha.
    destruct (body s a) as [s'| |]; simpl; [apply IH|discriminate|congruence].
Qed.

Lemma grid_scan_not_Stuck (sheet : StockSheet.t) (step w h : Q) (rot : bool)
    (b : best) :
  grid_scan sheet step w h rot b <> Stuck.
Proof.
  destruct (Qeq_dec step 0) as [Hz|Hnz].
  - rewrite grid_scan_zero by exact Hz. discriminate.
  - rewrite grid_scan_nonzero by exact Hnz. discriminate.
Qed.

Lemma find_position_not_Stuck (sheet : StockSheet.t) (panel : Panel.t) :
  find_position sheet panel <> Stuck.
Proof.
  apply for_each_not_Stuck. intros b [[w h] rot]. unfold try_orientation.
  case_bool_decide; [discriminate|].
  destruct (foldl _ b (priority_positions sheet w h));
    [discriminate|apply grid_scan_not_Stuck].
Qed.

Lemma try_sheets_not_Stuck (sheets : list StockSheet.t) (panel : Panel.t)
    (r : ref) (σ : heap) :
  try_sheets sheets panel r σ <> Stuck.
Proof.
  induction sheets as [|sheet sheets IH]; cbn [try_sheets].
  - discriminate.
  - pose proof (find_position_not_Stuck sheet panel) as Hf.
    destruct (find_position sheet panel) as [[[[x y] rot]|]| |];
      cbn [mbind result_bind]; [discriminate| |discriminate|congruence].
    destruct (try_sheets sheets panel r σ) as [[[s1 σ1]|]| |];
      cbn [mbind result_bind]; congruence.
Qed.

(** ** One turn, forwards *)

Lemma loop_body_placed (W H : Q) (sheets sheets' : list StockSheet.t)
    (r : ref) (rem : list ref) (σ : heap) (panel : Panel.t) (c : candidate) :
  σ !! r = Some panel ->
  try_sheets sheets panel r σ
  = Ok (Some (sheets', <[r := mark_placed panel c.1.1 c.1.2 c.2]> σ)) ->
  loop_body W H sheets r rem σ
  = Ok (sheets',
        if bool_decide (Panel.quantity panel - 1 = 0)%Z then tail rem else rem,
        <[r := mark_placed panel c.1.1 c.1.2 c.2]> σ).
Proof.
  intros Hp Htry. unfold loop_body.
  rewrite (proj2 (deref_Ok σ r panel) Hp). cbn [mbind result_bind].
  rewrite Htry. cbn [mbind result_bind].
  rewrite (proj2 (deref_Ok _ r (mark_placed panel c.1.1 c.1.2 c.2))).
  - cbn [mbind result_bind mark_placed Panel.quantity].
    case_bool_decide; reflexivity.
  - apply list_lookup_insert_eq. eapply lookup_lt_Some. exact Hp.
Qed.

Lemma loop_body_first_fit (W H : Q) (sheets : list StockSheet.t) (r : ref)
    (rem : list ref) (σ : heap) (panel : Panel.t) (i : nat) (c : candidate) :
  σ !! r = Some panel -> first_fit sheets panel i c ->
  loop_body W H sheets r rem σ
  = Ok (placed_on sheets i panel r c,
        if bool_decide (Panel.quantity panel - 1 = 0)%Z then tail rem else rem,
        <[r := mark_placed panel c.1.1 c.1.2 c.2]> σ).
Proof.
  intros Hp Hff. apply loop_body_placed; [exact Hp|].
  apply try_sheets_first_fit. exact Hff.
Qed.

Lemma loop_body_new_sheet (W H : Q) (sheets : list StockSheet.t) (r : ref)
    (rem : list ref) (σ : heap) (panel : Panel.t) (c : candidate) :
  σ !! r = Some panel -> all_reject sheets panel ->
  find_position (new_StockSheet W H) panel = Ok (Some c) ->
  loop_body W H sheets r rem σ
  = Ok (sheets ++ [add_used (new_StockSheet W H) panel r c.1.1 c.1.2 c.2],
        if bool_decide (Panel.quantity panel - 1 = 0)%Z then tail rem else rem,
        <[r := mark_placed panel c.1.1 c.1.2 c.2]> σ).
Proof.
  intros Hp Hall Hnew. unfold loop_body.
  rewrite (proj2 (deref_Ok σ r panel) Hp). cbn [mbind result_bind].
  rewrite (proj2 (try_sheets_None sheets panel r σ) Hall).
  cbn [mbind result_bind]. unfold place_on_new_sheet. rewrite Hnew.
  destruct c as [[x y] rot]. cbn [mbind result_bind fst snd].
  rewrite (proj2 (deref_Ok _ r (mark_placed panel x y rot))).
  - cbn [mbind result_bind mark_placed Panel.quantity].
    case_bool_decide; reflexivity.
  - apply list_lookup_insert_eq. eapply lookup_lt_Some. exact Hp.
Qed.

Lemma loop_body_rejected (W H : Q) (sheets : list StockSheet.t) (r : ref)
    (rem : list ref) (σ : heap) (panel : Panel.t) :
  σ !! r = Some panel -> all_reject sheets panel ->
  find_position (new_StockSheet W H) panel = Ok None ->
  loop_body W H sheets r rem σ = Raise ValueError.
Proof.
  intros Hp Hall Hnew. unfold loop_body.
  rewrite (proj2 (deref_Ok σ r panel) Hp). cbn [mbind result_bind].
  rewrite (proj2 (try_sheets_None sheets panel r σ) Hall).
  cbn [mbind result_bind]. unfold place_on_new_sheet. rewrite Hnew.
  reflexivity.
Qed.

(** ** The queue shrinks at every turn *)

Lemma queue_ok_tail (σ : heap) (r : ref) (rem : list ref) (p : Panel.t) :
  queue_ok σ (r :: rem) -> queue_ok (<[r := p]> σ) rem.
Proof.
  intros [Hnd Hall]. inversion Hnd as [|r0 l Hnotin Hnd']; subst.
  inversion Hall as [|r0 l _ Hall']; subst. split; [exact Hnd'|].
  rewrite Forall_forall in *. intros r' Hin.
  destruct (Hall' r' Hin) as (p' & Hp' & Hq). exists p'. split; [|exact Hq].
  rewrite list_lookup_insert_ne; [exact Hp'|].
  intros ->. apply Hnotin. exact Hin.
Qed.

Lemma loop_body_progress (W H : Q) (sheets : list StockSheet.t) (r : ref)
    (rem : list ref) (σ : heap) :
  queue_ok σ (r :: rem) ->
  match loop_body W H sheets r (r :: rem) σ with
  | Ok (_, rem', σ') => rem' = rem /\ queue_ok σ' rem
  | Raise _ => True
  | Stuck => False
  end.
Proof.
  intros Hq. pose proof Hq as [_ Hall].
  inversion Hall as [|r0 l (panel & Hp & Hqty) _]; subst.
  destruct (loop_body W H sheets r (r :: rem) σ) as [[[sheets' rem'] σ']| |]
    eqn:Hrun; [|exact I|].
  - apply loop_body_Ok in Hrun as (panel' & c & Hp' & -> & -> & _).
    rewrite Hp in Hp'. inversion Hp'; subst panel'.
    rewrite Hqty. rewrite bool_decide_eq_true_2 by reflexivity.
    split; [reflexivity|]. eapply queue_ok_tail. exact Hq.
  - unfold loop_body in Hrun.
    rewrite (proj2 (deref_Ok σ r panel) Hp) in Hrun.
    cbn [mbind result_bind] in Hrun.
    pose proof (try_sheets_not_Stuck sheets panel r σ) as Hts.
    destruct (try_sheets sheets panel r σ) as [[[s1 σ1]|]| |] eqn:Htry;
      cbn [mbind result_bind] in Hrun; [| |discriminate|congruence].
    + apply try_sheets_Some in Htry as (i & c & _ & _ & ->).
      rewrite (proj2 (deref_Ok _ r (mark_placed panel c.1.1 c.1.2 c.2)))
        in Hrun.
      * cbn [mbind result_bind] in Hrun. case_bool_decide; discriminate.
      * apply list_lookup_insert_eq. eapply lookup_lt_Some. exact Hp.
    + unfold place_on_new_sheet in Hrun.
      pose proof (find_position_not_Stuck (new_StockSheet W H) panel) as Hf.
      destruct (find_position (new_StockSheet W H) panel)
        as [[[[x y] rot]|]| |]; cbn [mbind result_bind] in Hrun;
        [|discriminate|discriminate|congruence].
      rewrite (proj2 (deref_Ok _ r (mark_placed panel x y rot))) in Hrun.
      * cbn [mbind result_bind] in Hrun. case_bool_decide; discriminate.
      * apply list_lookup_insert_eq. eapply lookup_lt_Some. exact Hp.
Qed.

(** As many turns as the queue is long are enough. *)
Lemma while_remaining_not_Stuck (W H : Q) (fuel : nat)
    (sheets : list StockSheet.t) (rem : list ref) (σ : heap) :
  queue_ok σ rem -> (length rem <= fuel)%nat ->
  while_remaining fuel W H (sheets, rem, σ) <> Stuck.
Proof.
  revert fuel sheets σ. induction rem as [|r rem IH];
    intros fuel sheets σ Hq Hfuel.
  - destruct fuel; discriminate.
  - destruct fuel as [|fuel]; [simpl in Hfuel; lia|].
    cbn [while_remaining].
    pose proof (loop_body_progress W H sheets r rem σ Hq) as Hprog.
    destruct (loop_body W H sheets r (r :: rem) σ)
      as [[[sheets' rem'] σ']| |]; cbn [mbind result_bind];
      [|discriminate|contradiction].
    destruct Hprog as [-> Hq']. apply IH; [exact Hq'|].
    simpl in Hfuel. lia.
Qed.

(** ** The copy loop and the sort *)

Lemma panels_in_app (σ τ : heap) (panels : list ref) (specs : list Panel.t) :
  panels_in σ panels specs -> panels_in (σ ++ τ) panels specs.
Proof.
  unfold panels_in. intros H. induction H as [|r p l l' Hr _ IH].
  - constructor.
  - constructor; [|exact IH]. apply lookup_app_l_Some. exact Hr.
Qed.

Lemma copy_panels_Ok (σ : heap) (panels : list ref) (specs : list Panel.t)
    (acc : list ref) :
  panels_in σ panels specs ->
  copy_panels panels acc σ
  = Ok (acc ++ seq (length σ) (length (expansion specs)),
        σ ++ expansion specs).
Proof.
  intros H. revert panels acc σ H.
  induction specs as [|spec specs IH]; intros panels acc σ H;
    inversion H as [|r p l l' Hr Hl]; subst.
  - simpl. rewrite !app_nil_r. reflexivity.
  - cbn [copy_panels]. rewrite (proj2 (deref_Ok σ _ spec)) by assumption.
    cbn [mbind result_bind].
    rewrite (IH _ _ _ (panels_in_app _ _ _ _ Hl)).
    unfold expansion. cbn [flat_map]. fold (copies_of spec).
    rewrite !length_app, seq_app, <- !app_assoc.
    assert (length (copies_of spec) = Z.to_nat (Panel.quantity spec)) as ->
      by apply length_replicate.
    reflexivity.
Qed.

Lemma map_each_keyed (σ : heap) (instances : list Panel.t) (refs : list ref) :
  panels_in σ refs instances ->
  map_each (fun r => p ← deref σ r; Ok (panel_key p, r)) refs
  = Ok (keyed instances refs).
Proof.
  intros H. induction H as [|r p l l' Hr _ IH].
  - reflexivity.
  - cbn [map_each]. rewrite (proj2 (deref_Ok σ r p) Hr).
    cbn [mbind result_bind]. rewrite IH. reflexivity.
Qed.

Lemma sort_panels_Ok (σ : heap) (instances : list Panel.t)
    (refs : list ref) :
  panels_in σ refs instances ->
  sort_panels refs σ
  = Ok (map snd (list_sort fst tuple3_lt (keyed instances refs))).
Proof.
  intros H. unfold sort_panels. rewrite (map_each_keyed σ instances refs H).
  reflexivity.
Qed.

Lemma keyed_snd (instances : list Panel.t) (refs : list ref) :
  length instances = length refs -> map snd (keyed instances refs) = refs.
Proof.
  revert refs. induction instances as [|p l IH]; intros [|r refs] Hlen;
    simpl in *; try discriminate; [reflexivity|].
  f_equal. apply IH. lia.
Qed.

Lemma sorted_refs_perm (instances : list Panel.t) (refs : list ref) :
  length instances = length refs ->
  map snd (list_sort fst tuple3_lt (keyed instances refs)) ≡ₚ refs.
Proof.
  intros Hlen. rewrite list_sort_perm. rewrite keyed_snd by exact Hlen.
  reflexivity.
Qed.

(** The fresh instances lie behind the objects that were there. *)
Lemma panels_in_fresh (σ : heap) (instances : list Panel.t) :
  panels_in (σ ++ instances) (seq (length σ) (length instances)) instances.
Proof.
  unfold panels_in. revert σ.
  induction instances as [|p l IH]; intros σ; simpl.
  - constructor.
  - constructor.
    + rewrite lookup_app_r by lia. rewrite Nat.sub_diag. reflexivity.
    + specialize (IH (σ ++ [p])). rewrite length_app in IH. simpl in IH.
      rewrite <- app_assoc in IH. simpl in IH.
      replace (S (length σ)) with (length σ + 1)%nat by lia. exact IH.
Qed.

Lemma expansion_quantity (specs : list Panel.t) (p : Panel.t) :
  p ∈ expansion specs -> Panel.quantity p = 1%Z.
Proof.
  unfold expansion. rewrite list_elem_of_In, in_flat_map.
  intros (spec & _ & Hin). apply list_elem_of_In in Hin.
  unfold copies_of in Hin. apply elem_of_replicate in Hin as [-> _].
  reflexivity.
Qed.

Lemma queue_ok_perm (σ : heap) (l l' : list ref) :
  l ≡ₚ l' -> queue_ok σ l -> queue_ok σ l'.
Proof.
  intros Hperm [Hnd Hall]. split.
  - rewrite <- Hperm. exact Hnd.
  - rewrite <- Hperm. exact Hall.
Qed.

Lemma queue_ok_fresh (σ : heap) (specs : list Panel.t) :
  queue_ok (σ ++ expansion specs)
           (seq (length σ) (length (expansion specs))).
Proof.
  split; [apply NoDup_seq|].
  pose proof (panels_in_fresh σ (expansion specs)) as Hin.
  pose proof (expansion_quantity specs) as Hq.
  unfold panels_in in Hin. revert Hin Hq.
  generalize (σ ++ expansion specs) as τ.
  generalize (seq (length σ) (length (expansion specs))) as refs.
  generalize (expansion specs) as inst. intros inst refs τ Hin.
  induction Hin as [|r p l l' Hr _ IH]; intros Hq.
  - constructor.
  - constructor.
    + exists p. split; [exact Hr|]. apply Hq. left.
    + apply IH. intros q Hq'. apply Hq. right. exact Hq'.
Qed.

(** ** The run never gets stuck *)

Lemma map_each_set_efficiency_not_Stuck (sheets : list StockSheet.t) :
  map_each set_efficiency sheets <> Stuck.
Proof.
  induction sheets as [|s sheets IH]; cbn [map_each].
  - discriminate.
  - assert (set_efficiency s <> Stuck) as Hs.
    { unfold set_efficiency. case_bool_decide; discriminate. }
    destruct (set_efficiency s); cbn [mbind result_bind];
      [|discriminate|congruence].
    destruct (map_each set_efficiency sheets); cbn [mbind result_bind];
      congruence.
Qed.

(** Started from references to objects of the store, [optimize_layout]
    returns or raises: the fuel of its main loop is enough and no
    reference dangles. *)
Lemma optimize_layout_not_stuck (W H : Q) (panels : list ref) (σ : heap)
    (specs : list Panel.t) :
  panels_in σ panels specs -> optimize_layout W H panels σ <> Stuck.
Proof.
  intros Hin. unfold optimize_layout.
  rewrite (copy_panels_Ok σ panels specs [] Hin). cbn [mbind result_bind app].
  pose proof (panels_in_fresh σ (expansion specs)) as Hfresh.
  rewrite (sort_panels_Ok _ _ _ Hfresh). cbn [mbind result_bind].
  set (sorted := map snd (list_sort fst tuple3_lt _)).
  assert (sorted ≡ₚ seq (length σ) (length (expansion specs))) as Hperm.
  { apply sorted_refs_perm. rewrite length_seq. reflexivity. }
  assert (queue_ok (σ ++ expansion specs) sorted) as Hq.
  { eapply queue_ok_perm; [symmetry; exact Hperm|apply queue_ok_fresh]. }
  pose proof (while_remaining_not_Stuck W H (length sorted)
                [new_StockSheet W H] sorted _ Hq (le_n _)) as Hloop.
  destruct (while_remaining _ W H _) as [[[sheets rem] σ']| |];
    cbn [mbind result_bind]; [|discriminate|congruence].
  pose proof (map_each_set_efficiency_not_Stuck sheets) as Heff.
  destruct (map_each set_efficiency sheets); cbn [mbind result_bind];
    congruence.
Qed.

(** ** Sheets of the stock size *)

Lemma stock_sized_fits (W H : Q) (s : StockSheet.t) (w h : Q) :
  stock_sized W H s -> (fits s w h <-> w <= W /\ h <= H).
Proof. intros [Hw Hh]. unfold fits. rewrite Hw, Hh. reflexivity. Qed.

Lemma stock_sized_new (W H : Q) : stock_sized W H (new_StockSheet W H).
Proof. split; reflexivity. Qed.

Lemma stock_sized_add_used (W H : Q) (s : StockSheet.t) (p : Panel.t)
    (r : ref) (x y : Q) (rot : bool) :
  stock_sized W H s -> stock_sized W H (add_used s p r x y rot).
Proof. intros [Hw Hh]. split; assumption. Qed.

Lemma find_position_unfit (W H : Q) (s : StockSheet.t) (p : Panel.t) :
  stock_sized W H s -> ~ panel_fits W H p -> find_position s p = Ok None.
Proof.
  intros Hs Hfit. apply find_position_no_fit.
  - rewrite (stock_sized_fits W H) by exact Hs. intros Hf. apply Hfit.
    left. exact Hf.
  - rewrite (stock_sized_fits W H) by exact Hs. intros Hf. apply Hfit.
    right. exact Hf.
Qed.

Lemma find_position_new_fit (W H : Q) (p : Panel.t) :
  panel_fits W H p ->
  exists c, find_position (new_StockSheet W H) p = Ok (Some c).
Proof.
  intros Hfit. apply find_position_empty_fit; [reflexivity|].
  destruct Hfit as [Hf|Hf]; [left|right]; exact Hf.
Qed.

Lemma find_position_stock_total (W H : Q) (s : StockSheet.t) (p : Panel.t) :
  0 < W -> 0 < H -> stock_sized W H s -> positive_sides p ->
  exists b, find_position s p = Ok b.
Proof.
  intros HW HH [Hw Hh] [Hpw Hph]. apply find_position_total.
  pose proof (grid_step_pos s p) as Hpos. rewrite Hw, Hh in Hpos.
  specialize (Hpos HW HH Hpw Hph). lra.
Qed.

Lemma try_sheets_cases (sheets : list StockSheet.t) (p : Panel.t) :
  Forall (fun s => exists b, find_position s p = Ok b) sheets ->
  all_reject sheets p \/ exists i c, first_fit sheets p i c.
Proof.
  induction 1 as [|s sheets (b & Hb) _ IH].
  - left. constructor.
  - destruct b as [c|].
    + right. exists 0%nat, c. split; [exists s; auto|]. intros j s' Hj. lia.
    + destruct IH as [Hall|(i & c & [(s' & Hs' & Hc) Hbefore])].
      * left. constructor; assumption.
      * right. exists (S i), c. split; [exists s'; auto|].
        intros [|j] s'' Hj Hs''.
        -- inversion Hs''; subst. exact Hb.
        -- apply (Hbefore j s''); [lia|exact Hs''].
Qed.

(** ** The panels a layout holds *)

Lemma placed_refs_app (l1 l2 : list StockSheet.t) :
  placed_refs (l1 ++ l2) = placed_refs l1 ++ placed_refs l2.
Proof. unfold placed_refs. apply flat_map_app. Qed.

Lemma placed_refs_placed_on (sheets : list StockSheet.t) (i : nat)
    (s : StockSheet.t) (p : Panel.t) (r : ref) (c : candidate) :
  sheets !! i = Some s ->
  placed_refs (placed_on sheets i p r c) ≡ₚ placed_refs sheets ++ [r].
Proof.
  intros Hi. unfold placed_on. rewrite Hi.
  rewrite insert_take_drop by (eapply lookup_lt_Some; exact Hi).
  pose proof (take_drop_middle sheets i s Hi) as Hsplit.
  set (A := take i sheets) in *. set (B := drop (S i) sheets) in *.
  rewrite <- Hsplit. rewrite !placed_refs_app.
  change (placed_refs (add_used s p r c.1.1 c.1.2 c.2 :: B))
    with (map Rect.panel (StockSheet.used_space s ++
                          [Rect.mk c.1.1 c.1.2 (placed_w p c.2)
                                   (placed_h p c.2) r])
          ++ placed_refs B).
  change (placed_refs (s :: B))
    with (map Rect.panel (StockSheet.used_space s) ++ placed_refs B).
  rewrite map_app. simpl. rewrite <- !app_assoc.
  apply Permutation_app_head. apply Permutation_app_head. simpl.
  apply Permutation_cons_append.
Qed.

(** ** Properties of the queue across a turn *)

Lemma queue_all_frame (P : Panel.t -> Prop) (σ : heap) (r : ref)
    (v : Panel.t) (rem : list ref) :
  r ∉ rem -> queue_all P σ rem -> queue_all P (<[r := v]> σ) rem.
Proof.
  unfold queue_all. intros Hnotin. rewrite !Forall_forall.
  intros Hall r' Hin. destruct (Hall r' Hin) as (p & Hp & HP).
  exists p. split; [|exact HP].
  rewrite list_lookup_insert_ne; [exact Hp|]. intros ->. contradiction.
Qed.

Lemma queue_any_frame (P : Panel.t -> Prop) (σ : heap) (r : ref)
    (v : Panel.t) (rem : list ref) :
  r ∉ rem -> queue_any P σ rem -> queue_any P (<[r := v]> σ) rem.
Proof.
  unfold queue_any. intros Hnotin. rewrite !Exists_exists.
  intros (r' & Hin & p & Hp & HP). exists r'. split; [exact Hin|].
  exists p. split; [|exact HP].
  rewrite list_lookup_insert_ne; [exact Hp|]. intros ->. contradiction.
Qed.

(** ** The loop, run to its end *)

Lemma while_remaining_total (W H : Q) (rem : list ref) :
  0 < W -> 0 < H ->
  forall (fuel : nat) (sheets : list StockSheet.t) (σ : heap),
    Forall (stock_sized W H) sheets ->
    queue_ok σ rem -> queue_all positive_sides σ rem ->
    (length rem <= fuel)%nat ->
    (queue_all (panel_fits W H) σ rem ->
     exists sheets' σ',
       while_remaining fuel W H (sheets, rem, σ) = Ok (sheets', [], σ') /\
       Forall (stock_sized W H) sheets' /\
       placed_refs sheets' ≡ₚ placed_refs sheets ++ rem) /\
    (queue_any (fun p => ~ panel_fits W H p) σ rem ->
     while_remaining fuel W H (sheets, rem, σ) = Raise ValueError).
Proof.
  intros HW HH. induction rem as [|r rem IH];
    intros fuel sheets σ Hsized Hq Hpos Hfuel.
  - split.
    + intros _. exists sheets, σ. rewrite app_nil_r.
      destruct fuel; simpl; auto.
    + intros Hany. inversion Hany.
  - destruct fuel as [|fuel]; [simpl in Hfuel; lia|].
    simpl in Hfuel. cbn [while_remaining].
    pose proof Hq as [Hnd Hqty].
    inversion Hnd as [|r0 l Hnotin Hnd']; subst.
    inversion Hqty as [|r0 l (p & Hp & Hone) _]; subst.
    inversion Hpos as [|r0 l (p' & Hp' & Hside) Hpos']; subst.
    rewrite Hp in Hp'. inversion Hp'; subst p'. clear Hp'.
    assert (Hpop : (if bool_decide (Panel.quantity p - 1 = 0)%Z
                    then tail (r :: rem) else r :: rem) = rem).
    { rewrite Hone. reflexivity. }
    assert (Hnext : forall sheets1 c,
              Forall (stock_sized W H) sheets1 ->
              placed_refs sheets1 ≡ₚ placed_refs sheets ++ [r] ->
              loop_body W H sheets r (r :: rem) σ
              = Ok (sheets1,
                    if bool_decide (Panel.quantity p - 1 = 0)%Z
                    then tail (r :: rem) else r :: rem,
                    <[r := mark_placed p c.1.1 c.1.2 c.2]> σ) ->
              (queue_all (panel_fits W H) σ (r :: rem) ->
               exists sheets' σ',
                 loop_body W H sheets r (r :: rem) σ
                 ≫= while_remaining fuel W H = Ok (sheets', [], σ') /\
                 Forall (stock_sized W H) sheets' /\
                 placed_refs sheets' ≡ₚ placed_refs sheets ++ r :: rem) /\
              (queue_any (fun p => ~ panel_fits W H p) σ rem ->
               loop_body W H sheets r (r :: rem) σ
               ≫= while_remaining fuel W H = Raise ValueError)).
    { intros sheets1 c Hsized1 Hperm ->. rewrite Hpop.
      cbn [mbind result_bind].
      destruct (IH fuel sheets1 (<[r := mark_placed p c.1.1 c.1.2 c.2]> σ))
        as [IH1 IH2].
      - exact Hsized1.
      - eapply queue_ok_tail. exact Hq.
      - apply queue_all_frame; assumption.
      - lia.
      - split.
        + intros Hfits. inversion Hfits as [|r0 l _ Hfits']; subst.
          destruct IH1 as (sheets' & σ' & Hrun & Hs' & Hperm').
          { apply queue_all_frame; assumption. }
          exists sheets', σ'. split; [exact Hrun|]. split; [exact Hs'|].
          rewrite Hperm', Hperm, <- app_assoc. reflexivity.
        + intros Hany. apply IH2. apply queue_any_frame; assumption. }
    destruct (decide (panel_fits W H p)) as [Hfit|Hunfit].
    + assert (Forall (fun s => exists b, find_position s p = Ok b) sheets)
        as Htotal.
      { rewrite Forall_forall in *. intros s Hs.
        apply (find_position_stock_total W H); auto. }
      assert (exists sheets1 c,
                Forall (stock_sized W H) sheets1 /\
                placed_refs sheets1 ≡ₚ placed_refs sheets ++ [r] /\
                loop_body W H sheets r (r :: rem) σ
                = Ok (sheets1,
                      if bool_decide (Panel.quantity p - 1 = 0)%Z
                      then tail (r :: rem) else r :: rem,
                      <[r := mark_placed p c.1.1 c.1.2 c.2]> σ))
        as (sheets1 & c & Hs1 & Hperm & Hbody).
      { destruct (try_sheets_cases sheets p Htotal) as [Hall|(i & c & Hff)].
        - destruct (find_position_new_fit W H p Hfit) as (c & Hc).
          eexists _, c. split; [|split].
          3: apply loop_body_new_sheet; eassumption.
          + apply Forall_app. split; [exact Hsized|].
            constructor; [|constructor].
            apply stock_sized_add_used, stock_sized_new.
          + rewrite placed_refs_app. reflexivity.
        - pose proof Hff as [(s & Hs & _) _].
          eexists _, c. split; [|split].
          3: apply loop_body_first_fit; eassumption.
          + apply placed_on_Forall; [exact Hsized|].
            intros s' _ Hs'. apply stock_sized_add_used. exact Hs'.
          + eapply placed_refs_placed_on. exact Hs. }
      destruct (Hnext sheets1 c Hs1 Hperm Hbody) as [H1 H2].
      split; [exact H1|].
      intros Hany. inversion Hany as [r0 l (p' & Hp' & Hbad)|r0 l Hrest];
        subst; [|auto].
      rewrite Hp in Hp'. inversion Hp'; subst p'. contradiction.
    + assert (loop_body W H sheets r (r :: rem) σ = Raise ValueError) as Hbody.
      { apply (loop_body_rejected W H sheets r (r :: rem) σ p Hp).
        - unfold all_reject. rewrite Forall_forall in *. intros s Hs.
          apply (find_position_unfit W H); auto.
        - apply (find_position_unfit W H); [apply stock_sized_new|exact Hunfit]. }
      rewrite Hbody. split; [|reflexivity].
      intros Hfits. inversion Hfits as [|r0 l (p' & Hp' & Hgood) _]; subst.
      rewrite Hp in Hp'. inversion Hp'; subst p'. contradiction.
Qed.

(** ** The outcome of a run *)

Lemma queue_all_panels_in (P : Panel.t -> Prop) (σ : heap)
    (refs : list ref) (inst : list Panel.t) :
  panels_in σ refs inst -> Forall P inst -> queue_all P σ refs.
Proof.
  unfold queue_all. induction 1 as [|r p l l' Hr _ IH]; intros HP.
  - constructor.
  - inversion HP; subst. constructor; [exists p; auto|auto].
Qed.

Lemma queue_any_panels_in (P : Panel.t -> Prop) (σ : heap)
    (refs : list ref) (inst : list Panel.t) :
  panels_in σ refs inst -> Exists P inst -> queue_any P σ refs.
Proof.
  unfold queue_any. induction 1 as [|r p l l' Hr _ IH]; intros HP.
  - inversion HP.
  - inversion HP; subst; [left; exists p; auto|right; auto].
Qed.

Lemma expansion_Forall (P : Panel.t -> Prop) (specs : list Panel.t) :
  Forall (fun s => P (new_Panel (Panel.width s) (Panel.height s) 1)) specs ->
  Forall P (expansion specs).
Proof.
  intros Hall. unfold expansion. rewrite Forall_forall in *.
  intros p Hin. apply list_elem_of_In, in_flat_map in Hin as (s & Hs & Hin).
  apply list_elem_of_In in Hs, Hin.
  unfold copies_of in Hin. apply elem_of_replicate in Hin as [-> _].
  apply Hall. exact Hs.
Qed.

Lemma expansion_Exists (P : Panel.t -> Prop) (specs : list Panel.t) :
  Exists (fun s => (1 <= Panel.quantity s)%Z /\
                   P (new_Panel (Panel.width s) (Panel.height s) 1)) specs ->
  Exists P (expansion specs).
Proof.
  rewrite !Exists_exists. intros (s & Hs & Hq & HP).
  exists (new_Panel (Panel.width s) (Panel.height s) 1). split; [|exact HP].
  unfold expansion. apply list_elem_of_In, in_flat_map. exists s.
  split; [apply list_elem_of_In; exact Hs|]. apply list_elem_of_In.
  unfold copies_of. apply elem_of_replicate. split; [reflexivity|]. lia.
Qed.

Lemma map_each_set_efficiency_Ok (W H : Q) (sheets : list StockSheet.t) :
  0 < W -> 0 < H -> Forall (stock_sized W H) sheets ->
  exists sheets', map_each set_efficiency sheets = Ok sheets'.
Proof.
  intros HW HH. induction 1 as [|s sheets [Hw Hh] _ (sheets' & IH)].
  - eexists; reflexivity.
  - cbn [map_each].
    assert (exists s', set_efficiency s = Ok s') as (s' & ->).
    { unfold set_efficiency. rewrite bool_decide_eq_false_2.
      - eexists; reflexivity.
      - rewrite Hw, Hh. intros Hz.
        assert (0 < W * H) by (apply Qmult_lt_0_compat; assumption). lra. }
    cbn [mbind result_bind]. rewrite IH. eexists; reflexivity.
Qed.

Lemma placed_refs_set_efficiency (sheets sheets' : list StockSheet.t) :
  map_each set_efficiency sheets = Ok sheets' ->
  placed_refs sheets' = placed_refs sheets.
Proof.
  intros H. apply map_each_set_efficiency in H.
  induction H as [|s s' l l' (_ & _ & Hu & _) _ IH]; [reflexivity|].
  unfold placed_refs in *. simpl. rewrite Hu, IH. reflexivity.
Qed.

(** A run on a request with positive dimensions: it returns when every
    instance fits the stock sheet, with every instance on a sheet once;
    it raises [ValueError] when some instance does not fit. *)
Lemma optimize_layout_outcome (W H : Q) (panels : list ref) (σ : heap)
    (specs : list Panel.t) :
  0 < W -> 0 < H -> panels_in σ panels specs ->
  Forall positive_sides (expansion specs) ->
  (Forall (panel_fits W H) (expansion specs) ->
   exists sheets σ',
     optimize_layout W H panels σ = Ok (sheets, σ') /\
     placed_refs sheets ≡ₚ seq (length σ) (length (expansion specs))) /\
  (Exists (fun p => ~ panel_fits W H p) (expansion specs) ->
   optimize_layout W H panels σ = Raise ValueError).
Proof.
  intros HW HH Hin Hpos. unfold optimize_layout.
  rewrite (copy_panels_Ok σ panels specs [] Hin). cbn [mbind result_bind app].
  pose proof (panels_in_fresh σ (expansion specs)) as Hfresh.
  rewrite (sort_panels_Ok _ _ _ Hfresh). cbn [mbind result_bind].
  set (refs := seq (length σ) (length (expansion specs))) in *.
  set (sorted := map snd (list_sort fst tuple3_lt _)).
  assert (sorted ≡ₚ refs) as Hperm.
  { apply sorted_refs_perm. unfold refs. rewrite length_seq. reflexivity. }
  assert (queue_ok (σ ++ expansion specs) sorted) as Hq.
  { eapply queue_ok_perm; [symmetry; exact Hperm|apply queue_ok_fresh]. }
  assert (forall P, queue_all P (σ ++ expansion specs) refs ->
                    queue_all P (σ ++ expansion specs) sorted) as Hall.
  { intros P HP. unfold queue_all in *. rewrite Hperm. exact HP. }
  assert (forall P, queue_any P (σ ++ expansion specs) refs ->
                    queue_any P (σ ++ expansion specs) sorted) as Hany.
  { intros P HP. unfold queue_any in *. rewrite Hperm. exact HP. }
  destruct (while_remaining_total W H sorted HW HH (length sorted)
              [new_StockSheet W H] (σ ++ expansion specs)) as [Hok Hraise].
  - constructor; [apply stock_sized_new|constructor].
  - exact Hq.
  - apply Hall. eapply queue_all_panels_in; eassumption.
  - reflexivity.
  - split.
    + intros Hfits.
      destruct Hok as (sheets' & σ' & -> & Hsized & Hplaced).
      { apply Hall. eapply queue_all_panels_in; eassumption. }
      cbn [mbind result_bind].
      destruct (map_each_set_efficiency_Ok W H sheets' HW HH Hsized)
        as (sheets'' & Heff).
      rewrite Heff. cbn [mbind result_bind]. exists sheets'', σ'.
      split; [reflexivity|].
      rewrite (placed_refs_set_efficiency _ _ Heff), Hplaced. simpl.
      exact Hperm.
    + intros Hbad. rewrite Hraise; [reflexivity|].
      apply Hany. eapply queue_any_panels_in; eassumption.
Qed.

(** ** Loops with equal bodies *)

Lemma foldl_ext {A B : Type} (f g : A -> B -> A) (l : list B) (a : A) :
  (forall a b, f a b = g a b) -> foldl f a l = foldl g a l.
Proof.
  intros Hfg. revert a. induction l as [|b l IH]; intros a; simpl.
  - reflexivity.
  - rewrite Hfg. apply IH.
Qed.

Lemma for_each_ext {A S : Type} (f g : S -> A -> result S) (l : list A)
    (s : S) :
  (forall s a, f s a = g s a) -> for_each f l s = for_each g l s.
Proof.
  intros Hfg. revert s. induction l as [|a l IH]; intros s; simpl.
  - reflexivity.
  - rewrite Hfg. destruct (g s a); simpl; auto.
Qed.

(** ** The sort commutes with a map that keeps the keys *)

Lemma insert_sorted_map {A K : Type} (key : A -> K) (ltb : K -> K -> bool)
    (f : A -> A) (a : A) (l : list A) :
  (forall a, key (f a) = key a) ->
  insert_sorted key ltb (f a) (map f l) = map f (insert_sorted key ltb a l).
Proof.
  intros Hkey. induction l as [|b l IH]; simpl.
  - reflexivity.
  - rewrite !Hkey. destruct (ltb (key b) (key a)); simpl.
    + rewrite IH. reflexivity.
    + reflexivity.
Qed.

Lemma list_sort_map {A K : Type} (key : A -> K) (ltb : K -> K -> bool)
    (f : A -> A) (l : list A) :
  (forall a, key (f a) = key a) ->
  list_sort key ltb (map f l) = map f (list_sort key ltb l).
Proof.
  intros Hkey. induction l as [|a l IH]; simpl.
  - reflexivity.
  - rewrite IH. apply insert_sorted_map. exact Hkey.
Qed.

(** ** The sort is ordered and stable *)

Section SortStable.
Context {A K : Type} (key : A -> K) (ltb : K -> K -> bool) (pos : A -> nat).

Hypothesis ltb_asym : forall x y, ltb x y = true -> ltb y x = false.
Hypothesis ltb_le_trans :
  forall x y z, ltb y x = false -> ltb z y = false -> ltb z x = false.



End SortStable.


(** ** The order of tuples *)

Lemma tuple2_lt_true (a b : Q * Q) :
  tuple2_lt a b = true <-> a.1 < b.1 \/ (a.1 == b.1 /\ a.2 < b.2).
Proof.
  unfold tuple2_lt. case_bool_decide as He.
  - rewrite bool_decide_eq_true. split; [auto|]. intros [H|[_ H]]; [lra|auto].
  - rewrite bool_decide_eq_true. split; [auto|].
    intros [H|[H _]]; [auto|contradiction].
Qed.





(** ** The queue that the allocation loop receives *)






(** * The claims *)

(** ** C1: containment *)

(** C1 (the code departs from it).  Every placed rectangle should lie
    inside its sheet.  On a 1000 by 1999.5 stock with two 1000 by 1000
    panels, the first goes to [(0, 0)]; for the second no priority
    position is free, the grid has step 1 and its last row [y = 1000]
    lies above [1999.5 - 1000], and the scan accepts it: the entry reaches
    [y + h = 2000], beyond the sheet. *)
Theorem grid_scan_overhang :
  exists sheet u σ',
    optimize_layout 1000 (19995 # 10) [0%nat] [new_Panel 1000 1000 2]
    = Ok ([sheet], σ') /\
    StockSheet.used_space sheet !! 1%nat = Some u /\
    Rect.y u == 1000 /\ Rect.h u == 1000 /\
    StockSheet.height sheet == 19995 # 10 /\
    ~ inside sheet u.
Proof.
  eexists _, _, _. split; [vm_compute; reflexivity|].
  split; [reflexivity|].
  split; [reflexivity|]. split; [reflexivity|]. split; [reflexivity|].
  unfold inside. simpl. intros (_ & _ & _ & H). revert H.
  vm_compute. intros H. apply H. reflexivity.
Qed.

(** ** Requests of the data model *)

Lemma spec_ok_expansion (specs : list Panel.t) :
  Forall spec_ok specs -> Forall positive_sides (expansion specs).
Proof.
  intros Hok. apply expansion_Forall.
  rewrite Forall_forall in *. intros s Hs.
  destruct (Hok s Hs) as (Hw & Hh & _). split; assumption.
Qed.

(** ** C6: the normaliser *)



(** ** C8: Scenario B *)

(** C8.  On a 100 by 100 stock with one spec 80 by 80 of quantity 2,
    [optimize_layout] returns two sheets, each with one entry of 80 by 80
    and an efficiency of 64. *)
Theorem scenario_B :
  exists sheets σ',
    optimize_layout 100 100 [0%nat] [new_Panel 80 80 2] = Ok (sheets, σ') /\
    length sheets = 2%nat /\
    Forall (fun sheet =>
              exists u, StockSheet.used_space sheet = [u] /\
                        Rect.w u == 80 /\ Rect.h u == 80 /\
                        StockSheet.efficiency sheet == 64)
           sheets.
Proof.
  eexists _, _. split; [vm_compute; reflexivity|].
  split; [reflexivity|].
  repeat constructor; eexists; (split; [reflexivity|]);
    repeat split; reflexivity.
Qed.

(** ** The least of two numbers *)

Lemma py_min_spec (a b : Q) :
  py_min a b <= a /\ py_min a b <= b /\ (py_min a b = a \/ py_min a b = b).
Proof.
  unfold py_min. case_bool_decide as H.
  - split; [lra|]. split; [lra|]. right. reflexivity.
  - split; [lra|]. split; [lra|]. left. reflexivity.
Qed.

(** * Further properties of the placement search *)

(** ** Where a returned position can lie *)

Lemma arange_values_bounds (stop step x : Q) :
  0 < step -> x ∈ arange_values 0 stop step -> 0 <= x /\ x < stop.
Proof.
  intros Hstep Hin. unfold arange_values in Hin.
  apply list_elem_of_fmap in Hin as (i & -> & Hi).
  apply elem_of_seq in Hi as [_ Hi]. simpl in Hi.
  assert (0 <= inject_Z (Z.of_nat i)) as Hi0.
  { change 0 with (inject_Z 0). rewrite <- Zle_Qle. lia. }
  split.
  - assert (0 <= inject_Z (Z.of_nat i) * step)
      by (apply Qmult_le_0_compat; lra).
    lra.
  - set (q := (stop - 0) / step) in *.
    assert (inject_Z (Z.of_nat i) < q) as Hlt.
    { apply Qle_lt_trans with (inject_Z (Qceiling q - 1));
        [|apply Qceiling_lt].
      rewrite <- Zle_Qle. lia. }
    assert (q * step == stop) as Hq by (unfold q; field; lra).
    assert (inject_Z (Z.of_nat i) * step < q * step)
      by (apply Qmult_lt_compat_r; assumption).
    lra.
Qed.

Lemma priority_positions_bounds (sheet : StockSheet.t) (w h : Q) (p : Q * Q) :
  p ∈ priority_positions sheet w h ->
  0 <= p.1 <= StockSheet.width sheet - w /\
  0 <= p.2 <= StockSheet.height sheet - h.
Proof.
  unfold priority_positions. rewrite list_elem_of_In, filter_In.
  intros [_ H]. apply bool_decide_eq_true_1 in H. exact H.
Qed.

Lemma grid_positions_bounds (sheet : StockSheet.t) (step w h : Q)
    (p : Q * Q) :
  0 < step -> p ∈ grid_positions sheet step w h ->
  0 <= p.1 /\ p.1 < StockSheet.width sheet - w + step /\
  0 <= p.2 /\ p.2 < StockSheet.height sheet - h + step.
Proof.
  intros Hstep Hin. unfold grid_positions in Hin.
  apply list_elem_of_In, in_flat_map in Hin as (x & Hx & Hin).
  apply in_map_iff in Hin as (y & <- & Hy).
  apply list_elem_of_In, (arange_values_bounds _ _ _ Hstep) in Hx.
  apply list_elem_of_In, (arange_values_bounds _ _ _ Hstep) in Hy.
  simpl. tauto.
Qed.

(** A returned position is a priority position, within the bounds of the
    sheet, or a position of the grid. *)
Lemma find_position_origin_of (sheet : StockSheet.t) (panel : Panel.t)
    (x y : Q) (rot : bool) :
  find_position sheet panel = Ok (Some (x, y, rot)) ->
  (x, y) ∈ priority_positions sheet (placed_w panel rot) (placed_h panel rot)
  \/ (x, y) ∈ grid_positions sheet (grid_step sheet panel)
                (placed_w panel rot) (placed_h panel rot).
Proof.
  intros H. apply find_position_best in H.
  destruct H as (C1 & C2 & HC & _).
  assert ((x, y, rot) ∈ examined sheet (grid_step sheet panel) false
                          (orientations sheet panel)) as Hin.
  { rewrite HC. apply elem_of_app. right. left. }
  apply examined_elem_of in Hin as (w & h & Ho & _ & _ & Hpos).
  apply orientations_elem_of in Ho as [-> ->]. exact Hpos.
Qed.

Lemma find_position_bounds (sheet : StockSheet.t) (panel : Panel.t)
    (x y : Q) (rot : bool) :
  0 < grid_step sheet panel ->
  find_position sheet panel = Ok (Some (x, y, rot)) ->
  0 <= x /\ 0 <= y /\
  x + placed_w panel rot < StockSheet.width sheet + grid_step sheet panel /\
  y + placed_h panel rot < StockSheet.height sheet + grid_step sheet panel.
Proof.
  intros Hstep Hrun.
  destruct (find_position_origin_of sheet panel x y rot Hrun) as [Hin|Hin].
  - apply priority_positions_bounds in Hin. simpl in Hin. repeat split; lra.
  - apply (grid_positions_bounds _ _ _ _ _ Hstep) in Hin. simpl in Hin.
    repeat split; lra.
Qed.

(** ** The first panel of a sheet *)

Lemma consider_keeps_origin (used_space : list Rect.t) (w h : Q)
    (rot r0 : bool) (x y : Q) :
  0 <= x -> 0 <= y ->
  consider used_space w h rot (Some (0, 0, r0)) x y = Some (0, 0, r0).
Proof.
  intros Hx Hy. unfold consider.
  destruct (is_valid used_space w h x y); [|reflexivity].
  rewrite bool_decide_eq_false_2; [reflexivity|].
  simpl. intros [H|[_ H]]; lra.
Qed.

Lemma try_orientation_keeps_origin (sheet : StockSheet.t) (step : Q)
    (r0 : bool) (o : orientation) :
  try_orientation sheet step (Some (0, 0, r0)) o = Ok (Some (0, 0, r0)).
Proof.
  destruct o as [[w h] rot]. unfold try_orientation.
  case_bool_decide; [reflexivity|].
  assert (forall l,
            Forall (fun p : Q * Q => 0 <= p.1 /\ 0 <= p.2) l ->
            foldl (fun b p =>
                     consider (StockSheet.used_space sheet) w h rot b p.1 p.2)
                  (Some (0, 0, r0)) l = Some (0, 0, r0)) as Hfold.
  { induction 1 as [|p l [Hx Hy] _ IH]; simpl; [reflexivity|].
    rewrite consider_keeps_origin by assumption. exact IH. }
  rewrite Hfold; [reflexivity|].
  rewrite Forall_forall. intros p Hp.
  apply priority_positions_bounds in Hp. lra.
Qed.

Lemma for_each_orientation_keeps_origin (sheet : StockSheet.t) (step : Q)
    (r0 : bool) (os : list orientation) :
  for_each (try_orientation sheet step) os (Some (0, 0, r0))
  = Ok (Some (0, 0, r0)).
Proof.
  induction os as [|o os IH]; cbn [for_each]; [reflexivity|].
  rewrite try_orientation_keeps_origin. exact IH.
Qed.

Lemma try_orientation_empty_origin (sheet : StockSheet.t) (step w h : Q)
    (rot : bool) :
  StockSheet.used_space sheet = [] -> fits sheet w h ->
  try_orientation sheet step None (w, h, rot) = Ok (Some (0, 0, rot)).
Proof.
  intros Hused Hfit.
  pose proof (try_orientation_keeps_origin sheet step rot (w, h, rot)) as Hkeep.
  unfold try_orientation in *.
  rewrite bool_decide_eq_false_2 in *
    by (destruct Hfit as [Hw Hh]; intros [H|H]; lra).
  destruct (priority_positions_origin sheet w h Hfit) as (l & Hl).
  rewrite Hl in *. cbn [foldl] in *.
  assert (consider (StockSheet.used_space sheet) w h rot None (0, 0).1 (0, 0).2
          = Some (0, 0, rot)) as ->.
  { unfold consider. rewrite Hused. reflexivity. }
  rewrite consider_keeps_origin in Hkeep by (simpl; lra).
  exact Hkeep.
Qed.

Lemma for_each_orientation_empty_origin (sheet : StockSheet.t) (step : Q)
    (os : list orientation) (b : best) :
  StockSheet.used_space sheet = [] ->
  for_each (try_orientation sheet step) os None = Ok b ->
  match b with
  | Some (x, y, rot) =>
      x = 0 /\ y = 0 /\
      exists os1 w h os2,
        os = os1 ++ (w, h, rot) :: os2 /\ fits sheet w h /\
        Forall (fun o : orientation => ~ fits sheet o.1.1 o.1.2) os1
  | None => Forall (fun o : orientation => ~ fits sheet o.1.1 o.1.2) os
  end.
Proof.
  intros Hused. induction os as [|[[w h] rot] os IH]; cbn [for_each].
  - intros H. inversion H; subst. constructor.
  - destruct (decide (w <= StockSheet.width sheet /\
                      h <= StockSheet.height sheet)) as [Hf|Hf].
    + rewrite (try_orientation_empty_origin sheet step w h rot Hused Hf).
      cbn [mbind result_bind].
      rewrite for_each_orientation_keeps_origin. intros H.
      inversion H; subst. split; [reflexivity|]. split; [reflexivity|].
      exists [], w, h, os. split; [reflexivity|]. split; [exact Hf|constructor].
    + rewrite try_orientation_no_fit by exact Hf. cbn [mbind result_bind].
      intros H. specialize (IH H). destruct b as [[[x y] rot']|].
      * destruct IH as (-> & -> & os1 & w' & h' & os2 & -> & Hfit & Hno).
        split; [reflexivity|]. split; [reflexivity|].
        exists ((w, h, rot) :: os1), w', h', os2.
        split; [reflexivity|]. split; [exact Hfit|].
        constructor; [exact Hf|exact Hno].
      * constructor; [exact Hf|exact IH].
Qed.

Lemma orientations_cases (sheet : StockSheet.t) (panel : Panel.t) :
  let A := (Panel.width panel, Panel.height panel, false) in
  let B := (Panel.height panel, Panel.width panel, true) in
  (Panel.width panel == Panel.height panel /\
   orientations sheet panel = [A]) \/
  (~ Panel.width panel == Panel.height panel /\
   tuple2_lt (orientation_key sheet B) (orientation_key sheet A) = true /\
   orientations sheet panel = [B; A]) \/
  (~ Panel.width panel == Panel.height panel /\
   tuple2_lt (orientation_key sheet B) (orientation_key sheet A) = false /\
   orientations sheet panel = [A; B]).
Proof.
  intros A B. unfold orientations. case_bool_decide as He.
  - left. split; [exact He|reflexivity].
  - right. cbn [app list_sort foldr insert_sorted]. fold A B.
    destruct (tuple2_lt (orientation_key sheet B) (orientation_key sheet A))
      eqn:Hlt; [left|right]; auto.
Qed.

(** On an empty sheet, a panel that fits in some orientation goes to the
    origin, in an orientation that fits; when both orientations fit, its
    longer side lies along the width of the sheet. *)
Theorem find_position_empty_sheet (sheet : StockSheet.t) (panel : Panel.t) :
  StockSheet.used_space sheet = [] ->
  fits sheet (Panel.width panel) (Panel.height panel) \/
  fits sheet (Panel.height panel) (Panel.width panel) ->
  exists rot,
    find_position sheet panel = Ok (Some (0, 0, rot)) /\
    fits sheet (placed_w panel rot) (placed_h panel rot) /\
    (fits sheet (Panel.width panel) (Panel.height panel) ->
     fits sheet (Panel.height panel) (Panel.width panel) ->
     placed_h panel rot <= placed_w panel rot).
Proof.
  intros Hused Hfit.
  destruct (find_position_empty_fit sheet panel Hused Hfit)
    as ([[x y] rot] & Hrun).
  pose proof Hrun as Hbest. unfold find_position in Hbest.
  apply (for_each_orientation_empty_origin sheet _ _ _ Hused) in Hbest.
  destruct Hbest as (-> & -> & os1 & w & h & os2 & Hos & Hfw & Hno).
  exists rot. split; [exact Hrun|].
  split; [apply (find_position_valid sheet panel 0 0 rot Hrun)|].
  intros HA HB.
  destruct (orientations_cases sheet panel) as [[He Ho]|[(Hne & Hlt & Ho)|(Hne & Hlt & Ho)]];
    rewrite Ho in Hos.
  - destruct os1 as [|o1 os1]; [|destruct os1; discriminate].
    inversion Hos; subst. simpl. lra.
  - destruct os1 as [|o1 os1].
    + inversion Hos; subst. simpl.
      apply tuple2_lt_true in Hlt. unfold orientation_key in Hlt.
      destruct HA as [HA1 HA2], HB as [HB1 HB2]. simpl in Hlt.
      rewrite !bool_decide_eq_true_2 in Hlt by assumption.
      destruct Hlt as [H|[H1 H2]]; lra.
    + inversion Hos; subst. inversion Hno as [|o l Hbad _]; subst.
      simpl in Hbad. contradiction.
  - destruct os1 as [|o1 os1].
    + inversion Hos; subst. simpl.
      apply not_true_iff_false in Hlt. rewrite tuple2_lt_true in Hlt.
      unfold orientation_key in Hlt.
      destruct HA as [HA1 HA2], HB as [HB1 HB2]. simpl in Hlt.
      rewrite !bool_decide_eq_true_2 in Hlt by assumption.
      destruct (Qlt_le_dec (Panel.width panel) (Panel.height panel))
        as [Hwh|Hwh]; [|exact Hwh].
      exfalso. apply Hlt. left. lra.
    + inversion Hos; subst. inversion Hno as [|o l Hbad _]; subst.
      simpl in Hbad. contradiction.
Qed.

Lemma find_position_empty_sheet_witness :
  StockSheet.used_space (new_StockSheet 100 100) = [] /\
  (fits (new_StockSheet 100 100) 40 50 \/ fits (new_StockSheet 100 100) 50 40) /\
  exists rot,
    find_position (new_StockSheet 100 100) (new_Panel 40 50 1)
    = Ok (Some (0, 0, rot)) /\
    fits (new_StockSheet 100 100) (placed_w (new_Panel 40 50 1) rot)
         (placed_h (new_Panel 40 50 1) rot).
Proof.
  assert (fits (new_StockSheet 100 100) 40 50) as Hfit
    by (split; simpl; discriminate).
  split; [reflexivity|]. split; [left; exact Hfit|].
  destruct (find_position_empty_sheet (new_StockSheet 100 100)
              (new_Panel 40 50 1) eq_refl (or_introl Hfit))
    as (rot & Hrun & Hf & _).
  exists rot. split; [exact Hrun|exact Hf].
Defined.

(** ** Square panels *)

(** A square panel is never reported as rotated. *)
Theorem find_position_square_unrotated (sheet : StockSheet.t)
    (panel : Panel.t) (x y : Q) (rot : bool) :
  Panel.width panel == Panel.height panel ->
  find_position sheet panel = Ok (Some (x, y, rot)) ->
  rot = false.
Proof.
  intros Hsq H. apply find_position_best in H.
  destruct H as (C1 & C2 & HC & _).
  assert ((x, y, rot) ∈ examined sheet (grid_step sheet panel) false
                          (orientations sheet panel)) as Hin.
  { rewrite HC. apply elem_of_app. right. left. }
  apply examined_elem_of in Hin as (w & h & Ho & _). simpl in Ho.
  destruct (orientations_cases sheet panel) as [[_ Heq]|[(Hne & _)|(Hne & _)]];
    [|contradiction|contradiction].
  rewrite Heq in Ho. apply list_elem_of_singleton in Ho. congruence.
Qed.

Lemma find_position_square_unrotated_witness :
  Panel.width (new_Panel 80 80 1) == Panel.height (new_Panel 80 80 1) /\
  exists x y rot,
    find_position (new_StockSheet 100 100) (new_Panel 80 80 1)
    = Ok (Some (x, y, rot)) /\
    rot = false.
Proof.
  split; [reflexivity|]. eexists _, _, _.
  assert (find_position (new_StockSheet 100 100) (new_Panel 80 80 1)
          = Ok (Some (0, 0, false))) as Hrun by (vm_compute; reflexivity).
  split; [exact Hrun|].
  exact (find_position_square_unrotated (new_StockSheet 100 100)
           (new_Panel 80 80 1) 0 0 false (Qeq_refl 80) Hrun).
Defined.

(** * Further properties of the allocation *)

(** ** One turn on a queue of unit instances *)

Lemma loop_body_turn (W H : Q) (sheets : list StockSheet.t) (r : ref)
    (rem : list ref) (σ : heap) (st' : state) :
  queue_ok σ (r :: rem) ->
  loop_body W H sheets r (r :: rem) σ = Ok st' ->
  exists panel c sheets',
    σ !! r = Some panel /\ Panel.quantity panel = 1%Z /\ (r ∉ rem) /\
    st' = (sheets', rem, <[r := mark_placed panel c.1.1 c.1.2 c.2]> σ) /\
    queue_ok (<[r := mark_placed panel c.1.1 c.1.2 c.2]> σ) rem /\
    placement W H sheets panel r c sheets'.
Proof.
  intros Hq Hrun. destruct st' as [[sheets' rem'] σ'].
  pose proof Hq as [Hnd Hall].
  inversion Hnd as [|r0 l Hnotin _]; subst.
  inversion Hall as [|r0 l (p & Hp & Hone) _]; subst.
  apply loop_body_Ok in Hrun as (panel & c & Hp' & -> & -> & Hcase).
  rewrite Hp in Hp'. inversion Hp'; subst panel.
  exists p, c, sheets'. split; [exact Hp|]. split; [exact Hone|].
  split; [exact Hnotin|]. split.
  { rewrite Hone. reflexivity. }
  split; [eapply queue_ok_tail; exact Hq|].
  destruct Hcase as [(i & [(s & Hs & Hc) _] & ->)|(Hrej & Hnew & ->)].
  - left. exists i, s. unfold placed_on. rewrite Hs. auto.
  - right. auto.
Qed.

Lemma placement_Forall (P P' : StockSheet.t -> Prop) (W H : Q)
    (sheets sheets' : list StockSheet.t) (panel : Panel.t) (r : ref)
    (c : candidate) :
  placement W H sheets panel r c sheets' ->
  Forall P sheets ->
  (forall s, s ∈ sheets -> P s -> P' s) ->
  (forall s, s ∈ sheets -> P s -> find_position s panel = Ok (Some c) ->
             P' (add_used s panel r c.1.1 c.1.2 c.2)) ->
  (find_position (new_StockSheet W H) panel = Ok (Some c) ->
   P' (add_used (new_StockSheet W H) panel r c.1.1 c.1.2 c.2)) ->
  Forall P' sheets'.
Proof.
  intros Hpl Hall Hframe Hadd Hnew.
  assert (Forall P' sheets) as Hall'.
  { rewrite Forall_forall in *. intros s Hs. apply Hframe; auto. }
  destruct Hpl as [(i & s & Hs & Hc & ->)|(_ & Hc & ->)].
  - apply Forall_insert; [exact Hall'|].
    assert (s ∈ sheets) as Hin by (eapply list_elem_of_lookup_2; exact Hs).
    apply Hadd; [exact Hin| |exact Hc].
    rewrite Forall_forall in Hall. auto.
  - apply Forall_app. split; [exact Hall'|].
    constructor; [auto|constructor].
Qed.

Lemma placement_placed_refs (W H : Q) (sheets sheets' : list StockSheet.t)
    (panel : Panel.t) (r : ref) (c : candidate) :
  placement W H sheets panel r c sheets' ->
  placed_refs sheets' ≡ₚ placed_refs sheets ++ [r].
Proof.
  intros [(i & s & Hs & Hc & ->)|(_ & Hc & ->)].
  - pose proof (placed_refs_placed_on sheets i s panel r c Hs) as Hperm.
    unfold placed_on in Hperm. rewrite Hs in Hperm. exact Hperm.
  - rewrite placed_refs_app. reflexivity.
Qed.

Lemma placement_length (W H : Q) (sheets sheets' : list StockSheet.t)
    (panel : Panel.t) (r : ref) (c : candidate) :
  placement W H sheets panel r c sheets' ->
  (length sheets <= length sheets')%nat.
Proof.
  intros [(i & s & Hs & Hc & ->)|(_ & Hc & ->)].
  - rewrite length_insert. lia.
  - rewrite length_app. simpl. lia.
Qed.

(** ** The position on an empty sheet *)

Lemma find_position_empty_origin (sheet : StockSheet.t) (panel : Panel.t)
    (c : candidate) :
  StockSheet.used_space sheet = [] ->
  find_position sheet panel = Ok (Some c) ->
  c.1.1 = 0 /\ c.1.2 = 0.
Proof.
  intros Hused Hrun. unfold find_position in Hrun.
  apply (for_each_orientation_empty_origin sheet _ _ _ Hused) in Hrun.
  destruct c as [[x y] rot]. destruct Hrun as (-> & -> & _). auto.
Qed.

(** ** The grid step against the sides *)

Lemma grid_step_le (sheet : StockSheet.t) (panel : Panel.t) (rot : bool) :
  grid_step sheet panel <= placed_w panel rot * (1 # 1000) /\
  grid_step sheet panel <= placed_h panel rot * (1 # 1000) /\
  grid_step sheet panel <= StockSheet.width sheet * (1 # 1000) /\
  grid_step sheet panel <= StockSheet.height sheet * (1 # 1000).
Proof.
  unfold grid_step.
  destruct (py_min_spec (Panel.width panel) (Panel.height panel))
    as (A1 & A2 & _).
  destruct (py_min_spec (py_min (Panel.width panel) (Panel.height panel))
                        (StockSheet.width sheet)) as (B1 & B2 & _).
  destruct (py_min_spec
              (py_min (py_min (Panel.width panel) (Panel.height panel))
                      (StockSheet.width sheet))
              (StockSheet.height sheet)) as (C1 & C2 & _).
  destruct rot; simpl; repeat split; lra.
Qed.

Lemma add_used_near_inside (sheet : StockSheet.t) (panel : Panel.t)
    (r : ref) (c : candidate) :
  0 < grid_step sheet panel ->
  find_position sheet panel = Ok (Some c) ->
  near_inside sheet (Rect.mk c.1.1 c.1.2 (placed_w panel c.2)
                             (placed_h panel c.2) r).
Proof.
  destruct c as [[x y] rot]. intros Hstep Hrun.
  destruct (find_position_bounds sheet panel x y rot Hstep Hrun)
    as (Hx & Hy & Hw & Hh).
  destruct (grid_step_le sheet panel rot) as (G1 & G2 & G3 & G4).
  unfold near_inside, overshoot_below. simpl. repeat split; lra.
Qed.

(** ** The invariant of the allocation loop *)

Lemma placed_refs_elem_of (sheets : list StockSheet.t) (s : StockSheet.t)
    (u : Rect.t) :
  s ∈ sheets -> u ∈ StockSheet.used_space s ->
  Rect.panel u ∈ placed_refs sheets.
Proof.
  intros Hs Hu. unfold placed_refs. apply list_elem_of_In, in_flat_map.
  exists s. split; [apply list_elem_of_In; exact Hs|].
  apply in_map. apply list_elem_of_In. exact Hu.
Qed.

Lemma entry_ok_frame (σ : heap) (r : ref) (v : Panel.t) (u : Rect.t) :
  Rect.panel u <> r -> entry_ok σ u -> entry_ok (<[r := v]> σ) u.
Proof.
  intros Hne (p & Hp & Hrest). exists p. split; [|exact Hrest].
  rewrite list_lookup_insert_ne; [exact Hp|]. congruence.
Qed.

Lemma entry_ok_new (σ : heap) (r : ref) (panel : Panel.t) (x y : Q)
    (rot : bool) :
  σ !! r = Some panel -> Panel.quantity panel = 1%Z ->
  entry_ok (<[r := mark_placed panel x y rot]> σ)
           (Rect.mk x y (placed_w panel rot) (placed_h panel rot) r).
Proof.
  intros Hp Hone. exists (mark_placed panel x y rot). split.
  - apply list_lookup_insert_eq. eapply lookup_lt_Some. exact Hp.
  - simpl. rewrite Hone. repeat split; destruct rot; reflexivity.
Qed.

Lemma same_sides_insert (σ1 σ : heap) (r : ref) (panel : Panel.t) (x y : Q)
    (rot : bool) :
  σ !! r = Some panel -> same_sides σ1 σ ->
  same_sides σ1 (<[r := mark_placed panel x y rot]> σ).
Proof.
  intros Hp [Hlen Hall]. split; [rewrite length_insert; exact Hlen|].
  intros i p0 Hi. destruct (Hall i p0 Hi) as (p' & Hp' & Hw & Hh).
  destruct (decide (i = r)) as [->|Hne].
  - rewrite Hp in Hp'. inversion Hp'; subst p'.
    exists (mark_placed panel x y rot). split; [|split; assumption].
    apply list_lookup_insert_eq. eapply lookup_lt_Some. exact Hp.
  - exists p'. split; [|split; assumption].
    rewrite list_lookup_insert_ne by congruence. exact Hp'.
Qed.

Lemma layout_inv_turn (W H : Q) (σ1 : heap) (queue : list ref)
    (sheets : list StockSheet.t) (r : ref) (rem : list ref) (σ : heap)
    (st' : state) :
  NoDup queue ->
  layout_inv W H σ1 queue (sheets, r :: rem, σ) ->
  loop_body W H sheets r (r :: rem) σ = Ok st' ->
  layout_inv W H σ1 queue st'.
Proof.
  intros Hnd (I1 & I2 & I3 & I7 & I4 & I5 & I6 & I8) Hrun.
  cbn [fst snd] in *.
  apply loop_body_turn in Hrun
    as (panel & c & sheets' & Hp & Hone & Hnotin & -> & Hq' & Hpl);
    [|exact I3].
  pose proof (placement_placed_refs _ _ _ _ _ _ _ Hpl) as Hperm.
  assert (r ∉ placed_refs sheets) as Hfresh.
  { rewrite <- I2 in Hnd. apply NoDup_app in Hnd as (_ & Hdisj & _).
    intros Hin. apply (Hdisj r Hin). left. }
  assert (r ∈ queue) as Hrq.
  { rewrite <- I2. apply elem_of_app. right. left. }
  unfold layout_inv. cbn [fst snd].
  split; [|split; [|split; [|split; [|split; [|split; [|split]]]]]].
  - apply (placement_Forall _ _ _ _ _ _ _ _ _ Hpl I1).
    + auto.
    + intros s _ Hs _. apply stock_sized_add_used. exact Hs.
    + intros _. apply stock_sized_add_used, stock_sized_new.
  - rewrite Hperm, <- app_assoc. exact I2.
  - exact Hq'.
  - apply same_sides_insert; assumption.
  - apply (placement_Forall _ _ _ _ _ _ _ _ _ Hpl I4).
    + intros s Hs Hall. rewrite Forall_forall in *. intros u Hu.
      apply entry_ok_frame; [|auto].
      intros Heq. apply Hfresh. rewrite <- Heq.
      eapply placed_refs_elem_of; eassumption.
    + intros s Hs Hall _. cbn [add_used StockSheet.used_space].
      apply Forall_app. split.
      * rewrite Forall_forall in *. intros u Hu.
        apply entry_ok_frame; [|auto].
        intros Heq. apply Hfresh. rewrite <- Heq.
        eapply placed_refs_elem_of; eassumption.
      * constructor; [|constructor]. apply entry_ok_new; assumption.
    + intros _. cbn [add_used StockSheet.used_space new_StockSheet app].
      constructor; [|constructor]. apply entry_ok_new; assumption.
  - apply (placement_Forall _ _ _ _ _ _ _ _ _ Hpl I5).
    + auto.
    + intros s _ Hs Hc. unfold starts_at_origin in *.
      cbn [add_used StockSheet.used_space].
      destruct (StockSheet.used_space s) as [|u l] eqn:Hused.
      * simpl. apply (find_position_empty_origin s panel c Hused Hc).
      * exact Hs.
    + intros Hc. unfold starts_at_origin.
      cbn [add_used StockSheet.used_space new_StockSheet app].
      simpl.
      apply (find_position_empty_origin (new_StockSheet W H) panel c
               eq_refl Hc).
  - right.
    assert (length (placed_refs sheets')
            = S (length (placed_refs sheets))) as Hlen.
    { rewrite Hperm, length_app. simpl. lia. }
    destruct I6 as [->|(Hne & Hocc & Hcount)].
    + destruct Hpl as [(i & s & Hs & Hc & ->)|(Hrej & Hc & ->)].
      * destruct i as [|i]; [|destruct i; discriminate].
        inversion Hs; subst s. cbn [insert list_insert].
        split; [discriminate|]. split.
        -- constructor; [|constructor]. unfold occupied. discriminate.
        -- simpl. lia.
      * inversion Hrej as [|s l Hnone _]; subst. congruence.
    + split.
      { intros Hnil. apply (f_equal length) in Hnil.
        pose proof (placement_length _ _ _ _ _ _ _ Hpl).
        destruct sheets; [congruence|]. simpl in *. lia. }
      split.
      * apply (placement_Forall _ _ _ _ _ _ _ _ _ Hpl Hocc).
        -- auto.
        -- intros s _ _ _. unfold occupied.
           cbn [add_used StockSheet.used_space].
           intros Hnil. apply app_eq_nil in Hnil as [_ Hnil]. discriminate.
        -- intros _. unfold occupied. discriminate.
      * rewrite Hlen.
        destruct Hpl as [(i & s & Hs & Hc & ->)|(Hrej & Hc & ->)].
        -- rewrite length_insert. lia.
        -- rewrite length_app. simpl. lia.
  - intros HW HH Hposq. specialize (I8 HW HH Hposq).
    assert (positive_sides panel) as Hpos.
    { unfold queue_all in Hposq. rewrite Forall_forall in Hposq.
      destruct (Hposq r Hrq) as (p0 & Hp0 & [Hw0 Hh0]).
      destruct I7 as [_ Hsides].
      destruct (Hsides r p0 Hp0) as (p' & Hp' & Hw & Hh).
      rewrite Hp in Hp'. inversion Hp'; subst p'.
      split; [rewrite Hw|rewrite Hh]; assumption. }
    assert (forall s, stock_sized W H s -> 0 < grid_step s panel) as Hstep.
    { intros s [Hw Hh]. apply grid_step_pos.
      - rewrite Hw. exact HW.
      - rewrite Hh. exact HH.
      - apply Hpos.
      - apply Hpos. }
    assert (Forall (fun s => stock_sized W H s /\
                             Forall (near_inside s) (StockSheet.used_space s))
                   sheets) as Hboth.
    { rewrite Forall_forall in *. intros s Hs. split; auto. }
    apply (placement_Forall _ _ _ _ _ _ _ _ _ Hpl Hboth).
    + intros s _ [_ Hs]. exact Hs.
    + intros s _ [Hsized Hs] Hc. cbn [add_used StockSheet.used_space].
      apply Forall_app. split; [exact Hs|].
      constructor; [|constructor].
      apply (add_used_near_inside s panel r c (Hstep s Hsized) Hc).
    + intros Hc. cbn [add_used StockSheet.used_space new_StockSheet app].
      constructor; [|constructor].
      apply (add_used_near_inside (new_StockSheet W H) panel r c
               (Hstep _ (stock_sized_new W H)) Hc).
Qed.

Lemma layout_inv_init (W H : Q) (σ1 : heap) (queue : list ref) :
  queue_ok σ1 queue ->
  layout_inv W H σ1 queue ([new_StockSheet W H], queue, σ1).
Proof.
  intros Hq. unfold layout_inv. cbn [fst snd].
  split; [constructor; [apply stock_sized_new|constructor]|].
  split; [reflexivity|]. split; [exact Hq|].
  split.
  { split; [reflexivity|]. intros i p Hi. exists p. auto. }
  split; [repeat constructor|].
  split; [repeat constructor|].
  split; [left; reflexivity|].
  intros _ _ _. repeat constructor.
Qed.

Lemma while_remaining_layout_inv (W H : Q) (σ1 : heap) (queue : list ref)
    (fuel : nat) (st st' : state) :
  NoDup queue -> layout_inv W H σ1 queue st ->
  while_remaining fuel W H st = Ok st' ->
  layout_inv W H σ1 queue st' /\ st'.1.2 = [].
Proof.
  intros Hnd Hinv Hrun.
  apply (while_remaining_inv (layout_inv W H σ1 queue) W H fuel st st');
    [|exact Hinv|exact Hrun].
  intros sheets r rem σ st1 HP Hbody.
  eapply layout_inv_turn; eassumption.
Qed.

(** The sheets that a run returns are those its loop leaves, with their
    efficiency set; the loop leaves them in a state of the invariant with
    an empty queue. *)
Lemma optimize_layout_layout_inv (W H : Q) (panels : list ref) (σ : heap)
    (specs : list Panel.t) (sheets : list StockSheet.t) (σ' : heap) :
  panels_in σ panels specs ->
  optimize_layout W H panels σ = Ok (sheets, σ') ->
  exists sheets0 queue,
    queue ≡ₚ seq (length σ) (length (expansion specs)) /\
    layout_inv W H (σ ++ expansion specs) queue (sheets0, [], σ') /\
    map_each set_efficiency sheets0 = Ok sheets.
Proof.
  intros Hin Hrun. apply optimize_layout_Ok in Hrun
    as (pc & σ1 & sorted & sheets0 & rem0 & Hcopy & Hsort & Hloop & Heff).
  rewrite (copy_panels_Ok σ panels specs [] Hin) in Hcopy.
  inversion Hcopy; subst pc σ1. clear Hcopy. cbn [app] in *.
  pose proof (panels_in_fresh σ (expansion specs)) as Hfresh.
  rewrite (sort_panels_Ok _ _ _ Hfresh) in Hsort.
  inversion Hsort as [Hs]. clear Hsort.
  assert (sorted ≡ₚ seq (length σ) (length (expansion specs))) as Hperm.
  { subst sorted. apply sorted_refs_perm. rewrite length_seq. reflexivity. }
  assert (queue_ok (σ ++ expansion specs) sorted) as Hq.
  { eapply queue_ok_perm; [symmetry; exact Hperm|apply queue_ok_fresh]. }
  apply (while_remaining_layout_inv W H (σ ++ expansion specs) sorted)
    in Hloop as [Hinv Hnil].
  - cbn [fst snd] in Hnil. subst rem0.
    exists sheets0, sorted. auto.
  - apply Hq.
  - apply layout_inv_init. exact Hq.
Qed.

(** ** What every returned layout satisfies *)

Lemma set_efficiency_transfer (P : StockSheet.t -> Prop)
    (sheets0 sheets : list StockSheet.t) :
  map_each set_efficiency sheets0 = Ok sheets ->
  (forall s s',
     StockSheet.width s' = StockSheet.width s ->
     StockSheet.height s' = StockSheet.height s ->
     StockSheet.used_space s' = StockSheet.used_space s ->
     P s -> P s') ->
  Forall P sheets0 -> Forall P sheets.
Proof.
  intros Heff Hmove Hall. apply map_each_set_efficiency in Heff.
  induction Heff as [|s s' l l' (Hw & Hh & Hu & _) _ IH].
  - constructor.
  - inversion Hall; subst. constructor; [eapply Hmove; eauto|auto].
Qed.

Lemma loop_body_stock_sized (W H : Q) (sheets : list StockSheet.t) (r : ref)
    (rem : list ref) (σ : heap) (st' : state) :
  Forall (stock_sized W H) sheets /\ sheets <> [] ->
  loop_body W H sheets r rem σ = Ok st' ->
  Forall (stock_sized W H) st'.1.1 /\ st'.1.1 <> [].
Proof.
  intros [Hall Hne] Hrun. destruct st' as [[sheets' rem'] σ'].
  apply loop_body_Ok in Hrun
    as (panel & c & _ & _ & _ & [(i & Hff & ->)|(_ & _ & ->)]); simpl.
  - split.
    + apply placed_on_Forall; [exact Hall|].
      intros s _ Hs. apply stock_sized_add_used. exact Hs.
    + unfold placed_on. destruct (sheets !! i); [|exact Hne].
      intros Hnil. apply (f_equal length) in Hnil.
      rewrite length_insert in Hnil. destruct sheets; [congruence|].
      discriminate.
  - split.
    + apply Forall_app. split; [exact Hall|].
      constructor; [|constructor].
      apply stock_sized_add_used, stock_sized_new.
    + intros Hnil. apply app_eq_nil in Hnil as [_ Hnil]. discriminate.
Qed.

(** On a stock of zero area, [optimize_layout] returns no layout: it
    raises, [ValueError] in the loop or [ZeroDivisionError] when it comes
    to the efficiency. *)
Theorem optimize_layout_zero_area (W H : Q) (panels : list ref) (σ : heap)
    (specs : list Panel.t) :
  W * H == 0 -> panels_in σ panels specs ->
  exists e, optimize_layout W H panels σ = Raise e.
Proof.
  intros Hz Hin.
  pose proof (optimize_layout_not_stuck W H panels σ specs Hin) as Hns.
  destruct (optimize_layout W H panels σ) as [[sheets σ']|e|] eqn:Hrun;
    [|eexists; reflexivity|congruence].
  exfalso. apply optimize_layout_Ok in Hrun
    as (pc & σ1 & sorted & sheets0 & rem0 & _ & _ & Hloop & Heff).
  apply (while_remaining_inv
           (fun st => Forall (stock_sized W H) st.1.1 /\ st.1.1 <> []))
    in Hloop as [[Hall Hne] _].
  - cbn [fst] in *. destruct sheets0 as [|s l]; [congruence|].
    inversion Hall as [|s0 l0 [Hsw Hsh] _]; subst s0 l0.
    assert (set_efficiency s = Raise ZeroDivisionError) as Hs.
    { unfold set_efficiency. rewrite Hsw, Hsh.
      rewrite bool_decide_eq_true_2 by exact Hz. reflexivity. }
    cbn [map_each] in Heff. rewrite Hs in Heff. discriminate.
  - intros sheets1 r rem σ2 st1 HP Hbody.
    eapply loop_body_stock_sized; eauto.
  - simpl. split; [|discriminate].
    constructor; [apply stock_sized_new|constructor].
Qed.

Lemma optimize_layout_zero_area_witness :
  0 * 100 == 0 /\ panels_in [] [] [] /\
  exists e, optimize_layout 0 100 [] [] = Raise e.
Proof.
  assert (panels_in [] [] []) as Hin by constructor.
  split; [reflexivity|]. split; [exact Hin|].
  apply (optimize_layout_zero_area 0 100 [] [] [] (Qeq_refl _) Hin).
Defined.

(** In a returned layout, the panel of every entry records the position
    of the entry and the [rotated] flag that gives the entry its extent
    (width and height of the panel, swapped when rotated), and has no
    quantity left. *)
Theorem layout_entries_record_panels (W H : Q) (panels : list ref)
    (σ : heap) (specs : list Panel.t) (sheets : list StockSheet.t)
    (σ' : heap) :
  panels_in σ panels specs ->
  optimize_layout W H panels σ = Ok (sheets, σ') ->
  forall sheet u,
    sheet ∈ sheets -> u ∈ StockSheet.used_space sheet -> entry_ok σ' u.
Proof.
  intros Hin Hrun sheet u Hsheet Hu.
  destruct (optimize_layout_layout_inv W H panels σ specs sheets σ' Hin Hrun)
    as (sheets0 & queue & Hperm & Hinv & Heff).
  destruct Hinv as (_ & _ & _ & _ & I4 & _). cbn [fst snd] in I4.
  assert (Forall (fun s => Forall (entry_ok σ') (StockSheet.used_space s))
                 sheets) as Hall.
  { apply (set_efficiency_transfer _ sheets0 sheets Heff); [|exact I4].
    intros s s' _ _ Hused Hs. rewrite Hused. exact Hs. }
  rewrite Forall_forall in Hall. specialize (Hall sheet Hsheet).
  rewrite Forall_forall in Hall. auto.
Qed.

Lemma layout_entries_record_panels_witness :
  exists sheet u σ',
    panels_in [new_Panel 50 40 1; new_Panel 60 30 2; new_Panel 40 50 1]
              [0%nat; 1%nat; 2%nat]
              [new_Panel 50 40 1; new_Panel 60 30 2; new_Panel 40 50 1] /\
    optimize_layout 100 100 [0%nat; 1%nat; 2%nat]
      [new_Panel 50 40 1; new_Panel 60 30 2; new_Panel 40 50 1]
    = Ok ([sheet], σ') /\
    StockSheet.used_space sheet !! 1%nat = Some u /\
    entry_ok σ' u.
Proof.
  eexists _, _, _.
  assert (panels_in [new_Panel 50 40 1; new_Panel 60 30 2; new_Panel 40 50 1]
            [0%nat; 1%nat; 2%nat]
            [new_Panel 50 40 1; new_Panel 60 30 2; new_Panel 40 50 1]) as Hin
    by (repeat constructor).
  split; [exact Hin|].
  split; [vm_compute; reflexivity|]. split; [reflexivity|].
  eapply (layout_entries_record_panels 100 100 _ _ _ _ _ Hin
            ltac:(vm_compute; reflexivity)).
  - left.
  - right. left.
Defined.

(** In a returned layout the first entry of every sheet is at the origin;
    when the request has at least one instance, no sheet is empty and
    there are no more sheets than instances. *)
Theorem layout_sheets_occupied (W H : Q) (panels : list ref) (σ : heap)
    (specs : list Panel.t) (sheets : list StockSheet.t) (σ' : heap) :
  panels_in σ panels specs ->
  optimize_layout W H panels σ = Ok (sheets, σ') ->
  Forall starts_at_origin sheets /\
  (expansion specs <> [] ->
   Forall occupied sheets /\
   (length sheets <= length (expansion specs))%nat).
Proof.
  intros Hin Hrun.
  destruct (optimize_layout_layout_inv W H panels σ specs sheets σ' Hin Hrun)
    as (sheets0 & queue & Hperm & Hinv & Heff).
  destruct Hinv as (_ & I2 & _ & _ & _ & I5 & I6 & _). cbn [fst snd] in *.
  rewrite app_nil_r in I2.
  assert (length (placed_refs sheets0) = length (expansion specs)) as Hlen.
  { rewrite I2, Hperm. apply length_seq. }
  assert (length sheets = length sheets0) as Hlen'.
  { apply map_each_set_efficiency in Heff.
    symmetry. eapply Forall2_length. exact Heff. }
  split.
  - apply (set_efficiency_transfer _ sheets0 sheets Heff); [|exact I5].
    intros s s' _ _ Hused Hs. unfold starts_at_origin in *.
    rewrite Hused. exact Hs.
  - intros Hne. destruct I6 as [->|(_ & Hocc & Hcount)].
    + exfalso. simpl in Hlen. destruct (expansion specs); [congruence|].
      discriminate.
    + split; [|lia].
      apply (set_efficiency_transfer _ sheets0 sheets Heff); [|exact Hocc].
      intros s s' _ _ Hused Hs. unfold occupied in *. rewrite Hused. exact Hs.
Qed.

Lemma layout_sheets_occupied_witness :
  exists sheets σ',
    panels_in [new_Panel 80 80 2] [0%nat] [new_Panel 80 80 2] /\
    optimize_layout 100 100 [0%nat] [new_Panel 80 80 2] = Ok (sheets, σ') /\
    expansion [new_Panel 80 80 2] <> [] /\
    Forall starts_at_origin sheets /\ Forall occupied sheets /\
    (length sheets <= length (expansion [new_Panel 80 80 2]))%nat.
Proof.
  eexists _, _.
  assert (panels_in [new_Panel 80 80 2] [0%nat] [new_Panel 80 80 2]) as Hin
    by (repeat constructor).
  assert (expansion [new_Panel 80 80 2] <> []) as Hne by discriminate.
  split; [exact Hin|].
  split; [vm_compute; reflexivity|]. split; [exact Hne|].
  destruct (layout_sheets_occupied 100 100 [0%nat] [new_Panel 80 80 2] _ _ _
              Hin ltac:(vm_compute; reflexivity)) as [Ho Hrest].
  destruct (Hrest Hne) as [Hocc Hlen].
  split; [exact Ho|]. split; [exact Hocc|exact Hlen].
Defined.

(** * The check before a run *)

Lemma validate_input_spec (W H : Q) (panels : list ref) (σ : heap)
    (specs : list Panel.t) :
  panels_in σ panels specs ->
  exists b msg,
    validate_input W H panels σ = Ok (b, msg) /\
    (b = true <-> Forall (passes_validation W H) specs) /\
    (b = true -> msg = NoMessage).
Proof.
  unfold panels_in. induction 1 as [|r p l l' Hr _ IH]; cbn [validate_input].
  - exists true, NoMessage. split; [reflexivity|].
    split; [split; [constructor|reflexivity]|reflexivity].
  - rewrite (proj2 (deref_Ok σ r p) Hr). cbn [mbind result_bind].
    case_bool_decide as H1.
    { eexists _, _. split; [reflexivity|].
      split; [split; [discriminate|]|discriminate].
      intros Hall. inversion Hall as [|p0 l0 [Hp _] _]; subst. contradiction. }
    case_bool_decide as H2.
    { eexists _, _. split; [reflexivity|].
      split; [split; [discriminate|]|discriminate].
      intros Hall. inversion Hall as [|p0 l0 [_ Hp] _]; subst. contradiction. }
    destruct IH as (b & msg & -> & Hb & Hmsg). exists b, msg.
    split; [reflexivity|]. split; [|exact Hmsg].
    rewrite Hb. split.
    + intros Hall. constructor; [split; assumption|exact Hall].
    + intros Hall. inversion Hall; subst. assumption.
Qed.

(** [validate_input] accepts a list exactly when each panel passes its two
    tests, and returns the empty message then; for references to objects of
    the store it raises nothing. *)
Theorem validate_input_accepts (W H : Q) (panels : list ref) (σ : heap)
    (specs : list Panel.t) :
  panels_in σ panels specs ->
  exists b msg,
    validate_input W H panels σ = Ok (b, msg) /\
    (b = true <-> Forall (passes_validation W H) specs) /\
    (b = true -> msg = NoMessage).
Proof. apply validate_input_spec. Qed.

Lemma validate_input_accepts_witness :
  panels_in [new_Panel 150 50 1] [0%nat] [new_Panel 150 50 1] /\
  exists b msg,
    validate_input 100 100 [0%nat] [new_Panel 150 50 1] = Ok (b, msg) /\
    (b = true <-> Forall (passes_validation 100 100) [new_Panel 150 50 1]) /\
    (b = true -> msg = NoMessage).
Proof.
  assert (panels_in [new_Panel 150 50 1] [0%nat] [new_Panel 150 50 1]) as Hin
    by (repeat constructor).
  split; [exact Hin|].
  apply (validate_input_accepts 100 100 _ _ _ Hin).
Defined.




(** The check is weaker than the run: when every panel passes the two
    tests of [validate_input] but some panel fits the stock sheet in
    neither orientation (its shorter side fits, its longer side exceeds
    both stock dimensions), the check returns [True] and the run raises
    [ValueError]. *)
Theorem validate_input_weaker (W H : Q) (panels : list ref) (σ : heap)
    (specs : list Panel.t) :
  0 < W -> 0 < H -> panels_in σ panels specs -> Forall spec_ok specs ->
  Forall (passes_validation W H) specs ->
  Exists (fun p => ~ panel_fits W H p) specs ->
  validate_input W H panels σ = Ok (true, NoMessage) /\
  optimize_layout W H panels σ = Raise ValueError.
Proof.
  intros HW HH Hin Hok Hpass Hunfit. split.
  - destruct (validate_input_spec W H panels σ specs Hin)
      as (b & msg & Hrun & Hb & Hmsg).
    apply Hb in Hpass. subst b. rewrite (Hmsg eq_refl) in Hrun. exact Hrun.
  - destruct (optimize_layout_outcome W H panels σ specs HW HH Hin
                (spec_ok_expansion specs Hok)) as [_ Hbad].
    apply Hbad. apply expansion_Exists.
    rewrite Exists_exists in *. destruct Hunfit as (p & Hp & Hfail).
    exists p. split; [exact Hp|].
    rewrite Forall_forall in Hok. destruct (Hok p Hp) as (_ & _ & Hq).
    split; [exact Hq|exact Hfail].
Qed.

Lemma validate_input_weaker_witness :
  0 < 100 /\
  panels_in [new_Panel 150 50 1] [0%nat] [new_Panel 150 50 1] /\
  Forall spec_ok [new_Panel 150 50 1] /\
  Forall (passes_validation 100 100) [new_Panel 150 50 1] /\
  Exists (fun p => ~ panel_fits 100 100 p) [new_Panel 150 50 1] /\
  validate_input 100 100 [0%nat] [new_Panel 150 50 1] = Ok (true, NoMessage) /\
  optimize_layout 100 100 [0%nat] [new_Panel 150 50 1] = Raise ValueError.
Proof.
  assert (0 < 100) as HW by reflexivity.
  assert (panels_in [new_Panel 150 50 1] [0%nat] [new_Panel 150 50 1]) as Hin
    by (repeat constructor).
  assert (Forall spec_ok [new_Panel 150 50 1]) as Hok.
  { repeat constructor; simpl; discriminate. }
  assert (Forall (passes_validation 100 100) [new_Panel 150 50 1]) as Hpass.
  { repeat constructor; simpl; intros [H1 H2]; vm_compute in H2;
      discriminate. }
  assert (Exists (fun p => ~ panel_fits 100 100 p) [new_Panel 150 50 1])
    as Hunfit.
  { left. unfold panel_fits. simpl.
    intros [[H _]|[_ H]]; apply H; reflexivity. }
  split; [exact HW|]. split; [exact Hin|]. split; [exact Hok|].
  split; [exact Hpass|]. split; [exact Hunfit|].
  apply (validate_input_weaker 100 100 _ _ _ HW HW Hin Hok Hpass Hunfit).
Defined.

(** * Sheets only grow *)

Lemma continues_refl (sheets : list StockSheet.t) : continues sheets sheets.
Proof. intros i s Hs. exists s. auto. Qed.

Lemma continues_trans (l1 l2 l3 : list StockSheet.t) :
  continues l1 l2 -> continues l2 l3 -> continues l1 l3.
Proof.
  intros H12 H23 i s Hs.
  destruct (H12 i s Hs) as (s2 & Hs2 & Hw2 & Hh2 & Hp2).
  destruct (H23 i s2 Hs2) as (s3 & Hs3 & Hw3 & Hh3 & Hp3).
  exists s3. split; [exact Hs3|].
  split; [congruence|]. split; [congruence|].
  etransitivity; eassumption.
Qed.

Lemma loop_body_continues (W H : Q) (sheets : list StockSheet.t) (r : ref)
    (rem : list ref) (σ : heap) (st' : state) :
  loop_body W H sheets r rem σ = Ok st' -> continues sheets st'.1.1.
Proof.
  intros Hrun. destruct st' as [[sheets' rem'] σ'].
  apply loop_body_Ok in Hrun
    as (panel & c & _ & _ & _ & [(i & Hff & ->)|(_ & _ & ->)]); simpl.
  - destruct Hff as [(s & Hs & _) _]. unfold placed_on. rewrite Hs.
    intros j s0 Hj. destruct (decide (j = i)) as [->|Hne].
    + rewrite Hs in Hj. inversion Hj; subst s0.
      exists (add_used s panel r c.1.1 c.1.2 c.2). split.
      * apply list_lookup_insert_eq. eapply lookup_lt_Some. exact Hs.
      * split; [reflexivity|]. split; [reflexivity|].
        cbn [add_used StockSheet.used_space]. apply prefix_app_r. reflexivity.
    + exists s0. split; [|auto].
      rewrite list_lookup_insert_ne by congruence. exact Hj.
  - intros j s0 Hj. exists s0. split; [|auto].
    apply lookup_app_l_Some. exact Hj.
Qed.

(** The allocation loop never removes or reorders what is placed: every
    sheet of the list it starts from is in the list it ends with, at the
    same place and with the same dimensions, and the entries it had come
    first, in their order, among the entries it has. *)
Theorem while_remaining_continues (W H : Q) (fuel : nat) (st st' : state) :
  while_remaining fuel W H st = Ok st' -> continues st.1.1 st'.1.1.
Proof.
  revert st. induction fuel as [|fuel IH]; intros [[sheets rem] σ] Hrun.
  - destruct rem; [|discriminate]. inversion Hrun; subst.
    apply continues_refl.
  - destruct rem as [|r rem]; cbn [while_remaining] in Hrun.
    + inversion Hrun; subst. apply continues_refl.
    + apply bind_Ok in Hrun as (st1 & Hbody & Hrun).
      eapply continues_trans.
      * apply (loop_body_continues _ _ _ _ _ _ _ Hbody).
      * apply IH. exact Hrun.
Qed.

Lemma while_remaining_continues_witness :
  exists st',
    while_remaining 1 100 100 ([sheet_B], [0%nat], [new_Panel 20 20 1])
    = Ok st' /\
    continues [sheet_B] st'.1.1.
Proof.
  eexists. split; [vm_compute; reflexivity|].
  apply (while_remaining_continues 100 100 1
           ([sheet_B], [0%nat], [new_Panel 20 20 1]) _
           ltac:(vm_compute; reflexivity)).
Defined.

(** * The run ends *)

(** Started from references to objects of the store, [optimize_layout]
    returns a layout or raises [ValueError] or [ZeroDivisionError]: its
    main loop takes one instance off the queue at every turn, and ends
    within as many turns as there are instances. *)
Theorem optimize_layout_ends (W H : Q) (panels : list ref) (σ : heap)
    (specs : list Panel.t) :
  panels_in σ panels specs ->
  (exists sheets σ', optimize_layout W H panels σ = Ok (sheets, σ')) \/
  optimize_layout W H panels σ = Raise ValueError \/
  optimize_layout W H panels σ = Raise ZeroDivisionError.
Proof.
  intros Hin.
  pose proof (optimize_layout_not_stuck W H panels σ specs Hin) as Hns.
  destruct (optimize_layout W H panels σ) as [[sheets σ']|[]|];
    [left; eauto|right; left; reflexivity|right; right; reflexivity|
     congruence].
Qed.

Lemma optimize_layout_ends_witness :
  panels_in [new_Panel 50 40 4] [0%nat] [new_Panel 50 40 4] /\
  ((exists sheets σ',
      optimize_layout 100 100 [0%nat] [new_Panel 50 40 4] = Ok (sheets, σ')) \/
   optimize_layout 100 100 [0%nat] [new_Panel 50 40 4] = Raise ValueError \/
   optimize_layout 100 100 [0%nat] [new_Panel 50 40 4]
   = Raise ZeroDivisionError).
Proof.
  assert (panels_in [new_Panel 50 40 4] [0%nat] [new_Panel 50 40 4]) as Hin
    by (repeat constructor).
  split; [exact Hin|].
  apply (optimize_layout_ends 100 100 _ _ _ Hin).
Defined.

(** * The search on any sheet *)

(** A panel that exceeds the raw extent of the sheet in both orientations
    gets no position and no exception, whatever the sheet holds and
    whatever the grid step. *)
Theorem find_position_too_large (sheet : StockSheet.t) (panel : Panel.t) :
  ~ (Panel.width panel <= StockSheet.width sheet /\
     Panel.height panel <= StockSheet.height sheet) ->
  ~ (Panel.height panel <= StockSheet.width sheet /\
     Panel.width panel <= StockSheet.height sheet) ->
  find_position sheet panel = Ok None.
Proof. apply find_position_no_fit. Qed.

Lemma find_position_too_large_witness :
  ~ (Panel.width (new_Panel 20 0 1) <= StockSheet.width (new_StockSheet 10 10)
     /\ Panel.height (new_Panel 20 0 1)
        <= StockSheet.height (new_StockSheet 10 10)) /\
  ~ (Panel.height (new_Panel 20 0 1) <= StockSheet.width (new_StockSheet 10 10)
     /\ Panel.width (new_Panel 20 0 1)
        <= StockSheet.height (new_StockSheet 10 10)) /\
  find_position (new_StockSheet 10 10) (new_Panel 20 0 1) = Ok None.
Proof.
  assert (~ (Panel.width (new_Panel 20 0 1)
             <= StockSheet.width (new_StockSheet 10 10) /\
             Panel.height (new_Panel 20 0 1)
             <= StockSheet.height (new_StockSheet 10 10))) as H1.
  { simpl. intros [H _]. apply H. reflexivity. }
  assert (~ (Panel.height (new_Panel 20 0 1)
             <= StockSheet.width (new_StockSheet 10 10) /\
             Panel.width (new_Panel 20 0 1)
             <= StockSheet.height (new_StockSheet 10 10))) as H2.
  { simpl. intros [_ H]. apply H. reflexivity. }
  split; [exact H1|]. split; [exact H2|].
  apply (find_position_too_large _ _ H1 H2).
Defined.

(** * The entries and the panels they point to *)

Lemma entries_panels (sheets : list StockSheet.t) :
  map Rect.panel (entries sheets) = placed_refs sheets.
Proof.
  unfold entries, placed_refs. induction sheets as [|s sheets IH]; simpl.
  - reflexivity.
  - rewrite map_app, IH. reflexivity.
Qed.

(** * Conservation *)

(** Whenever a run returns, the panels that the entries of its layout
    point to are the instances it created, each exactly once: as many
    entries as the quantities (those that are positive) add up to, and no
    panel on two entries. *)
Theorem layout_conservation (W H : Q) (panels : list ref) (σ : heap)
    (specs : list Panel.t) (sheets : list StockSheet.t) (σ' : heap) :
  panels_in σ panels specs ->
  optimize_layout W H panels σ = Ok (sheets, σ') ->
  placed_refs sheets ≡ₚ seq (length σ) (length (expansion specs)) /\
  NoDup (placed_refs sheets) /\
  length (entries sheets)
  = foldr (fun p n => (Z.to_nat (Panel.quantity p) + n)%nat) 0%nat specs.
Proof.
  intros Hin Hrun.
  destruct (optimize_layout_layout_inv W H panels σ specs sheets σ' Hin Hrun)
    as (sheets0 & queue & Hperm & Hinv & Heff).
  destruct Hinv as (_ & I2 & _). cbn [fst snd] in *.
  rewrite app_nil_r in I2.
  assert (placed_refs sheets ≡ₚ seq (length σ) (length (expansion specs)))
    as Hall.
  { rewrite (placed_refs_set_efficiency _ _ Heff), I2. exact Hperm. }
  split; [exact Hall|]. split.
  - rewrite Hall. apply NoDup_seq.
  - rewrite <- (length_map Rect.panel), entries_panels, Hall, length_seq.
    unfold expansion. clear. induction specs as [|p l IH]; simpl.
    + reflexivity.
    + rewrite length_app, IH. unfold copies_of. rewrite length_replicate.
      reflexivity.
Qed.

Lemma layout_conservation_witness :
  exists sheets σ',
    panels_in [new_Panel 50 40 1; new_Panel 60 30 2; new_Panel 40 50 0]
              [0%nat; 1%nat; 2%nat]
              [new_Panel 50 40 1; new_Panel 60 30 2; new_Panel 40 50 0] /\
    optimize_layout 100 100 [0%nat; 1%nat; 2%nat]
      [new_Panel 50 40 1; new_Panel 60 30 2; new_Panel 40 50 0]
    = Ok (sheets, σ') /\
    placed_refs sheets ≡ₚ [3%nat; 4%nat; 5%nat] /\
    NoDup (placed_refs sheets) /\
    length (entries sheets) = 3%nat.
Proof.
  eexists _, _.
  assert (panels_in [new_Panel 50 40 1; new_Panel 60 30 2; new_Panel 40 50 0]
            [0%nat; 1%nat; 2%nat]
            [new_Panel 50 40 1; new_Panel 60 30 2; new_Panel 40 50 0]) as Hin
    by (repeat constructor).
  split; [exact Hin|].
  split; [vm_compute; reflexivity|].
  apply (layout_conservation 100 100 _ _ _ _ _ Hin
           ltac:(vm_compute; reflexivity)).
Defined.

(** * Binary64 numbers *)

(** ** The order *)

Lemma lex3_Lt (a b : Z * Z * Z) : lex3 a b = Lt <-> lt3 a b.
Proof.
  destruct a as [[a1 a2] a3], b as [[b1 b2] b3]. unfold lex3, lt3. simpl.
  destruct (Z.compare_spec a1 b1), (Z.compare_spec a2 b2),
    (Z.compare_spec a3 b3); split; intros Hyp; try discriminate;
    try reflexivity; try lia.
Qed.

Lemma lex3_Eq (a b : Z * Z * Z) : lex3 a b = Eq <-> eq3 a b.
Proof.
  destruct a as [[a1 a2] a3], b as [[b1 b2] b3]. unfold lex3, eq3. simpl.
  destruct (Z.compare_spec a1 b1), (Z.compare_spec a2 b2),
    (Z.compare_spec a3 b3); split; intros Hyp; try discriminate;
    try reflexivity; try lia.
Qed.

Lemma lex3_Gt (a b : Z * Z * Z) : lex3 a b = Gt <-> lt3 b a.
Proof.
  destruct a as [[a1 a2] a3], b as [[b1 b2] b3]. unfold lex3, lt3. simpl.
  destruct (Z.compare_spec a1 b1), (Z.compare_spec a2 b2),
    (Z.compare_spec a3 b3); split; intros Hyp; try discriminate;
    try reflexivity; try lia.
Qed.

Lemma SFcompare_rank (x y : spec_float) :
  SFcompare x y = match sf_rank x, sf_rank y with
                  | Some a, Some b => Some (lex3 a b)
                  | _, _ => None
                  end.
Proof.
  destruct x as [sx|sx| |sx mx ex], y as [sy|sy| |sy my ey];
    try reflexivity;
    try (destruct sx; reflexivity);
    try (destruct sy; reflexivity);
    try (destruct sx, sy; reflexivity).
  destruct sx, sy; try reflexivity; unfold SFcompare, sf_rank, lex3;
    cbn [fst snd]; f_equal.
  - rewrite Z.compare_opp.
    rewrite (Z.compare_antisym ex ey). cbn [Z.compare].
    destruct (ex ?= ey)%Z; reflexivity.
Qed.

Lemma compare_rank (R : Z * Z * Z -> Z * Z * Z -> Prop)
    (test : comparison -> bool) (x y : float) :
  (forall a b, test (lex3 a b) = true <-> R a b) ->
  match SFcompare (Prim2SF x) (Prim2SF y) with
  | Some c => test c
  | None => false
  end = true <-> ranked R x y.
Proof.
  intros Htest. unfold ranked, rank. rewrite SFcompare_rank.
  destruct (sf_rank (Prim2SF x)) as [a|], (sf_rank (Prim2SF y)) as [b|].
  - rewrite Htest. split.
    + intros HR. exists a, b. auto.
    + intros (a' & b' & Ha & Hb & HR). congruence.
  - split; [discriminate|]. intros (a' & b' & _ & Hb & _). discriminate.
  - split; [discriminate|]. intros (a' & b' & Ha & _). discriminate.
  - split; [discriminate|]. intros (a' & b' & Ha & _). discriminate.
Qed.

Lemma ltb_rank (x y : float) : (x <? y)%float = true <-> ranked lt3 x y.
Proof.
  rewrite FloatAxioms.ltb_spec. unfold SFltb.
  rewrite <- (compare_rank lt3 (fun c => match c with Lt => true | _ => false end)).
  - destruct (SFcompare _ _) as [[| |]|]; reflexivity.
  - intros a b. rewrite <- lex3_Lt. destruct (lex3 a b); split; congruence.
Qed.

Lemma eqb_rank (x y : float) : (x =? y)%float = true <-> ranked eq3 x y.
Proof.
  rewrite FloatAxioms.eqb_spec. unfold SFeqb.
  rewrite <- (compare_rank eq3 (fun c => match c with Eq => true | _ => false end)).
  - destruct (SFcompare _ _) as [[| |]|]; reflexivity.
  - intros a b. rewrite <- lex3_Eq. destruct (lex3 a b); split; congruence.
Qed.

Lemma leb_rank (x y : float) : (x <=? y)%float = true <-> ranked le3 x y.
Proof.
  rewrite FloatAxioms.leb_spec. unfold SFleb.
  rewrite <- (compare_rank le3 (fun c => match c with Gt => false | _ => true end)).
  - destruct (SFcompare _ _) as [[| |]|]; reflexivity.
  - intros a b. unfold le3. rewrite <- lex3_Lt, <- lex3_Eq.
    destruct (lex3 a b); split; try congruence; auto.
    intros [Hc|Hc]; discriminate.
Qed.

Lemma is_nan_rank (x : float) : is_nan x = false <-> exists a, rank x = Some a.
Proof.
  unfold is_nan. rewrite negb_false_iff, eqb_rank. unfold ranked. split.
  - intros (a & b & Ha & _). eauto.
  - intros (a & Ha). exists a, a. unfold eq3. auto.
Qed.

Lemma is_nan_rank_true (x : float) : is_nan x = true <-> rank x = None.
Proof.
  destruct (is_nan x) eqn:E.
  - split; [|reflexivity]. intros _.
    destruct (rank x) as [a|] eqn:Hr; [|reflexivity].
    assert (is_nan x = false) by (apply is_nan_rank; eauto). congruence.
  - apply is_nan_rank in E as (a & Ha). rewrite Ha. split; discriminate.
Qed.

(** Order facts about floats are decided on the ranks: the comparisons
    in the context and in the goal become statements about triples of
    integers, which linear arithmetic settles. *)
Ltac rank_cases :=
  repeat match goal with
  | H : rank ?x = Some _, H' : rank ?x = Some _ |- _ =>
      rewrite H in H'; inversion H'; subst; clear H'
  | H : rank ?x = Some _, H' : rank ?x = None |- _ =>
      rewrite H in H'; discriminate
  end.

Ltac float_order :=
  repeat match goal with
  | H : (_ <? _)%float = true |- _ =>
      apply ltb_rank in H; destruct H as (? & ? & ? & ? & H)
  | H : (_ =? _)%float = true |- _ =>
      apply eqb_rank in H; destruct H as (? & ? & ? & ? & H)
  | H : (_ <=? _)%float = true |- _ =>
      apply leb_rank in H; destruct H as (? & ? & ? & ? & H)
  | H : (_ <? _)%float = false |- _ =>
      apply not_true_iff_false in H; rewrite ltb_rank in H
  | H : (_ =? _)%float = false |- _ =>
      apply not_true_iff_false in H; rewrite eqb_rank in H
  | H : (_ <=? _)%float = false |- _ =>
      apply not_true_iff_false in H; rewrite leb_rank in H
  | H : is_nan _ = false |- _ =>
      apply is_nan_rank in H; destruct H as (? & H)
  | H : is_nan _ = true |- _ => apply is_nan_rank_true in H
  end;
  rank_cases;
  lazymatch goal with
  | |- (_ <? _)%float = true => apply ltb_rank
  | |- (_ =? _)%float = true => apply eqb_rank
  | |- (_ <=? _)%float = true => apply leb_rank
  | |- (_ <? _)%float = false =>
      apply not_true_iff_false; rewrite ltb_rank; intros (? & ? & ? & ? & ?)
  | |- (_ =? _)%float = false =>
      apply not_true_iff_false; rewrite eqb_rank; intros (? & ? & ? & ? & ?)
  | |- (_ <=? _)%float = false =>
      apply not_true_iff_false; rewrite leb_rank; intros (? & ? & ? & ? & ?)
  | |- is_nan _ = false => apply is_nan_rank
  | |- _ => idtac
  end;
  rank_cases;
  repeat match goal with
  | H : ~ ranked ?R ?x ?y, Hx : rank ?x = Some ?a, Hy : rank ?y = Some ?b
    |- _ =>
      assert (~ R a b)
        by (let Hr := fresh in
            intros Hr; apply H; exists a, b;
            split; [exact Hx|split; [exact Hy|exact Hr]]);
      clear H
  end;
  try (unfold ranked; eexists; eexists; split; [eassumption|];
       split; [eassumption|]);
  try (eexists; eassumption);
  repeat match goal with
  | a : (Z * Z * Z)%type |- _ => destruct a as [[? ?] ?]
  end;
  unfold le3, lt3, eq3 in *; simpl in *; lia.

Lemma ltb_trans (x y z : float) :
  (x <? y)%float = true -> (y <? z)%float = true -> (x <? z)%float = true.
Proof. intros. float_order. Qed.

Lemma ltb_irrefl (x : float) : (x <? x)%float = false.
Proof. destruct (x <? x)%float eqn:E; [|reflexivity]. exfalso. float_order. Qed.

Lemma ltb_eqb_trans (x y z : float) :
  (x <? y)%float = true -> (y =? z)%float = true -> (x <? z)%float = true.
Proof. intros. float_order. Qed.

Lemma eqb_ltb_trans (x y z : float) :
  (x =? y)%float = true -> (y <? z)%float = true -> (x <? z)%float = true.
Proof. intros. float_order. Qed.

Lemma eqb_trans (x y z : float) :
  (x =? y)%float = true -> (y =? z)%float = true -> (x =? z)%float = true.
Proof. intros. float_order. Qed.

Lemma eqb_sym (x y : float) : (x =? y)%float = (y =? x)%float.
Proof.
  destruct (x =? y)%float eqn:E1, (y =? x)%float eqn:E2; try reflexivity;
    exfalso; float_order.
Qed.

Lemma leb_ltb_eqb (x y : float) :
  (x <=? y)%float = (x <? y)%float || (x =? y)%float.
Proof.
  destruct (x <=? y)%float eqn:E1, (x <? y)%float eqn:E2,
    (x =? y)%float eqn:E3; try reflexivity; exfalso; float_order.
Qed.

Lemma ltb_total (x y : float) :
  is_nan x = false -> is_nan y = false ->
  (x <? y)%float = false -> (x =? y)%float = false -> (y <? x)%float = true.
Proof. intros. float_order. Qed.

Lemma leb_total (x y : float) :
  is_nan x = false -> is_nan y = false ->
  (y <? x)%float = false -> (x <=? y)%float = true.
Proof. intros. float_order. Qed.

Lemma leb_number (x y : float) :
  (x <=? y)%float = true -> is_nan x = false /\ is_nan y = false.
Proof. intros. split; float_order. Qed.

Lemma leb_trans (x y z : float) :
  (x <=? y)%float = true -> (y <=? z)%float = true -> (x <=? z)%float = true.
Proof. intros. float_order. Qed.

(** ** Rounding never produces NaN from a mantissa that is not negative *)

Lemma shr_1_nonneg (mrs : shr_record) :
  (0 <= shr_m mrs)%Z -> (0 <= shr_m (shr_1 mrs))%Z.
Proof.
  destruct mrs as [m r s]. destruct m as [|[p|p|]|[p|p|]]; simpl; lia.
Qed.

Lemma iter_pos_shr_1_nonneg (p : positive) (mrs : shr_record) :
  (0 <= shr_m mrs)%Z -> (0 <= shr_m (SpecFloat.iter_pos shr_1 p mrs))%Z.
Proof.
  revert mrs. induction p as [p IH|p IH|]; intros mrs Hm; simpl.
  - apply IH, IH, shr_1_nonneg, Hm.
  - apply IH, IH, Hm.
  - apply shr_1_nonneg, Hm.
Qed.

Lemma shr_fexp_nonneg (m e : Z) (l : location) :
  (0 <= m)%Z -> (0 <= shr_m (shr_fexp prec emax m e l).1)%Z.
Proof.
  intros Hm. unfold shr_fexp, shr.
  assert (0 <= shr_m (shr_record_of_loc m l))%Z as Hrec.
  { destruct l as [|[| |]]; exact Hm. }
  destruct (fexp prec emax (Zdigits2 m + e) - e)%Z; simpl; try exact Hrec.
  apply iter_pos_shr_1_nonneg, Hrec.
Qed.

Lemma round_nearest_even_nonneg (mx : Z) (lx : location) :
  (0 <= mx)%Z -> (0 <= round_nearest_even mx lx)%Z.
Proof.
  intros Hm. destruct lx as [|[| |]]; simpl; try destruct (Z.even mx); lia.
Qed.

Lemma binary_round_aux_signed (sx : bool) (mx ex : Z) (lx : location) :
  (0 <= mx)%Z -> signed sx (binary_round_aux prec emax sx mx ex lx).
Proof.
  intros Hm. unfold binary_round_aux.
  pose proof (shr_fexp_nonneg mx ex lx Hm) as H1.
  destruct (shr_fexp prec emax mx ex lx) as [mrs' e'].
  pose proof (shr_fexp_nonneg _ e' loc_Exact
                (round_nearest_even_nonneg _ (loc_of_shr_record mrs') H1))
    as H2.
  destruct (shr_fexp prec emax _ e' loc_Exact) as [mrs'' e''].
  simpl in H2. unfold signed. destruct (shr_m mrs'') as [|m|m].
  - left. reflexivity.
  - destruct (e'' <=? emax - prec)%Z; [right; right; eauto|right; left; auto].
  - lia.
Qed.

Lemma binary_round_signed (sx : bool) (mx : positive) (ex : Z) :
  signed sx (binary_round prec emax sx mx ex).
Proof.
  unfold binary_round.
  destruct (shl_align mx ex _) as [mz ez].
  apply binary_round_aux_signed. lia.
Qed.

Lemma signed_rank (s : bool) (x : spec_float) :
  signed s x -> exists a, sf_rank x = Some a.
Proof.
  intros [->|[->|(m & e & ->)]]; simpl; eauto.
Qed.

(** ** Numbers, and operations that keep them *)

Lemma is_nan_Prim2SF (x : float) :
  is_nan x = false <-> Prim2SF x <> S754_nan.
Proof.
  rewrite is_nan_rank. unfold rank.
  destruct (Prim2SF x); simpl; split; try congruence; eauto.
  intros (a & Ha). discriminate.
Qed.

Lemma add_zero_finite (x : float) (s : bool) (m : positive) (e : Z) :
  Prim2SF x = S754_finite s m e -> (0 + x)%float = x.
Proof.
  intros Hx. apply Prim2SF_inj. rewrite FloatAxioms.add_spec, Hx. reflexivity.
Qed.

Lemma sub_zero_finite (x : float) (s : bool) (m : positive) (e : Z) :
  Prim2SF x = S754_finite s m e -> (x - 0)%float = x.
Proof.
  intros Hx. apply Prim2SF_inj. rewrite FloatAxioms.sub_spec, Hx. reflexivity.
Qed.

Lemma add_zero_number (x : float) :
  is_nan x = false -> is_nan (0 + x)%float = false.
Proof.
  rewrite !is_nan_Prim2SF, FloatAxioms.add_spec. change (Prim2SF 0) with (S754_zero false).
  destruct (Prim2SF x) as [[|]| | |]; simpl; congruence.
Qed.

Lemma mul_finite_number (a b : float) (s : bool) (m : positive) (e : Z) :
  is_nan a = false -> Prim2SF b = S754_finite s m e ->
  is_nan (a * b)%float = false.
Proof.
  rewrite !is_nan_Prim2SF, FloatAxioms.mul_spec. intros Ha Hb. rewrite Hb.
  destruct (Prim2SF a) as [sa|sa| |sa ma ea]; simpl; try congruence.
  unfold SF64mul. simpl.
  destruct (binary_round_aux_signed (xorb sa s) (Z.pos (ma * m)) (ea + e)
              loc_Exact) as [H|[H|(m' & e' & H)]]; [lia| | |];
    rewrite H; discriminate.
Qed.

Lemma of_uint63_number (n : int) : is_nan (of_uint63 n) = false.
Proof.
  rewrite is_nan_Prim2SF, of_uint63_spec. unfold binary_normalize.
  destruct (Uint63.to_Z n) as [|p|p]; [discriminate| |].
  - destruct (binary_round_signed false p 0) as [H|[H|(m' & e' & H)]];
      rewrite H; discriminate.
  - destruct (binary_round_signed true p 0) as [H|[H|(m' & e' & H)]];
      rewrite H; discriminate.
Qed.

Lemma div_finite (a b : float) (s : bool) (m : positive) (e : Z) :
  Prim2SF (a / b)%float = S754_finite s m e ->
  exists sb mb eb, Prim2SF b = S754_finite sb mb eb.
Proof.
  rewrite FloatAxioms.div_spec.
  destruct (Prim2SF a) as [sa|sa| |sa ma ea], (Prim2SF b) as [sb|sb| |sb mb eb];
    simpl; try discriminate; eauto.
Qed.

Lemma leb_zero_number (x : float) : (0 <=? x)%float = true -> is_nan x = false.
Proof. intros H. float_order. Qed.

(** ** The sign of a difference *)

Lemma digits2_pos_bounds (m : positive) :
  (2 ^ (Z.pos (digits2_pos m) - 1) <= Z.pos m < 2 ^ Z.pos (digits2_pos m))%Z.
Proof.
  induction m as [m IH|m IH|]; cbn [digits2_pos].
  - rewrite Pos2Z.inj_succ.
    replace (Z.succ (Z.pos (digits2_pos m)) - 1)%Z
      with (Z.succ (Z.pos (digits2_pos m) - 1))%Z by lia.
    rewrite !Z.pow_succ_r by lia. lia.
  - rewrite Pos2Z.inj_succ.
    replace (Z.succ (Z.pos (digits2_pos m)) - 1)%Z
      with (Z.succ (Z.pos (digits2_pos m) - 1))%Z by lia.
    rewrite !Z.pow_succ_r by lia. lia.
  - simpl. lia.
Qed.

Lemma iter_xO_pow (m d : positive) :
  Z.pos (Pos.iter xO m d) = (Z.pos m * 2 ^ Z.pos d)%Z.
Proof.
  induction d as [|d IH] using Pos.peano_ind.
  - simpl. lia.
  - rewrite Pos.iter_succ, Pos2Z.inj_succ, Z.pow_succ_r by lia.
    rewrite Pos2Z.inj_xO, IH. lia.
Qed.

(** The mantissa aligned to an exponent that is not above its own. *)
Lemma shl_align_value (m : positive) (e ez : Z) :
  (ez <= e)%Z ->
  Z.pos (shl_align m e ez).1 = (Z.pos m * 2 ^ (e - ez))%Z.
Proof.
  intros Hle. unfold shl_align.
  destruct (ez - e)%Z as [|d|d] eqn:Hd.
  - replace (e - ez)%Z with 0%Z by lia. simpl. lia.
  - lia.
  - simpl. rewrite iter_xO_pow. f_equal. f_equal. lia.
Qed.

(** A valid mantissa has at most 53 bits, and exactly 53 above the least
    exponent. *)
Lemma bounded_mantissa (m : positive) (e : Z) :
  bounded prec emax m e = true ->
  (Z.pos m < 2 ^ 53)%Z /\ (-1074 <= e)%Z /\
  (-1074 < e -> 2 ^ 52 <= Z.pos m)%Z.
Proof.
  unfold bounded, canonical_mantissa, fexp, SpecFloat.emin.
  rewrite andb_true_iff, Z.eqb_eq. intros [Hc _].
  pose proof (digits2_pos_bounds m) as [Hlo Hhi].
  change prec with 53%Z in Hc. change emax with 1024%Z in Hc.
  assert (Z.pos (digits2_pos m) <= 53)%Z as Hd by lia.
  split; [|split].
  - eapply Z.lt_le_trans; [exact Hhi|].
    apply Z.pow_le_mono_r; lia.
  - lia.
  - intros He. assert (Z.pos (digits2_pos m) = 53)%Z as Heq by lia.
    rewrite Heq in Hlo. exact Hlo.
Qed.

Lemma SFleb_zero_signed (x : spec_float) :
  signed false x -> SFleb (S754_zero false) x = true.
Proof. intros [->|[->|(m & e & ->)]]; reflexivity. Qed.

Lemma binary_normalize_nonneg (d e : Z) :
  (0 <= d)%Z ->
  SFleb (S754_zero false) (binary_normalize prec emax d e false) = true.
Proof.
  intros Hd. destruct d as [|p|p]; [reflexivity| |lia].
  apply SFleb_zero_signed. apply binary_round_signed.
Qed.

Lemma SFsub_nonneg_finite (sx sy : bool) (mx my : positive) (ex ey : Z) :
  bounded prec emax mx ex = true -> bounded prec emax my ey = true ->
  SFleb (S754_finite sy my ey) (S754_finite sx mx ex) = true ->
  SFleb (S754_zero false)
        (SFsub prec emax (S754_finite sx mx ex) (S754_finite sy my ey))
  = true.
Proof.
  intros Hbx Hby Hle. cbn [SFsub]. apply binary_normalize_nonneg.
  apply bounded_mantissa in Hbx as (Hx1 & Hx2 & Hx3).
  apply bounded_mantissa in Hby as (Hy1 & Hy2 & Hy3).
  rewrite !shl_align_value by lia.
  assert (forall a b : Z, (0 <= a)%Z -> (0 <= b)%Z -> (1 <= 2 ^ a)%Z /\
            (2 ^ (a + b) = 2 ^ a * 2 ^ b)%Z) as Hpow.
  { intros a b Ha Hb. split; [|apply Z.pow_add_r; assumption].
    pose proof (Z.pow_pos_nonneg 2 a). lia. }
  unfold SFleb, SFcompare in Hle.
  destruct sx, sy; cbn [cond_Zopp]; try discriminate.
  - (* both negative *)
    destruct (Z.compare_spec ey ex) as [Heq|Hlt|Hgt]; try discriminate.
    + subst ey. change (Pos.compare_cont Eq my mx) with (Pos.compare my mx) in Hle.
      destruct (Pos.compare_spec my mx) as [Hm|Hm|Hm]; try discriminate.
      * subst. lia.
      * rewrite Z.min_id, Z.sub_diag. simpl. lia.
    + rewrite Z.min_l by lia. rewrite Z.sub_diag.
      destruct (Hpow 1%Z (ey - ex - 1)%Z) as [_ Hp]; [lia|lia|].
      replace (1 + (ey - ex - 1))%Z with (ey - ex)%Z in Hp by lia.
      rewrite Hp. destruct (Hpow (ey - ex - 1)%Z 0%Z) as [Hone _]; [lia|lia|].
      specialize (Hy3 ltac:(lia)). simpl (2 ^ 0)%Z. simpl (2 ^ 1)%Z. nia.
  - (* x negative, y positive: excluded by the comparison *)
    pose proof (Pos2Z.is_pos mx). pose proof (Pos2Z.is_pos my).
    destruct (Hpow (ex - Z.min ex ey)%Z 0%Z) as [H1 _]; [lia|lia|].
    destruct (Hpow (ey - Z.min ex ey)%Z 0%Z) as [H2 _]; [lia|lia|].
    nia.
  - (* both positive *)
    destruct (Z.compare_spec ey ex) as [Heq|Hlt|Hgt]; try discriminate.
    + subst ey. change (Pos.compare_cont Eq my mx) with (Pos.compare my mx) in Hle.
      destruct (Pos.compare_spec my mx) as [Hm|Hm|Hm]; try discriminate.
      * subst. lia.
      * rewrite Z.min_id, Z.sub_diag. simpl. lia.
    + rewrite Z.min_r by lia. rewrite Z.sub_diag.
      destruct (Hpow 1%Z (ex - ey - 1)%Z) as [_ Hp]; [lia|lia|].
      replace (1 + (ex - ey - 1))%Z with (ex - ey)%Z in Hp by lia.
      rewrite Hp. destruct (Hpow (ex - ey - 1)%Z 0%Z) as [Hone _]; [lia|lia|].
      specialize (Hx3 ltac:(lia)). simpl (2 ^ 0)%Z. simpl (2 ^ 1)%Z. nia.
Qed.

Lemma is_finite_Prim2SF (x : float) :
  is_finite x = true ->
  (exists s, Prim2SF x = S754_zero s) \/
  (exists s m e, Prim2SF x = S754_finite s m e).
Proof.
  unfold is_finite, is_infinity. rewrite negb_true_iff, orb_false_iff.
  intros [Hnan Hinf]. apply is_nan_Prim2SF in Hnan.
  rewrite FloatAxioms.eqb_spec, abs_spec in Hinf.
  change (Prim2SF infinity) with (S754_infinity false) in Hinf.
  destruct (Prim2SF x) as [s|s| |s m e]; eauto.
  - discriminate.
  - congruence.
Qed.

(** The difference of two finite numbers is not negative when the second
    is not above the first. *)
Lemma sub_nonneg (a b : float) :
  is_finite a = true -> is_finite b = true ->
  (b <=? a)%float = true -> (0 <=? a - b)%float = true.
Proof.
  intros Ha Hb. rewrite !FloatAxioms.leb_spec, FloatAxioms.sub_spec.
  change (Prim2SF 0) with (S754_zero false).
  pose proof (Prim2SF_valid a) as Hva. pose proof (Prim2SF_valid b) as Hvb.
  apply is_finite_Prim2SF in Ha as [(sa & Ha)|(sa & ma & ea & Ha)];
    apply is_finite_Prim2SF in Hb as [(sb & Hb)|(sb & mb & eb & Hb)];
    rewrite Ha, Hb in *.
  - intros _. destruct sa, sb; reflexivity.
  - destruct sb; [reflexivity|discriminate].
  - destruct sa; [discriminate|reflexivity].
  - apply SFsub_nonneg_finite; assumption.
Qed.

(** ** Zero over a number that is not zero *)

Lemma mul_finite_finite_number (a b : float) :
  is_finite a = true -> is_finite b = true -> is_nan (a * b)%float = false.
Proof.
  intros Ha Hb. apply is_finite_Prim2SF in Hb as [(s & Hb)|(s & m & e & Hb)].
  - apply is_nan_Prim2SF. rewrite FloatAxioms.mul_spec, Hb.
    apply is_finite_Prim2SF in Ha as [(sa & Ha)|(sa & ma & ea & Ha)];
      rewrite Ha; discriminate.
  - apply (mul_finite_number a b s m e); [|exact Hb].
    unfold is_finite in Ha. rewrite negb_true_iff, orb_false_iff in Ha.
    apply Ha.
Qed.

Lemma eqb_zero_Prim2SF (a : float) :
  (a =? 0)%float = true <-> exists s, Prim2SF a = S754_zero s.
Proof.
  rewrite FloatAxioms.eqb_spec. change (Prim2SF 0) with (S754_zero false).
  destruct (Prim2SF a) as [s|s| |s m e]; simpl; split; try discriminate; eauto;
    try (intros (s' & Hs); discriminate); destruct s; discriminate.
Qed.

(** [0 / a * 100] is zero for every number [a] that is not zero. *)
Lemma zero_div_mul (a : float) :
  is_nan a = false -> (a =? 0)%float = false ->
  (0 / a * 100 =? 0)%float = true.
Proof.
  intros Hnan Hz. apply eqb_zero_Prim2SF.
  rewrite FloatAxioms.mul_spec, FloatAxioms.div_spec.
  change (Prim2SF 0) with (S754_zero false).
  change (Prim2SF 100) with (S754_finite false 7036874417766400 (-46)).
  apply is_nan_Prim2SF in Hnan.
  destruct (Prim2SF a) as [s|s| |s m e] eqn:Ha.
  - exfalso. assert ((a =? 0)%float = true) as Hc
      by (apply eqb_zero_Prim2SF; eauto). congruence.
  - simpl. eauto.
  - congruence.
  - simpl. eauto.
Qed.

Import B64 B64Spec.

Open Scope float_scope.

(** * The placement search in binary64 *)

(** ** [np.arange] *)

Lemma fl_arange_Ok (start stop step : float) (l : list float) :
  arange start stop step = Ok l <->
  exists n, arange_length start stop step = Ok n /\
            l = arange_values start step n.
Proof.
  unfold arange. rewrite bind_Ok. split.
  - intros (n & Hn & Hl). exists n. split; [exact Hn|congruence].
  - intros (n & Hn & ->). exists n. auto.
Qed.

Lemma fl_arange_length_raises (start stop step : float) (e : exn) :
  arange_length start stop step = Raise e ->
  (e = ZeroDivisionError /\ (step =? 0) = true) \/
  (e = ValueError /\ (step =? 0) = false).
Proof.
  unfold arange_length. destruct (step =? 0).
  - intros H. inversion H. auto.
  - destruct (ceiling _) as [n|]; [|intros H; inversion H; auto].
    destruct (n <? intp_min)%Z; [intros H; inversion H; auto|].
    destruct (max_length <? _)%Z; [intros H; inversion H; auto|discriminate].
Qed.

Lemma fl_arange_length_not_Stuck (start stop step : float) :
  arange_length start stop step <> Stuck.
Proof.
  unfold arange_length. destruct (step =? 0); [discriminate|].
  destruct (ceiling _) as [n|]; [|discriminate].
  destruct (n <? intp_min)%Z; [discriminate|].
  destruct (max_length <? _)%Z; discriminate.
Qed.

Lemma fl_arange_length_step (stop step : float) (n : Z) :
  arange_length 0 stop step = Ok n -> (2 <= n)%Z ->
  exists s m e, Prim2SF step = S754_finite s m e.
Proof.
  unfold arange_length. intros H Hn.
  destruct (step =? 0); [discriminate|].
  destruct (ceiling ((stop - 0) / step)) as [n0|] eqn:Hc; [|discriminate].
  destruct (n0 <? intp_min)%Z; [discriminate|].
  destruct (((stop - 0) / step =? 0) && negb (stop - 0 =? 0)).
  - destruct (get_sign _); simpl in H; inversion H; lia.
  - destruct (max_length <? n0)%Z; [discriminate|]. inversion H; subst n0.
    unfold ceiling in Hc.
    destruct (Prim2SF ((stop - 0) / step)) as [s|s| |s m e] eqn:Hv;
      try discriminate.
    + inversion Hc. lia.
    + apply div_finite in Hv. exact Hv.
Qed.

(** The values of a range are numbers. *)
Lemma fl_arange_values_numbers (stop step : float) (n : Z) (x : float) :
  arange_length 0 stop step = Ok n -> x ∈ arange_values 0 step n ->
  is_nan x = false.
Proof.
  intros Hlen Hin. unfold arange_values in Hin.
  apply list_elem_of_fmap in Hin as (i & -> & Hi).
  apply list_elem_of_In, in_seq in Hi.
  destruct i as [|i]; [reflexivity|].
  destruct (fl_arange_length_step stop step n Hlen) as (s & m & e & Hstep);
    [lia|].
  rewrite (add_zero_finite step s m e Hstep).
  destruct i as [|i].
  - apply is_nan_Prim2SF. rewrite Hstep. discriminate.
  - rewrite (sub_zero_finite step s m e Hstep).
    apply add_zero_number. apply (mul_finite_number _ step s m e); [|exact Hstep].
    apply of_uint63_number.
Qed.

Lemma fl_range_values_numbers (stop step x : float) :
  x ∈ range_values stop step -> is_nan x = false.
Proof.
  unfold range_values. destruct (arange 0 stop step) as [l| |] eqn:Hl;
    [|intros H; inversion H|intros H; inversion H].
  apply fl_arange_Ok in Hl as (n & Hn & ->).
  intros Hx. exact (fl_arange_values_numbers _ _ _ _ Hn Hx).
Qed.

(** ** The candidates are numbers *)

Lemma fl_priority_positions_within (sheet : StockSheet.t) (w h : float)
    (p : float * float) :
  p ∈ priority_positions sheet w h -> within sheet w h p = true.
Proof.
  unfold priority_positions. rewrite list_elem_of_In, filter_In.
  intros [_ H]. exact H.
Qed.

Lemma fl_priority_positions_numbers (sheet : StockSheet.t) (w h : float)
    (p : float * float) :
  p ∈ priority_positions sheet w h ->
  is_nan p.1 = false /\ is_nan p.2 = false.
Proof.
  intros Hin. apply fl_priority_positions_within in Hin.
  unfold within in Hin. rewrite !andb_true_iff in Hin.
  destruct Hin as [[[H1 _] H2] _].
  split; apply leb_zero_number; assumption.
Qed.

Lemma fl_grid_positions_elem_of (sheet : StockSheet.t) (step w h : float)
    (p : float * float) :
  p ∈ grid_positions sheet step w h <->
  p.1 ∈ range_values (StockSheet.width sheet - w + step) step /\
  p.2 ∈ range_values (StockSheet.height sheet - h + step) step.
Proof.
  unfold grid_positions. rewrite list_elem_of_In, in_flat_map. split.
  - intros (x & Hx & Hp). apply in_map_iff in Hp as (y & <- & Hy).
    rewrite !list_elem_of_In. auto.
  - intros [Hx Hy]. exists p.1. rewrite <- list_elem_of_In. split; [exact Hx|].
    apply in_map_iff. exists p.2. rewrite <- list_elem_of_In.
    destruct p; auto.
Qed.

Lemma fl_grid_positions_numbers (sheet : StockSheet.t) (step w h : float)
    (p : float * float) :
  p ∈ grid_positions sheet step w h ->
  is_nan p.1 = false /\ is_nan p.2 = false.
Proof.
  rewrite fl_grid_positions_elem_of. intros [Hx Hy].
  split; eapply fl_range_values_numbers; eassumption.
Qed.

Lemma fl_valid_among_elem_of (sheet : StockSheet.t) (w h : float)
    (l : list (float * float)) (p : float * float) :
  p ∈ valid_among sheet w h l <->
  p ∈ l /\ is_valid (StockSheet.used_space sheet) w h p.1 p.2 = true.
Proof.
  unfold valid_among. rewrite !list_elem_of_In. apply filter_In.
Qed.

Lemma fl_examined_in_elem_of (sheet : StockSheet.t) (step : float)
    (found : bool) (w h : float) (rot : bool) (c : candidate) :
  c ∈ examined_in sheet step found (w, h, rot) ->
  c.2 = rot /\ searched sheet w h = true /\
  is_valid (StockSheet.used_space sheet) w h c.1.1 c.1.2 = true /\
  ((c.1.1, c.1.2) ∈ priority_positions sheet w h \/
   (c.1.1, c.1.2) ∈ grid_positions sheet step w h).
Proof.
  unfold examined_in.
  destruct (searched sheet w h); [|intros Hin; inversion Hin].
  assert (Hmap : forall l, c ∈ map (tag rot) (valid_among sheet w h l) ->
            c.2 = rot /\
            is_valid (StockSheet.used_space sheet) w h c.1.1 c.1.2 = true /\
            (c.1.1, c.1.2) ∈ l).
  { intros l Hin. apply list_elem_of_fmap in Hin as ([x y] & -> & Hin).
    apply fl_valid_among_elem_of in Hin as [Hin Hv]. simpl in *. auto. }
  destruct (valid_among sheet w h (priority_positions sheet w h))
    as [|p prio] eqn:Hprio.
  - destruct found.
    + intros Hin. inversion Hin.
    + intros Hin. apply Hmap in Hin as (? & ? & ?). auto.
  - rewrite <- Hprio. intros Hin.
    assert (c ∈ map (tag rot)
              (valid_among sheet w h (priority_positions sheet w h))) as Hin'.
    { destruct found; exact Hin. }
    apply Hmap in Hin' as (? & ? & ?). auto.
Qed.

Lemma fl_examined_elem_of (sheet : StockSheet.t) (step : float)
    (found : bool) (os : list orientation) (c : candidate) :
  c ∈ examined sheet step found os ->
  exists w h, (w, h, c.2) ∈ os /\ searched sheet w h = true /\
    is_valid (StockSheet.used_space sheet) w h c.1.1 c.1.2 = true /\
    ((c.1.1, c.1.2) ∈ priority_positions sheet w h \/
     (c.1.1, c.1.2) ∈ grid_positions sheet step w h).
Proof.
  revert found. induction os as [|[[w h] rot] os IH]; intros found Hin.
  - inversion Hin.
  - cbn [examined] in Hin. apply elem_of_app in Hin as [Hin|Hin].
    + apply fl_examined_in_elem_of in Hin as (<- & Hfit & Hv & Hpos).
      exists w, h. split; [left|]. auto.
    + apply IH in Hin as (w' & h' & Hin & Hrest).
      exists w', h'. split; [right; exact Hin|exact Hrest].
Qed.

Lemma fl_examined_in_comparable (sheet : StockSheet.t) (step : float)
    (found : bool) (o : orientation) :
  Forall comparable (examined_in sheet step found o).
Proof.
  destruct o as [[w h] rot]. rewrite Forall_forall. intros c Hin.
  apply fl_examined_in_elem_of in Hin as (_ & _ & _ & [Hin|Hin]).
  - apply fl_priority_positions_numbers in Hin. exact Hin.
  - apply fl_grid_positions_numbers in Hin. exact Hin.
Qed.

Lemma fl_examined_comparable (sheet : StockSheet.t) (step : float)
    (found : bool) (os : list orientation) :
  Forall comparable (examined sheet step found os).
Proof.
  revert found. induction os as [|o os IH]; intros found; cbn [examined].
  - constructor.
  - apply Forall_app. split; [apply fl_examined_in_comparable|apply IH].
Qed.

(** ** The order on candidates *)

Lemma fl_improves_Some (bx by_ x y : float) (r : bool) :
  improves (Some (bx, by_, r)) x y = true <->
  (y <? by_) = true \/ ((y =? by_) = true /\ (x <? bx) = true).
Proof.
  unfold improves. rewrite orb_true_iff, andb_true_iff. reflexivity.
Qed.

Lemma fl_improves_trans (bx by_ cx cy x y : float) (r r' : bool) :
  improves (Some (bx, by_, r)) cx cy = true ->
  improves (Some (cx, cy, r')) x y = true ->
  improves (Some (bx, by_, r)) x y = true.
Proof.
  rewrite !fl_improves_Some. intros [H1|[H1 H1']] [H2|[H2 H2']].
  - left. float_order.
  - left. float_order.
  - left. float_order.
  - right. split; float_order.
Qed.

Lemma fl_improves_not_trans (bx by_ cx cy x y : float) (r r' : bool) :
  is_nan cx = false -> is_nan cy = false ->
  improves (Some (bx, by_, r)) cx cy = false ->
  improves (Some (bx, by_, r)) x y = true ->
  improves (Some (cx, cy, r')) x y = true.
Proof.
  intros Hcx Hcy H1 H2. rewrite fl_improves_Some in *.
  unfold improves in H1. apply orb_false_iff in H1 as [H1 H1'].
  destruct (cy =? by_) eqn:Heq; simpl in H1'.
  - destruct H2 as [H2|[H2 H2']].
    + left. float_order.
    + right. split; float_order.
  - left. destruct H2 as [H2|[H2 H2']]; float_order.
Qed.

(** ** The running best is the choice among the candidates seen so far *)

Lemma fl_is_best_None_iff (C : list candidate) (b : best) :
  is_best C b -> (b = None <-> C = []).
Proof.
  destruct b as [c|]; simpl.
  - intros (C1 & C2 & -> & _). split; [discriminate|].
    intros H. destruct C1; discriminate.
  - intros ->. split; reflexivity.
Qed.

Lemma fl_is_best_snoc (C : list candidate) (b : best) (x y : float)
    (rot : bool) :
  Forall comparable C -> is_best C b ->
  is_best (C ++ [(x, y, rot)])
          (if improves b x y then Some (x, y, rot) else b).
Proof.
  intros Hnum. destruct b as [[[bx by_] r]|].
  - intros (C1 & C2 & -> & H1 & H2).
    destruct (improves (Some (bx, by_, r)) x y) eqn:Himp.
    + exists (C1 ++ (bx, by_, r) :: C2), []. split; [reflexivity|]. split.
      * intros [[cx cy] cr] Hin. cbn [fst snd].
        apply elem_of_app in Hin as [Hin|Hin].
        { apply (fl_improves_trans cx cy bx by_ x y cr r);
            [apply (H1 _ Hin)|exact Himp]. }
        apply elem_of_cons in Hin as [Heq|Hin].
        { inversion Heq; subst. exact Himp. }
        rewrite Forall_forall in Hnum.
        destruct (Hnum (cx, cy, cr)) as [Hx Hy].
        { apply elem_of_app. right. right. exact Hin. }
        apply (fl_improves_not_trans bx by_ cx cy x y r cr Hx Hy);
          [apply (H2 _ Hin)|exact Himp].
      * intros c' Hin. inversion Hin.
    + exists C1, (C2 ++ [(x, y, rot)]). split.
      { rewrite <- app_assoc. reflexivity. }
      split; [exact H1|].
      intros c' Hin. apply elem_of_app in Hin as [Hin|Hin]; [auto|].
      apply list_elem_of_singleton in Hin. subst c'. exact Himp.
  - intros ->. simpl. exists [], []. split; [reflexivity|].
    split; intros c' Hin; inversion Hin.
Qed.

Lemma fl_foldl_consider_best (sheet : StockSheet.t) (w h : float) (rot : bool)
    (l : list (float * float)) (C : list candidate) (b : best) :
  Forall comparable C ->
  Forall (fun p => is_nan p.1 = false /\ is_nan p.2 = false) l ->
  is_best C b ->
  is_best (C ++ map (tag rot) (valid_among sheet w h l))
    (foldl (fun b p => consider (StockSheet.used_space sheet) w h rot b p.1 p.2)
           b l).
Proof.
  revert C b. induction l as [|p l IH]; intros C b HnumC Hnum HC.
  - simpl. rewrite app_nil_r. exact HC.
  - inversion Hnum as [|? ? Hp Hl]; subst.
    unfold valid_among in *. cbn [foldl List.filter]. unfold consider at 2.
    destruct (is_valid (StockSheet.used_space sheet) w h p.1 p.2) eqn:Hv.
    + cbn [map]. rewrite cons_middle, app_assoc.
      apply IH; [|exact Hl|].
      * apply Forall_app. split; [exact HnumC|]. constructor; [exact Hp|].
        constructor.
      * apply fl_is_best_snoc; assumption.
    + apply IH; assumption.
Qed.

(** ** The fallback scan *)

Lemma fl_grid_rows (used_space : list Rect.t) (w h : float) (rot : bool)
    (xs ys : list float) (b : best) :
  for_each
    (fun b x =>
       Ok (foldl (fun b y => consider used_space w h rot b x y) b ys))
    xs b
  = Ok (foldl (fun b p => consider used_space w h rot b p.1 p.2) b
          (flat_map (fun x => map (fun y => (x, y)) ys) xs)).
Proof.
  revert b. induction xs as [|x xs IH]; intros b.
  - reflexivity.
  - cbn [for_each flat_map mbind result_bind].
    rewrite IH. f_equal. rewrite foldl_app. f_equal.
    clear IH. revert b. induction ys as [|y ys IHy]; intros b; simpl; auto.
Qed.

(** The scan in terms of its two ranges: the inner one is built only if
    the outer one has a value. *)
Lemma fl_grid_scan_unfold (sheet : StockSheet.t) (step w h : float)
    (rot : bool) (b : best) :
  grid_scan sheet step w h rot b
  = match arange 0 (StockSheet.width sheet - w + step) step with
    | Ok [] => Ok b
    | Ok xs =>
        match arange 0 (StockSheet.height sheet - h + step) step with
        | Ok ys =>
            Ok (foldl (fun b p => consider (StockSheet.used_space sheet)
                                    w h rot b p.1 p.2) b
                  (flat_map (fun x => map (fun y => (x, y)) ys) xs))
        | Raise e => Raise e
        | Stuck => Stuck
        end
    | Raise e => Raise e
    | Stuck => Stuck
    end.
Proof.
  unfold grid_scan.
  destruct (arange 0 (StockSheet.width sheet - w + step) step)
    as [[|x xs]| |]; try reflexivity.
  cbn [mbind result_bind].
  destruct (arange 0 (StockSheet.height sheet - h + step) step) as [ys| |].
  - apply (fl_grid_rows (StockSheet.used_space sheet) w h rot (x :: xs) ys b).
  - reflexivity.
  - reflexivity.
Qed.

Lemma fl_grid_scan_Ok (sheet : StockSheet.t) (step w h : float) (rot : bool)
    (b b' : best) :
  grid_scan sheet step w h rot b = Ok b' ->
  b' = foldl
         (fun b p => consider (StockSheet.used_space sheet) w h rot b p.1 p.2)
         b (grid_positions sheet step w h).
Proof.
  rewrite fl_grid_scan_unfold. unfold grid_positions, range_values.
  destruct (arange 0 (StockSheet.width sheet - w + step) step)
    as [[|x xs]| |]; try discriminate.
  - intros H. inversion H. reflexivity.
  - destruct (arange 0 (StockSheet.height sheet - h + step) step) as [ys| |];
      try discriminate.
    intros H. inversion H. reflexivity.
Qed.

(** ** One orientation, then all of them *)

Lemma fl_try_orientation_best (sheet : StockSheet.t) (step : float)
    (C : list candidate) (b b' : best) (o : orientation) :
  Forall comparable C -> is_best C b ->
  try_orientation sheet step b o = Ok b' ->
  is_best (C ++ examined_in sheet step (nonempty C) o) b'.
Proof.
  intros Hnum HC Hrun. destruct o as [[w h] rot].
  unfold try_orientation in Hrun. unfold examined_in, searched.
  destruct ((StockSheet.width sheet <? w) || (StockSheet.height sheet <? h)).
  - cbn [negb]. rewrite app_nil_r. congruence.
  - cbn [negb].
    assert (Forall (fun p => is_nan p.1 = false /\ is_nan p.2 = false)
                   (priority_positions sheet w h)) as Hprionum.
    { rewrite Forall_forall. intros p.
      apply fl_priority_positions_numbers. }
    pose proof (fl_foldl_consider_best sheet w h rot
                  (priority_positions sheet w h) C b Hnum Hprionum HC)
      as Hprio.
    destruct (foldl _ b (priority_positions sheet w h)) as [c|] eqn:Hfold.
    + inversion Hrun; subst b'.
      destruct (valid_among sheet w h (priority_positions sheet w h))
        as [|p prio] eqn:Hva; [|exact Hprio].
      destruct (nonempty C) eqn:HneC; [exact Hprio|].
      exfalso. simpl in Hprio. rewrite app_nil_r in Hprio.
      destruct C; [|discriminate]. simpl in Hprio.
      destruct Hprio as (C1 & C2 & Heq & _). destruct C1; discriminate.
    + apply fl_is_best_None_iff in Hprio as Hnil.
      destruct Hnil as [Hnil _]. specialize (Hnil eq_refl).
      apply app_eq_nil in Hnil as [-> Hnil].
      apply map_eq_nil in Hnil. rewrite Hnil. simpl.
      apply fl_grid_scan_Ok in Hrun. subst b'.
      apply (fl_foldl_consider_best sheet w h rot _ [] None).
      * constructor.
      * rewrite Forall_forall. intros p. apply fl_grid_positions_numbers.
      * reflexivity.
Qed.

Lemma fl_for_each_orientation_best (sheet : StockSheet.t) (step : float)
    (os : list orientation) (C : list candidate) (b b' : best) :
  Forall comparable C -> is_best C b ->
  for_each (try_orientation sheet step) os b = Ok b' ->
  is_best (C ++ examined sheet step (nonempty C) os) b'.
Proof.
  revert C b. induction os as [|o os IH]; intros C b Hnum HC Hrun;
    cbn [for_each examined] in *.
  - rewrite app_nil_r. congruence.
  - apply bind_Ok in Hrun as (b1 & Hone & Hrest).
    pose proof (fl_try_orientation_best sheet step C b b1 o Hnum HC Hone)
      as H1.
    assert (Forall comparable (C ++ examined_in sheet step (nonempty C) o))
      as Hnum1.
    { apply Forall_app. split; [exact Hnum|apply fl_examined_in_comparable]. }
    specialize (IH _ _ Hnum1 H1 Hrest).
    rewrite <- app_assoc in IH.
    replace (nonempty (C ++ examined_in sheet step (nonempty C) o))
      with (nonempty C || nonempty (examined_in sheet step (nonempty C) o))
      in IH; [exact IH|].
    destruct C; simpl; [reflexivity|reflexivity].
Qed.

Lemma fl_find_position_best (sheet : StockSheet.t) (panel : Panel.t)
    (b : best) :
  find_position sheet panel = Ok b ->
  is_best (examined sheet (grid_step sheet panel) false
             (orientations sheet panel)) b.
Proof.
  intros H. unfold find_position in H.
  apply (fl_for_each_orientation_best sheet _ _ [] None b
           (List.Forall_nil _) eq_refl H).
Qed.

(** ** Orientations *)

Lemma fl_orientations_elem_of (sheet : StockSheet.t) (panel : Panel.t)
    (w h : float) (rot : bool) :
  (w, h, rot) ∈ orientations sheet panel ->
  w = placed_w panel rot /\ h = placed_h panel rot.
Proof.
  unfold orientations. rewrite list_sort_elem_of.
  destruct (Panel.width panel =? Panel.height panel); simpl; intros Hin.
  - apply list_elem_of_singleton in Hin. inversion Hin. auto.
  - apply elem_of_cons in Hin as [Hin|Hin].
    + inversion Hin. auto.
    + apply list_elem_of_singleton in Hin. inversion Hin. auto.
Qed.

Lemma fl_orientations_unrotated (sheet : StockSheet.t) (panel : Panel.t) :
  (Panel.width panel, Panel.height panel, false) ∈ orientations sheet panel.
Proof.
  unfold orientations. rewrite list_sort_elem_of. simpl. left.
Qed.

Lemma fl_orientations_rotated (sheet : StockSheet.t) (panel : Panel.t) :
  (Panel.width panel =? Panel.height panel) = false ->
  (Panel.height panel, Panel.width panel, true) ∈ orientations sheet panel.
Proof.
  intros Hne. unfold orientations. rewrite list_sort_elem_of.
  rewrite Hne. simpl. right. left.
Qed.

(** A position returned by [find_position] passes the overlap test
    against every entry of the sheet, for the extent the allocation loop
    gives the panel, and line 42 did not skip that extent. *)
Lemma fl_find_position_valid (sheet : StockSheet.t) (panel : Panel.t)
    (x y : float) (rot : bool) :
  find_position sheet panel = Ok (Some (x, y, rot)) ->
  searched sheet (placed_w panel rot) (placed_h panel rot) = true /\
  is_valid (StockSheet.used_space sheet)
           (placed_w panel rot) (placed_h panel rot) x y = true.
Proof.
  intros H. apply fl_find_position_best in H.
  destruct H as (C1 & C2 & HC & _).
  assert ((x, y, rot) ∈ examined sheet (grid_step sheet panel) false
                          (orientations sheet panel)) as Hin.
  { rewrite HC. apply elem_of_app. right. left. }
  apply fl_examined_elem_of in Hin as (w & h & Ho & Hfit & Hv & _).
  apply fl_orientations_elem_of in Ho as [-> ->]. simpl in *. auto.
Qed.

(** ** When the search succeeds, fails or raises *)

Lemma fl_consider_is_Some (used_space : list Rect.t) (w h : float)
    (rot : bool) (b : best) (x y : float) :
  is_Some b -> is_Some (consider used_space w h rot b x y).
Proof.
  intros Hb. unfold consider.
  destruct (is_valid used_space w h x y); [|exact Hb].
  destruct (improves b x y); [eexists; reflexivity|exact Hb].
Qed.

Lemma fl_foldl_consider_is_Some (used_space : list Rect.t) (w h : float)
    (rot : bool) (l : list (float * float)) (b : best) :
  is_Some b ->
  is_Some (foldl (fun b p => consider used_space w h rot b p.1 p.2) b l).
Proof.
  revert b. induction l as [|p l IH]; intros b Hb; simpl.
  - exact Hb.
  - apply IH. apply fl_consider_is_Some. exact Hb.
Qed.

Lemma fl_try_orientation_is_Some (sheet : StockSheet.t) (step : float)
    (b : best) (o : orientation) :
  is_Some b ->
  exists b', try_orientation sheet step b o = Ok b' /\ is_Some b'.
Proof.
  intros Hb. destruct o as [[w h] rot]. unfold try_orientation.
  destruct ((StockSheet.width sheet <? w) || (StockSheet.height sheet <? h)).
  - exists b. auto.
  - pose proof (fl_foldl_consider_is_Some (StockSheet.used_space sheet) w h rot
                  (priority_positions sheet w h) b Hb) as Hs.
    destruct Hs as [c Hc]. rewrite Hc. exists (Some c). split; [reflexivity|].
    eexists; reflexivity.
Qed.

Lemma fl_for_each_orientation_is_Some (sheet : StockSheet.t) (step : float)
    (os : list orientation) (b : best) :
  is_Some b ->
  exists b', for_each (try_orientation sheet step) os b = Ok b' /\ is_Some b'.
Proof.
  revert b. induction os as [|o os IH]; intros b Hb; simpl.
  - exists b. auto.
  - destruct (fl_try_orientation_is_Some sheet step b o Hb) as (b1 & -> & Hb1).
    simpl. apply IH. exact Hb1.
Qed.

Lemma fl_try_orientation_skipped (sheet : StockSheet.t) (step : float)
    (b : best) (w h : float) (rot : bool) :
  searched sheet w h = false -> try_orientation sheet step b (w, h, rot) = Ok b.
Proof.
  unfold searched, try_orientation. intros Hs.
  apply negb_false_iff in Hs. rewrite Hs. reflexivity.
Qed.

Lemma fl_grid_scan_ok (sheet : StockSheet.t) (step w h : float) (rot : bool)
    (b : best) :
  scan_ok sheet step w h -> exists b', grid_scan sheet step w h rot b = Ok b'.
Proof.
  intros [(nx & Hx) (ny & Hy)]. rewrite fl_grid_scan_unfold.
  unfold arange. rewrite Hx, Hy. cbn [mbind result_bind].
  destruct (arange_values 0 step nx); eexists; reflexivity.
Qed.

Lemma fl_try_orientation_total (sheet : StockSheet.t) (step : float)
    (b : best) (w h : float) (rot : bool) :
  (searched sheet w h = true -> scan_ok sheet step w h) ->
  exists b', try_orientation sheet step b (w, h, rot) = Ok b'.
Proof.
  intros Hscan. destruct (searched sheet w h) eqn:Hs.
  - unfold searched in Hs. apply negb_true_iff in Hs.
    unfold try_orientation. rewrite Hs.
    destruct (foldl _ b (priority_positions sheet w h)) as [c|].
    + eexists; reflexivity.
    + apply fl_grid_scan_ok. apply Hscan. reflexivity.
  - rewrite fl_try_orientation_skipped by exact Hs. eexists; reflexivity.
Qed.

Lemma fl_for_each_orientation_total (sheet : StockSheet.t) (step : float)
    (os : list orientation) (b : best) :
  (forall w h rot, (w, h, rot) ∈ os -> searched sheet w h = true ->
                   scan_ok sheet step w h) ->
  exists b', for_each (try_orientation sheet step) os b = Ok b'.
Proof.
  revert b. induction os as [|[[w h] rot] os IH]; intros b Hscan;
    cbn [for_each].
  - eexists; reflexivity.
  - destruct (fl_try_orientation_total sheet step b w h rot) as (b1 & ->).
    { apply (Hscan w h rot). left. }
    cbn [mbind result_bind]. apply IH.
    intros w' h' rot' Hin. apply (Hscan w' h' rot'). right. exact Hin.
Qed.

(** When the scans can be built the search raises nothing. *)
Lemma fl_find_position_total (sheet : StockSheet.t) (panel : Panel.t) :
  scans_ok sheet panel -> exists b, find_position sheet panel = Ok b.
Proof. intros Hscan. apply fl_for_each_orientation_total. exact Hscan. Qed.

(** What the search raises comes from a range of the scan of an orientation
    that it searched. *)
Lemma fl_grid_scan_Raise (sheet : StockSheet.t) (step w h : float)
    (rot : bool) (b : best) (e : exn) :
  grid_scan sheet step w h rot b = Raise e ->
  arange_length 0 (StockSheet.width sheet - w + step) step = Raise e \/
  arange_length 0 (StockSheet.height sheet - h + step) step = Raise e.
Proof.
  rewrite fl_grid_scan_unfold. unfold arange.
  destruct (arange_length 0 (StockSheet.width sheet - w + step) step)
    as [nx|e'|]; cbn [mbind result_bind].
  - destruct (arange_values 0 step nx); [discriminate|].
    destruct (arange_length 0 (StockSheet.height sheet - h + step) step)
      as [ny|e'|]; cbn [mbind result_bind]; try discriminate.
    intros H. right. congruence.
  - intros H. left. congruence.
  - discriminate.
Qed.

Lemma fl_grid_scan_not_Stuck (sheet : StockSheet.t) (step w h : float)
    (rot : bool) (b : best) :
  grid_scan sheet step w h rot b <> Stuck.
Proof.
  rewrite fl_grid_scan_unfold. unfold arange.
  pose proof (fl_arange_length_not_Stuck 0
                (StockSheet.width sheet - w + step) step) as Hx.
  pose proof (fl_arange_length_not_Stuck 0
                (StockSheet.height sheet - h + step) step) as Hy.
  destruct (arange_length 0 (StockSheet.width sheet - w + step) step)
    as [nx|e'|]; cbn [mbind result_bind]; [|discriminate|contradiction].
  destruct (arange_values 0 step nx); [discriminate|].
  destruct (arange_length 0 (StockSheet.height sheet - h + step) step)
    as [ny|e'|]; cbn [mbind result_bind]; [discriminate|discriminate|].
  contradiction.
Qed.

Lemma fl_for_each_orientation_Raise (sheet : StockSheet.t) (step : float)
    (os : list orientation) (b : best) (e : exn) :
  for_each (try_orientation sheet step) os b = Raise e ->
  exists w h rot, (w, h, rot) ∈ os /\ searched sheet w h = true /\
    (arange_length 0 (StockSheet.width sheet - w + step) step = Raise e \/
     arange_length 0 (StockSheet.height sheet - h + step) step = Raise e).
Proof.
  revert b. induction os as [|[[w h] rot] os IH]; intros b Hrun;
    cbn [for_each] in Hrun.
  - discriminate.
  - destruct (try_orientation sheet step b (w, h, rot)) as [b1|e'|] eqn:Hone;
      cbn [mbind result_bind] in Hrun.
    + apply IH in Hrun as (w' & h' & rot' & Hin & Hrest).
      exists w', h', rot'. split; [right; exact Hin|exact Hrest].
    + inversion Hrun; subst e'. exists w, h, rot. split; [left|].
      unfold try_orientation in Hone. unfold searched.
      destruct ((StockSheet.width sheet <? w) ||
                (StockSheet.height sheet <? h)); [discriminate|].
      split; [reflexivity|].
      destruct (foldl _ b (priority_positions sheet w h)); [discriminate|].
      apply fl_grid_scan_Raise in Hone. exact Hone.
    + discriminate.
Qed.

Lemma fl_for_each_orientation_not_Stuck (sheet : StockSheet.t) (step : float)
    (os : list orientation) (b : best) :
  for_each (try_orientation sheet step) os b <> Stuck.
Proof.
  revert b. induction os as [|[[w h] rot] os IH]; intros b; cbn [for_each].
  - discriminate.
  - destruct (try_orientation sheet step b (w, h, rot)) as [b1|e'|] eqn:Hone;
      cbn [mbind result_bind].
    + apply IH.
    + discriminate.
    + exfalso. unfold try_orientation in Hone.
      destruct ((StockSheet.width sheet <? w) ||
                (StockSheet.height sheet <? h)); [discriminate|].
      destruct (foldl _ b (priority_positions sheet w h)); [discriminate|].
      apply fl_grid_scan_not_Stuck in Hone. exact Hone.
Qed.

Lemma fl_find_position_not_Stuck (sheet : StockSheet.t) (panel : Panel.t) :
  find_position sheet panel <> Stuck.
Proof. apply fl_for_each_orientation_not_Stuck. Qed.

(** A panel whose two orientations are skipped gets no position, whatever
    the sheet holds. *)
Lemma fl_find_position_skipped (sheet : StockSheet.t) (panel : Panel.t) :
  searched sheet (Panel.width panel) (Panel.height panel) = false ->
  searched sheet (Panel.height panel) (Panel.width panel) = false ->
  find_position sheet panel = Ok None.
Proof.
  intros H1 H2. unfold find_position.
  assert (forall os,
            (forall w h rot, (w, h, rot) ∈ os -> searched sheet w h = false) ->
            for_each (try_orientation sheet (grid_step sheet panel)) os None
            = Ok None) as Hskip.
  { induction os as [|[[w h] rot] os IH]; intros Hos; cbn [for_each].
    - reflexivity.
    - rewrite fl_try_orientation_skipped by (apply (Hos w h rot); left).
      simpl. apply IH. intros w' h' rot' Hin. apply (Hos w' h' rot').
      right. exact Hin. }
  apply Hskip. intros w h rot Hin.
  apply fl_orientations_elem_of in Hin as [-> ->].
  destruct rot; simpl; assumption.
Qed.

(** On an empty sheet, an orientation that is searched and whose origin
    passes the filter gives a position. *)
Lemma fl_try_orientation_empty (sheet : StockSheet.t) (step : float)
    (b : best) (w h : float) (rot : bool) :
  StockSheet.used_space sheet = [] ->
  searched sheet w h = true -> origin_within sheet w h ->
  exists b', try_orientation sheet step b (w, h, rot) = Ok b' /\ is_Some b'.
Proof.
  intros Hused Hs Horigin. unfold try_orientation.
  unfold searched in Hs. apply negb_true_iff in Hs. rewrite Hs.
  unfold priority_positions. cbn [app List.filter].
  unfold origin_within in Horigin. rewrite Horigin. cbn [foldl].
  assert (is_Some (consider (StockSheet.used_space sheet) w h rot b
                     (0, 0).1 (0, 0).2)) as Hsome.
  { unfold consider. rewrite Hused. simpl.
    destruct b as [[[bx by_] r]|]; [|eexists; reflexivity].
    destruct (improves _ _ _); eexists; reflexivity. }
  match goal with
  | |- context [foldl _ _ ?l] =>
      pose proof (fl_foldl_consider_is_Some (StockSheet.used_space sheet)
                    w h rot l _ Hsome) as [c Hc]
  end.
  rewrite Hc. exists (Some c). split; [reflexivity|eexists; reflexivity].
Qed.

Lemma fl_for_each_orientation_empty (sheet : StockSheet.t) (step : float)
    (os : list orientation) (b : best) :
  StockSheet.used_space sheet = [] ->
  (forall w h rot, (w, h, rot) ∈ os -> searched sheet w h = true ->
                   origin_within sheet w h) ->
  (exists w h rot, (w, h, rot) ∈ os /\ searched sheet w h = true) ->
  exists b', for_each (try_orientation sheet step) os b = Ok b' /\ is_Some b'.
Proof.
  intros Hused. revert b.
  induction os as [|[[w h] rot] os IH];
    intros b Horigin (w' & h' & rot' & Hin & Hs).
  - inversion Hin.
  - cbn [for_each]. destruct (searched sheet w h) eqn:Hhere.
    + destruct (fl_try_orientation_empty sheet step b w h rot Hused Hhere)
        as (b1 & -> & Hb1).
      { apply (Horigin w h rot); [left|exact Hhere]. }
      simpl. apply fl_for_each_orientation_is_Some. exact Hb1.
    + rewrite fl_try_orientation_skipped by exact Hhere. simpl. apply IH.
      * intros w1 h1 rot1 Hin1. apply (Horigin w1 h1 rot1). right. exact Hin1.
      * apply elem_of_cons in Hin as [Heq|Hin].
        { inversion Heq; subst. congruence. }
        exists w', h', rot'. auto.
Qed.

(** ** The least of the four sides *)

Lemma fl_py_min_spec (a b : float) :
  (py_min a b = a /\ (b <? a) = false) \/
  (py_min a b = b /\ (b <? a) = true).
Proof. unfold py_min. destruct (b <? a); auto. Qed.

(** None of the values is below the least, as Python computes it. *)
Lemma fl_py_min_least (a b c : float) :
  (c <? a) = false -> (c <? b) = false -> (c <? py_min a b) = false.
Proof. intros Ha Hb. unfold py_min. destruct (b <? a); assumption. Qed.

Lemma fl_py_min_le (a b : float) :
  (a <? py_min a b) = false /\ (b <? py_min a b) = false.
Proof.
  destruct (fl_py_min_spec a b) as [[-> H]|[-> H]].
  - split; [apply ltb_irrefl|exact H].
  - split; [float_order|apply ltb_irrefl].
Qed.

Lemma fl_py_min_le_trans (a b c : float) :
  (c <? a) = false -> (c <? py_min a b) = false.
Proof.
  intros Ha. destruct (fl_py_min_spec a b) as [[-> H]|[-> H]];
    [exact Ha|].
  destruct (c <? b) eqn:E; [|reflexivity]. exfalso.
  assert ((c <? a) = true) by float_order. congruence.
Qed.

(** ** The coordinates of the grid *)

Lemma fl_arange_values_grid (stop step : float) (n : Z) :
  arange_length 0 stop step = Ok n ->
  arange_values 0 step n = map (grid_coordinate step) (seq 0 (Z.to_nat n)).
Proof.
  intros Hlen. unfold arange_values. apply map_ext_in. intros i Hi.
  apply in_seq in Hi. destruct i as [|[|i]]; [reflexivity| |].
  - destruct (fl_arange_length_step stop step n Hlen) as (s & m & e & Hstep);
      [lia|].
    apply (add_zero_finite step s m e Hstep).
  - destruct (fl_arange_length_step stop step n Hlen) as (s & m & e & Hstep);
      [lia|].
    cbn [grid_coordinate].
    rewrite (add_zero_finite step s m e Hstep).
    rewrite (sub_zero_finite step s m e Hstep). reflexivity.
Qed.

Lemma fl_range_values_elem_of (stop step x : float) :
  x ∈ range_values stop step <->
  exists n i, arange_length 0 stop step = Ok n /\ (Z.of_nat i < n)%Z /\
              x = grid_coordinate step i.
Proof.
  unfold range_values, arange.
  destruct (arange_length 0 stop step) as [n| |] eqn:Hlen;
    cbn [mbind result_bind].
  - rewrite (fl_arange_values_grid stop step n Hlen).
    rewrite list_elem_of_fmap. split.
    + intros (i & -> & Hi). apply list_elem_of_In, in_seq in Hi.
      exists n, i. split; [reflexivity|]. split; [lia|reflexivity].
    + intros (n' & i & Hn & Hi & ->). inversion Hn; subst n'.
      exists i. split; [reflexivity|]. apply list_elem_of_In, in_seq. lia.
  - split; [intros H; inversion H|]. intros (n & i & Hn & _). discriminate.
  - split; [intros H; inversion H|]. intros (n & i & Hn & _). discriminate.
Qed.

(** When nothing is found, no orientation has a candidate. *)
Lemma fl_examined_nil (sheet : StockSheet.t) (step : float)
    (os : list orientation) (o : orientation) :
  examined sheet step false os = [] -> o ∈ os ->
  examined_in sheet step false o = [].
Proof.
  induction os as [|o' os IH]; intros Hnil Hin; [inversion Hin|].
  cbn [examined] in Hnil. apply app_eq_nil in Hnil as [Hhere Hrest].
  rewrite Hhere in Hrest. cbn [nonempty orb] in Hrest.
  apply elem_of_cons in Hin as [-> |Hin]; [exact Hhere|auto].
Qed.

(** * The allocation loop in binary64 *)

(** ** One turn *)

Lemma fl_deref_Ok (σ : heap) (r : ref) (p : Panel.t) :
  deref σ r = Ok p <-> σ !! r = Some p.
Proof.
  unfold deref. destruct (σ !! r) as [q|]; split; intros H;
    try discriminate; congruence.
Qed.

Lemma fl_add_used_entry (sheet : StockSheet.t) (panel : Panel.t) (r : ref)
    (c : candidate) :
  add_used sheet panel r c.1.1 c.1.2 c.2 = with_entry sheet (entry panel r c).
Proof. destruct c as [[x y] [|]]; reflexivity. Qed.

Lemma fl_try_sheets_Some (sheets : list StockSheet.t) (panel : Panel.t)
    (r : ref) (σ : heap) (sheets' : list StockSheet.t) (σ' : heap) :
  try_sheets sheets panel r σ = Ok (Some (sheets', σ')) ->
  exists i sheet c, first_fit sheets panel i c /\ sheets !! i = Some sheet /\
    sheets' = <[i := with_entry sheet (entry panel r c)]> sheets /\
    σ' = <[r := placed panel c]> σ.
Proof.
  revert sheets'. induction sheets as [|sheet sheets IH]; intros sheets' Hrun.
  - discriminate.
  - cbn [try_sheets] in Hrun. apply bind_Ok in Hrun as (found & Hfind & Hrun).
    destruct found as [[[x y] rot]|].
    + inversion Hrun; subst. exists 0%nat, sheet, (x, y, rot).
      split; [|split; [reflexivity|split; reflexivity]].
      split; [exists sheet; auto|]. intros j s Hj. lia.
    + apply bind_Ok in Hrun as (res & Hrest & Hrun).
      destruct res as [[sheets1 σ1]|]; [|discriminate].
      inversion Hrun; subst.
      destruct (IH _ Hrest)
        as (i & s & c & [(s' & Hs' & Hc) Hbefore] & Hs & -> & Hσ).
      exists (S i), s, c. split; [|split; [exact Hs|split; [reflexivity|exact Hσ]]].
      split; [exists s'; auto|]. intros [|j] s0 Hj Hs0.
      { inversion Hs0; subst. exact Hfind. }
      apply (Hbefore j s0); [lia|exact Hs0].
Qed.

Lemma fl_try_sheets_None (sheets : list StockSheet.t) (panel : Panel.t)
    (r : ref) (σ : heap) :
  try_sheets sheets panel r σ = Ok None <-> all_reject sheets panel.
Proof.
  unfold all_reject. induction sheets as [|sheet sheets IH]; cbn [try_sheets].
  - split; [constructor|reflexivity].
  - split.
    + intros Hrun. apply bind_Ok in Hrun as (found & Hfind & Hrun).
      destruct found as [[[x y] rot]|]; [discriminate|].
      apply bind_Ok in Hrun as (res & Hrest & Hrun).
      destruct res as [[sheets1 σ1]|]; [discriminate|].
      constructor; [exact Hfind|]. apply IH. exact Hrest.
    + intros Hall. inversion Hall as [|s l Hs Hl]; subst.
      rewrite Hs. cbn [mbind result_bind].
      apply IH in Hl. rewrite Hl. reflexivity.
Qed.

Lemma fl_try_sheets_first_fit (sheets : list StockSheet.t) (panel : Panel.t)
    (r : ref) (σ : heap) (i : nat) (sheet : StockSheet.t) (c : candidate) :
  first_fit sheets panel i c -> sheets !! i = Some sheet ->
  try_sheets sheets panel r σ
  = Ok (Some (<[i := with_entry sheet (entry panel r c)]> sheets,
              <[r := placed panel c]> σ)).
Proof.
  revert i. induction sheets as [|s0 sheets IH];
    intros i [(s & Hs & Hc) Hbefore] Hi.
  - discriminate.
  - cbn [try_sheets]. destruct i as [|i].
    + inversion Hs; subst. inversion Hi; subst. rewrite Hc.
      destruct c as [[x y] rot]. reflexivity.
    + rewrite (Hbefore 0%nat s0) by (lia || reflexivity).
      cbn [mbind result_bind]. rewrite (IH i).
      * reflexivity.
      * split; [exists s; auto|]. intros j s' Hj Hs'.
        apply (Hbefore (S j) s'); [lia|exact Hs'].
      * exact Hi.
Qed.

(** What a turn does: it returns exactly when the head panel has a
    placement, which it records in the sheet list and in the object; the
    panel leaves the queue when its quantity reaches zero. *)
Lemma fl_loop_body_Ok (W H : float) (sheets : list StockSheet.t) (r : ref)
    (rem : list ref) (σ : heap) (panel : Panel.t) (st' : state) :
  σ !! r = Some panel ->
  loop_body W H sheets r rem σ = Ok st' <->
  exists c sheets',
    placement W H sheets panel r c sheets' /\
    st' = (sheets',
           if bool_decide (Panel.quantity panel - 1 = 0)%Z
           then tail rem else rem,
           <[r := placed panel c]> σ).
Proof.
  intros Hp. unfold loop_body. rewrite (proj2 (fl_deref_Ok σ r panel) Hp).
  cbn [mbind result_bind].
  assert (forall c, deref (<[r := placed panel c]> σ) r = Ok (placed panel c))
    as Hderef.
  { intros c. apply fl_deref_Ok. apply list_lookup_insert_eq.
    eapply lookup_lt_Some. exact Hp. }
  split.
  - intros Hrun. apply bind_Ok in Hrun as (res & Htry & Hrun).
    apply bind_Ok in Hrun as ([sheets1 σ1] & Hplace & Hrun).
    assert (exists c, placement W H sheets panel r c sheets1 /\
                      σ1 = <[r := placed panel c]> σ) as (c & Hpl & ->).
    { destruct res as [[sheets2 σ2]|].
      - inversion Hplace; subst.
        apply fl_try_sheets_Some in Htry as (i & s & c & Hff & Hs & -> & ->).
        exists c. split; [|reflexivity]. left. exists i, s. auto.
      - apply fl_try_sheets_None in Htry. unfold place_on_new_sheet in Hplace.
        apply bind_Ok in Hplace as (found & Hfind & Hplace).
        destruct found as [[[x y] rot]|]; [|discriminate].
        inversion Hplace; subst. exists (x, y, rot). split; [|reflexivity].
        right. split; [exact Htry|]. split; [exact Hfind|]. reflexivity. }
    rewrite Hderef in Hrun. cbn [mbind result_bind placed Panel.quantity] in Hrun.
    exists c, sheets1. split; [exact Hpl|].
    case_bool_decide; inversion Hrun; reflexivity.
  - intros (c & sheets' & Hpl & ->).
    destruct Hpl as [(i & s & Hff & Hs & ->)|(Hall & Hfind & ->)].
    + rewrite (fl_try_sheets_first_fit sheets panel r σ i s c Hff Hs).
      cbn [mbind result_bind]. rewrite Hderef.
      cbn [mbind result_bind placed Panel.quantity].
      case_bool_decide; reflexivity.
    + rewrite (proj2 (fl_try_sheets_None sheets panel r σ) Hall).
      cbn [mbind result_bind]. unfold place_on_new_sheet. rewrite Hfind.
      destruct c as [[x y] rot]. cbn [mbind result_bind].
      change (mark_placed panel x y rot) with (placed panel (x, y, rot)).
      rewrite Hderef. cbn [mbind result_bind placed Panel.quantity].
      case_bool_decide; reflexivity.
Qed.

(** ** The queue *)

Lemma fl_queue_ok_tail (σ : heap) (r : ref) (rem : list ref) (p : Panel.t) :
  queue_ok σ (r :: rem) -> queue_ok (<[r := p]> σ) rem.
Proof.
  intros [Hnd Hall]. inversion Hnd as [|r0 l Hnotin Hnd']; subst.
  inversion Hall as [|r0 l _ Hall']; subst. split; [exact Hnd'|].
  rewrite Forall_forall in *. intros r' Hin.
  destruct (Hall' r' Hin) as (p' & Hp' & Hq). exists p'. split; [|exact Hq].
  rewrite list_lookup_insert_ne; [exact Hp'|].
  intros ->. apply Hnotin. exact Hin.
Qed.

(** ** The loop runs the turns of the queue *)

Lemma fl_while_remaining_turns (W H : float) (fuel : nat)
    (sheets : list StockSheet.t) (rem : list ref) (σ : heap) (st' : state) :
  queue_ok σ rem ->
  while_remaining fuel W H (sheets, rem, σ) = Ok st' ->
  st'.1.2 = [] /\ turns W H (sheets, σ) rem (st'.1.1, st'.2).
Proof.
  revert sheets rem σ. induction fuel as [|fuel IH]; intros sheets rem σ Hq Hrun.
  - destruct rem as [|r rem]; simpl in Hrun; [|discriminate].
    inversion Hrun; subst. split; [reflexivity|constructor].
  - destruct rem as [|r rem]; cbn [while_remaining] in Hrun.
    + inversion Hrun; subst. split; [reflexivity|constructor].
    + apply bind_Ok in Hrun as (st1 & Hbody & Hrun).
      destruct Hq as [Hnd Hall]. inversion Hall as [|r0 l Hr _]; subst.
      destruct Hr as (panel & Hp & Hone).
      apply (fl_loop_body_Ok W H sheets r (r :: rem) σ panel st1 Hp) in Hbody
        as (c & sheets1 & Hpl & ->).
      rewrite Hone in Hrun. cbn [tail] in Hrun.
      rewrite bool_decide_eq_true_2 in Hrun by reflexivity.
      apply IH in Hrun as [Hnil Hturns].
      * split; [exact Hnil|]. econstructor; eassumption.
      * apply fl_queue_ok_tail. split; assumption.
Qed.

(** ** What the turns keep *)

Lemma fl_placement_Forall (P : StockSheet.t -> Prop) (W H : float)
    (sheets : list StockSheet.t) (panel : Panel.t) (r : ref) (c : candidate)
    (sheets' : list StockSheet.t) :
  (forall sheet, find_position sheet panel = Ok (Some c) ->
                 (sheet ∈ sheets /\ P sheet \/ sheet = new_StockSheet W H) ->
                 P (with_entry sheet (entry panel r c))) ->
  Forall P sheets -> placement W H sheets panel r c sheets' ->
  Forall P sheets'.
Proof.
  intros Hnew Hall [(i & s & [(s' & Hs' & Hc) _] & Hs & ->)|(_ & Hfind & ->)].
  - apply Forall_insert; [exact Hall|].
    rewrite Hs in Hs'. inversion Hs'; subst s'.
    apply Hnew; [exact Hc|]. left.
    assert (s ∈ sheets) as Hin by (eapply list_elem_of_lookup_2; exact Hs).
    split; [exact Hin|]. rewrite Forall_forall in Hall. apply Hall, Hin.
  - apply Forall_app. split; [exact Hall|].
    constructor; [|constructor]. apply Hnew; [exact Hfind|]. right. reflexivity.
Qed.

Lemma fl_turns_Forall (P : StockSheet.t -> Prop) (W H : float)
    (st : list StockSheet.t * heap) (queue : list ref)
    (st' : list StockSheet.t * heap) :
  (forall sheet panel r c,
     find_position sheet panel = Ok (Some c) ->
     (P sheet \/ sheet = new_StockSheet W H) ->
     P (with_entry sheet (entry panel r c))) ->
  turns W H st queue st' -> Forall P st.1 -> Forall P st'.1.
Proof.
  intros Hnew Hturns. induction Hturns as [st|sheets σ r queue panel c sheets1
    st' Hp Hpl Hturns IH]; intros Hall.
  - exact Hall.
  - apply IH. cbn [fst].
    apply (fl_placement_Forall P W H sheets panel r c sheets1); [|exact Hall|
      exact Hpl].
    intros sheet Hfind [[_ HP]|Heq]; apply (Hnew sheet panel r c Hfind); auto.
Qed.

Lemma fl_turns_stock_sized (W H : float) (st : list StockSheet.t * heap)
    (queue : list ref) (st' : list StockSheet.t * heap) :
  turns W H st queue st' ->
  Forall (stock_sized W H) st.1 -> Forall (stock_sized W H) st'.1.
Proof.
  apply fl_turns_Forall. intros sheet panel r c _ [Hs| ->].
  - exact Hs.
  - split; reflexivity.
Qed.

Lemma fl_is_valid_Forall (used_space : list Rect.t) (w h x y : float) :
  is_valid used_space w h x y = true <->
  Forall (fun u => apart x y w h u = true) used_space.
Proof.
  unfold is_valid. rewrite forallb_forall, Forall_forall.
  split; intros H u Hin.
  - apply list_elem_of_In in Hin. apply H in Hin. exact Hin.
  - apply list_elem_of_In in Hin. auto.
Qed.

Lemma fl_rect_apart_sym (u v : Rect.t) : rect_apart u v = rect_apart v u.
Proof.
  unfold rect_apart, apart.
  destruct (Rect.x u + Rect.w u <=? Rect.x v),
    (Rect.x v + Rect.w v <=? Rect.x u),
    (Rect.y u + Rect.h u <=? Rect.y v),
    (Rect.y v + Rect.h v <=? Rect.y u); reflexivity.
Qed.

Lemma fl_pairwise_apart_nil : pairwise_apart [].
Proof. intros i j u v _ H. inversion H. Qed.

Lemma fl_pairwise_apart_snoc (l : list Rect.t) (v : Rect.t) :
  pairwise_apart l -> Forall (fun u => rect_apart v u = true) l ->
  pairwise_apart (l ++ [v]).
Proof.
  intros Hl Hv i j u v' Hij Hi Hj.
  assert (j < length (l ++ [v]))%nat as Hlen by (eapply lookup_lt_Some; eauto).
  rewrite length_app in Hlen. simpl in Hlen.
  rewrite lookup_app_l in Hi by lia.
  destruct (decide (j < length l)%nat) as [Hjl|Hjl].
  - rewrite lookup_app_l in Hj by lia. exact (Hl i j u v' Hij Hi Hj).
  - rewrite lookup_app_r in Hj by lia.
    replace (j - length l)%nat with 0%nat in Hj by lia.
    inversion Hj; subst v'.
    rewrite Forall_forall in Hv. apply Hv.
    eapply list_elem_of_lookup_2. exact Hi.
Qed.

Lemma fl_pairwise_apart_any (l : list Rect.t) (i j : nat) (u v : Rect.t) :
  pairwise_apart l -> i <> j -> l !! i = Some u -> l !! j = Some v ->
  rect_apart u v = true.
Proof.
  intros Hl Hij Hi Hj. destruct (decide (i < j)%nat) as [Hlt|Hge].
  - rewrite fl_rect_apart_sym. exact (Hl i j u v Hlt Hi Hj).
  - apply (Hl j i v u); [lia|exact Hj|exact Hi].
Qed.

Lemma fl_turns_apart (W H : float) (st : list StockSheet.t * heap)
    (queue : list ref) (st' : list StockSheet.t * heap) :
  turns W H st queue st' ->
  Forall (fun s => pairwise_apart (StockSheet.used_space s)) st.1 ->
  Forall (fun s => pairwise_apart (StockSheet.used_space s)) st'.1.
Proof.
  apply (fl_turns_Forall (fun s => pairwise_apart (StockSheet.used_space s))).
  intros sheet panel r [[x y] rot] Hfind Hsheet.
  assert (pairwise_apart (StockSheet.used_space sheet)) as Hap.
  { destruct Hsheet as [Hs| ->]; [exact Hs|apply fl_pairwise_apart_nil]. }
  apply fl_find_position_valid in Hfind as [_ Hv].
  apply fl_is_valid_Forall in Hv.
  cbn [with_entry StockSheet.used_space].
  apply fl_pairwise_apart_snoc; [exact Hap|exact Hv].
Qed.

Lemma fl_placed_refs_app (l1 l2 : list StockSheet.t) :
  placed_refs (l1 ++ l2) = placed_refs l1 ++ placed_refs l2.
Proof. unfold placed_refs. apply flat_map_app. Qed.

Lemma fl_placed_refs_insert (sheets : list StockSheet.t) (i : nat)
    (s : StockSheet.t) (u : Rect.t) :
  sheets !! i = Some s ->
  placed_refs (<[i := with_entry s u]> sheets)
  ≡ₚ placed_refs sheets ++ [Rect.panel u].
Proof.
  revert i. induction sheets as [|s0 sheets IH]; intros i Hi.
  - discriminate.
  - destruct i as [|i].
    + inversion Hi; subst s0. cbn [insert list_insert].
      unfold placed_refs. cbn [flat_map with_entry StockSheet.used_space].
      rewrite map_app. cbn [map]. rewrite <- !app_assoc.
      apply Permutation_app_head. apply Permutation_app_comm.
    + cbn [insert list_insert]. unfold placed_refs in *. cbn [flat_map].
      rewrite (IH i Hi). rewrite app_assoc. reflexivity.
Qed.

Lemma fl_turns_placed_refs (W H : float) (st : list StockSheet.t * heap)
    (queue : list ref) (st' : list StockSheet.t * heap) :
  turns W H st queue st' -> placed_refs st'.1 ≡ₚ placed_refs st.1 ++ queue.
Proof.
  intros Hturns. induction Hturns as [st|sheets σ r queue panel c sheets1
    st' Hp Hpl Hturns IH].
  - rewrite app_nil_r. reflexivity.
  - rewrite IH. cbn [fst].
    destruct Hpl as [(i & s & _ & Hs & ->)|(_ & _ & ->)].
    + rewrite (fl_placed_refs_insert sheets i s _ Hs).
      rewrite <- app_assoc. reflexivity.
    + rewrite fl_placed_refs_app. rewrite <- app_assoc. reflexivity.
Qed.

(** ** The copy loop and the sort *)

Lemma fl_panels_in_app (σ τ : heap) (panels : list ref)
    (specs : list Panel.t) :
  panels_in σ panels specs -> panels_in (σ ++ τ) panels specs.
Proof.
  unfold panels_in. intros H. induction H as [|r p l l' Hr _ IH].
  - constructor.
  - constructor; [|exact IH]. apply lookup_app_l_Some. exact Hr.
Qed.

Lemma fl_copy_panels_Ok (σ : heap) (panels : list ref)
    (specs : list Panel.t) (acc : list ref) :
  panels_in σ panels specs ->
  copy_panels panels acc σ
  = Ok (acc ++ seq (length σ) (length (expansion specs)),
        σ ++ expansion specs).
Proof.
  intros H. revert panels acc σ H.
  induction specs as [|spec specs IH]; intros panels acc σ H;
    inversion H as [|r p l l' Hr Hl]; subst.
  - simpl. rewrite !app_nil_r. reflexivity.
  - cbn [copy_panels]. rewrite (proj2 (fl_deref_Ok σ _ spec)) by assumption.
    cbn [mbind result_bind].
    rewrite (IH _ _ _ (fl_panels_in_app _ _ _ _ Hl)).
    unfold expansion. cbn [flat_map]. fold (copies_of spec).
    rewrite !length_app, seq_app, <- !app_assoc.
    assert (length (copies_of spec) = Z.to_nat (Panel.quantity spec)) as ->
      by apply length_replicate.
    reflexivity.
Qed.

Lemma fl_panels_in_fresh (σ : heap) (instances : list Panel.t) :
  panels_in (σ ++ instances) (seq (length σ) (length instances)) instances.
Proof.
  unfold panels_in. revert σ.
  induction instances as [|p l IH]; intros σ; simpl.
  - constructor.
  - constructor.
    + rewrite lookup_app_r by lia. rewrite Nat.sub_diag. reflexivity.
    + specialize (IH (σ ++ [p])). rewrite length_app in IH. simpl in IH.
      rewrite <- app_assoc in IH. simpl in IH.
      replace (S (length σ)) with (length σ + 1)%nat by lia. exact IH.
Qed.

Lemma fl_sort_panels_Ok (σ : heap) (refs : list ref)
    (instances : list Panel.t) :
  panels_in σ refs instances ->
  exists queue, sort_panels refs σ = Ok queue /\ queue ≡ₚ refs.
Proof.
  intros Hin. unfold sort_panels.
  assert (exists keyed,
            map_each (fun r => p ← deref σ r; Ok (panel_key p, r)) refs
            = Ok keyed /\ map snd keyed = refs) as (keyed & -> & Hsnd).
  { induction Hin as [|r p l l' Hr _ (keyed & IH & Hsnd)].
    - exists []. auto.
    - exists ((panel_key p, r) :: keyed). cbn [map_each].
      rewrite (proj2 (fl_deref_Ok σ r p) Hr). cbn [mbind result_bind].
      rewrite IH. cbn [mbind result_bind map snd]. rewrite Hsnd. auto. }
  cbn [mbind result_bind]. eexists. split; [reflexivity|].
  rewrite list_sort_perm. rewrite Hsnd. reflexivity.
Qed.

Lemma fl_expansion_elem_of (specs : list Panel.t) (p : Panel.t) :
  p ∈ expansion specs <->
  exists spec, spec ∈ specs /\ (1 <= Panel.quantity spec)%Z /\
    p = new_Panel (Panel.width spec) (Panel.height spec) 1.
Proof.
  unfold expansion. rewrite list_elem_of_In, in_flat_map. split.
  - intros (spec & Hs & Hin). apply list_elem_of_In in Hin.
    unfold copies_of in Hin. apply elem_of_replicate in Hin as [-> Hn].
    exists spec. rewrite list_elem_of_In. split; [exact Hs|]. split; [lia|].
    reflexivity.
  - intros (spec & Hs & Hq & ->). exists spec.
    rewrite <- !list_elem_of_In. split; [exact Hs|].
    unfold copies_of. apply elem_of_replicate. split; [reflexivity|lia].
Qed.

(** The queue after the copy loop and the sort: the fresh references in
    some order, each designating an instance of quantity 1. *)
Lemma fl_queue_ok_fresh (σ : heap) (specs : list Panel.t) (queue : list ref) :
  queue ≡ₚ seq (length σ) (length (expansion specs)) ->
  queue_ok (σ ++ expansion specs) queue /\
  Forall (fun r => exists p, (σ ++ expansion specs) !! r = Some p /\
                             p ∈ expansion specs) queue.
Proof.
  intros Hperm.
  assert (Forall (fun r => exists p, (σ ++ expansion specs) !! r = Some p /\
                                     p ∈ expansion specs)
                 (seq (length σ) (length (expansion specs)))) as Hall.
  { rewrite Forall_forall. intros r Hr.
    apply list_elem_of_In, in_seq in Hr.
    destruct (lookup_lt_is_Some_2 (expansion specs) (r - length σ)) as [p Hp];
      [lia|].
    exists p. split.
    - rewrite lookup_app_r by lia. exact Hp.
    - eapply list_elem_of_lookup_2. exact Hp. }
  rewrite <- Hperm in Hall. split; [|exact Hall].
  split.
  - rewrite Hperm. apply NoDup_seq.
  - rewrite Forall_forall in *. intros r Hr.
    destruct (Hall r Hr) as (p & Hp & Hin). exists p. split; [exact Hp|].
    apply fl_expansion_elem_of in Hin as (spec & _ & _ & ->). reflexivity.
Qed.

(** ** The efficiency pass and the whole run *)

Lemma fl_map_each_set_efficiency (sheets sheets' : list StockSheet.t) :
  map_each set_efficiency sheets = Ok sheets' -> same_layout sheets sheets'.
Proof.
  revert sheets'. induction sheets as [|s sheets IH]; intros sheets' Hrun.
  - inversion Hrun. constructor.
  - cbn [map_each] in Hrun. apply bind_Ok in Hrun as (s' & Hs & Hrun).
    apply bind_Ok in Hrun as (rest & Hrest & Hrun). inversion Hrun; subst.
    constructor; [|apply IH; exact Hrest].
    unfold set_efficiency in Hs.
    destruct (StockSheet.width s * StockSheet.height s =? 0); [discriminate|].
    inversion Hs; subst. simpl. auto.
Qed.

Lemma fl_map_each_set_efficiency_stock (W H : float)
    (sheets : list StockSheet.t) :
  Forall (stock_sized W H) sheets ->
  map_each set_efficiency sheets
  = if W * H =? 0
    then match sheets with [] => Ok [] | _ => Raise ZeroDivisionError end
    else Ok (map (fun s => StockSheet.mk W H (StockSheet.used_space s)
                             (used_area s / (W * H) * 100)) sheets).
Proof.
  intros Hall. induction Hall as [|s l [Hw Hh] _ IH].
  - destruct (W * H =? 0); reflexivity.
  - destruct s as [W' H' used eff]. cbn [StockSheet.width StockSheet.height]
      in Hw, Hh. subst W' H'. cbn [map_each]. rewrite IH.
    unfold set_efficiency. cbn [StockSheet.width StockSheet.height].
    destruct (W * H =? 0) eqn:Hz; reflexivity.
Qed.

Lemma fl_optimize_layout_Ok (W H : float) (panels : list ref) (σ : heap)
    (sheets : list StockSheet.t) (σ' : heap) :
  optimize_layout W H panels σ = Ok (sheets, σ') <->
  exists panels_copy σ1 sorted sheets0 rem0,
    copy_panels panels [] σ = Ok (panels_copy, σ1) /\
    sort_panels panels_copy σ1 = Ok sorted /\
    while_remaining (length sorted) W H ([new_StockSheet W H], sorted, σ1)
    = Ok (sheets0, rem0, σ') /\
    map_each set_efficiency sheets0 = Ok sheets.
Proof.
  unfold optimize_layout. split.
  - intros Hrun.
    apply bind_Ok in Hrun as ([panels_copy σ1] & Hcopy & Hrun).
    apply bind_Ok in Hrun as (sorted & Hsort & Hrun).
    apply bind_Ok in Hrun as ([[sheets0 rem0] σ2] & Hloop & Hrun).
    apply bind_Ok in Hrun as (sheets1 & Heff & Hrun).
    inversion Hrun; subst. eexists _, _, _, _, _. eauto.
  - intros (panels_copy & σ1 & sorted & sheets0 & rem0 & -> & Hsort & Hloop
            & Heff).
    cbn [mbind result_bind]. rewrite Hsort. cbn [mbind result_bind].
    rewrite Hloop. cbn [mbind result_bind]. rewrite Heff. reflexivity.
Qed.

(** ** Sheets of the stock dimensions *)

Lemma fl_find_position_dims (sheet : StockSheet.t) (panel : Panel.t) :
  orientations sheet panel
  = orientations (new_StockSheet (StockSheet.width sheet)
                                 (StockSheet.height sheet)) panel /\
  grid_step sheet panel
  = grid_step (new_StockSheet (StockSheet.width sheet)
                              (StockSheet.height sheet)) panel.
Proof. destruct sheet. split; reflexivity. Qed.

Lemma fl_scans_ok_stock (W H : float) (sheet : StockSheet.t)
    (panel : Panel.t) :
  stock_sized W H sheet -> scans_ok (new_StockSheet W H) panel ->
  scans_ok sheet panel.
Proof.
  intros [Hw Hh] Hscan w h rot Hin Hs.
  destruct (fl_find_position_dims sheet panel) as [Ho Hg].
  rewrite Hw, Hh in Ho, Hg. rewrite Ho in Hin. rewrite Hg.
  specialize (Hscan w h rot Hin).
  unfold scan_ok, searched in *. cbn [new_StockSheet StockSheet.width
    StockSheet.height] in Hscan. rewrite Hw, Hh in *. apply Hscan, Hs.
Qed.

Lemma is_finite_number (x : float) : is_finite x = true -> is_nan x = false.
Proof.
  unfold is_finite. rewrite negb_true_iff, orb_false_iff. intros [H _].
  exact H.
Qed.

(** With finite numbers, an orientation is searched exactly when it fits. *)
Lemma fl_searched_fits (sheet : StockSheet.t) (w h : float) :
  is_finite (StockSheet.width sheet) = true ->
  is_finite (StockSheet.height sheet) = true ->
  is_finite w = true -> is_finite h = true ->
  searched sheet w h = fits sheet w h.
Proof.
  intros HW HH Hw Hh. apply is_finite_number in HW, HH, Hw, Hh.
  unfold searched, fits.
  destruct (StockSheet.width sheet <? w) eqn:E1,
    (StockSheet.height sheet <? h) eqn:E2,
    (w <=? StockSheet.width sheet) eqn:E3,
    (h <=? StockSheet.height sheet) eqn:E4; try reflexivity; exfalso;
    float_order.
Qed.

Lemma fl_fits_origin_within (sheet : StockSheet.t) (w h : float) :
  is_finite (StockSheet.width sheet) = true ->
  is_finite (StockSheet.height sheet) = true ->
  is_finite w = true -> is_finite h = true ->
  fits sheet w h = true -> origin_within sheet w h.
Proof.
  intros HW HH Hw Hh Hfit. unfold fits in Hfit.
  apply andb_true_iff in Hfit as [H1 H2].
  unfold origin_within, within. cbn [fst snd].
  rewrite (sub_nonneg _ _ HW Hw H1), (sub_nonneg _ _ HH Hh H2). reflexivity.
Qed.

(** ** Panels that fit and panels that do not *)

Lemma fl_find_position_new (W H : float) (p : Panel.t) :
  is_finite W = true -> is_finite H = true ->
  is_finite (Panel.width p) = true -> is_finite (Panel.height p) = true ->
  panel_fits W H p = true ->
  exists c, find_position (new_StockSheet W H) p = Ok (Some c).
Proof.
  intros HW HH Hw Hh Hfit.
  assert (forall w h rot, (w, h, rot) ∈ orientations (new_StockSheet W H) p ->
            is_finite w = true /\ is_finite h = true) as Hfin.
  { intros w h rot Hin. apply fl_orientations_elem_of in Hin as [-> ->].
    destruct rot; simpl; auto. }
  destruct (fl_for_each_orientation_empty (new_StockSheet W H)
              (grid_step (new_StockSheet W H) p)
              (orientations (new_StockSheet W H) p) None)
    as (b & Hrun & [c ->]).
  - reflexivity.
  - intros w h rot Hin Hs. destruct (Hfin w h rot Hin) as [Hfw Hfh].
    rewrite fl_searched_fits in Hs by assumption.
    apply fl_fits_origin_within; assumption.
  - unfold panel_fits in Hfit. apply orb_true_iff in Hfit as [Hfit|Hfit].
    + exists (Panel.width p), (Panel.height p), false.
      split; [apply fl_orientations_unrotated|].
      rewrite fl_searched_fits by assumption. exact Hfit.
    + destruct (Panel.width p =? Panel.height p) eqn:Heq.
      * exists (Panel.width p), (Panel.height p), false.
        split; [apply fl_orientations_unrotated|].
        rewrite fl_searched_fits by assumption.
        apply andb_true_iff in Hfit as [H1 H2]. unfold fits.
        cbn [new_StockSheet StockSheet.width StockSheet.height].
        apply andb_true_iff. split; float_order.
      * exists (Panel.height p), (Panel.width p), true.
        split; [apply fl_orientations_rotated; exact Heq|].
        rewrite fl_searched_fits by assumption. exact Hfit.
  - exists c. exact Hrun.
Qed.

Lemma fl_find_position_unfit (W H : float) (sheet : StockSheet.t)
    (p : Panel.t) :
  is_finite W = true -> is_finite H = true ->
  is_finite (Panel.width p) = true -> is_finite (Panel.height p) = true ->
  stock_sized W H sheet -> panel_fits W H p = false ->
  find_position sheet p = Ok None.
Proof.
  intros HW HH Hw Hh [Hsw Hsh] Hfit. unfold panel_fits in Hfit.
  apply orb_false_iff in Hfit as [H1 H2].
  apply fl_find_position_skipped.
  - rewrite fl_searched_fits by (rewrite ?Hsw, ?Hsh; assumption).
    unfold fits. rewrite Hsw, Hsh. exact H1.
  - rewrite fl_searched_fits by (rewrite ?Hsw, ?Hsh; assumption).
    unfold fits. rewrite Hsw, Hsh. exact H2.
Qed.

(** ** Runs that return and runs that raise *)

Lemma fl_try_sheets_not_Stuck (sheets : list StockSheet.t) (panel : Panel.t)
    (r : ref) (σ : heap) :
  try_sheets sheets panel r σ <> Stuck.
Proof.
  induction sheets as [|sheet sheets IH]; cbn [try_sheets]; [discriminate|].
  pose proof (fl_find_position_not_Stuck sheet panel) as Hns.
  destruct (find_position sheet panel) as [[[[x y] rot]|]|e|];
    cbn [mbind result_bind]; try discriminate; [|contradiction].
  destruct (try_sheets sheets panel r σ) as [[[s1 σ1]|]|e|];
    cbn [mbind result_bind]; try discriminate. contradiction.
Qed.

Lemma fl_loop_body_not_Stuck (W H : float) (sheets : list StockSheet.t)
    (r : ref) (rem : list ref) (σ : heap) (panel : Panel.t) :
  σ !! r = Some panel -> loop_body W H sheets r rem σ <> Stuck.
Proof.
  intros Hp. unfold loop_body. rewrite (proj2 (fl_deref_Ok σ r panel) Hp).
  cbn [mbind result_bind].
  assert (forall c, deref (<[r := placed panel c]> σ) r = Ok (placed panel c))
    as Hderef.
  { intros c. apply fl_deref_Ok. apply list_lookup_insert_eq.
    eapply lookup_lt_Some. exact Hp. }
  pose proof (fl_try_sheets_not_Stuck sheets panel r σ) as Hns.
  destruct (try_sheets sheets panel r σ) as [[[s1 σ1]|]|e|] eqn:Htry;
    cbn [mbind result_bind]; try discriminate; [| |contradiction].
  - apply fl_try_sheets_Some in Htry as (i & s & c & _ & _ & _ & ->).
    rewrite Hderef. cbn [mbind result_bind].
    case_bool_decide; discriminate.
  - unfold place_on_new_sheet.
    pose proof (fl_find_position_not_Stuck (new_StockSheet W H) panel) as Hn.
    destruct (find_position (new_StockSheet W H) panel)
      as [[[[x y] rot]|]|e|]; cbn [mbind result_bind]; try discriminate;
      [|contradiction].
    change (mark_placed panel x y rot) with (placed panel (x, y, rot)).
    rewrite Hderef. cbn [mbind result_bind].
    case_bool_decide; discriminate.
Qed.

Lemma fl_queue_frame (P : Panel.t -> Prop) (σ : heap) (r : ref)
    (rem : list ref) (p : Panel.t) :
  r ∉ rem ->
  (queue_all P σ rem -> queue_all P (<[r := p]> σ) rem) /\
  (queue_any P σ rem -> queue_any P (<[r := p]> σ) rem).
Proof.
  intros Hnotin. unfold queue_all, queue_any.
  rewrite !Forall_forall, !Exists_exists. split.
  - intros Hall r' Hin. destruct (Hall r' Hin) as (p' & Hp' & HP).
    exists p'. split; [|exact HP].
    rewrite list_lookup_insert_ne; [exact Hp'|]. intros ->. contradiction.
  - intros (r' & Hin & p' & Hp' & HP). exists r'. split; [exact Hin|].
    exists p'. split; [|exact HP].
    rewrite list_lookup_insert_ne; [exact Hp'|]. intros ->. contradiction.
Qed.

(** A panel that can be placed has a placement, whatever the sheets of
    stock dimensions hold. *)
Lemma fl_placeable_placement (W H : float) (sheets : list StockSheet.t)
    (p : Panel.t) (r : ref) :
  is_finite W = true -> is_finite H = true ->
  Forall (stock_sized W H) sheets -> placeable W H p ->
  exists c sheets', placement W H sheets p r c sheets'.
Proof.
  intros HW HH Hall (Hscan & Hw & Hh & Hfit).
  assert (Forall (fun s => exists b, find_position s p = Ok b) sheets) as Htot.
  { rewrite Forall_forall in *. intros s Hs.
    apply fl_find_position_total. apply (fl_scans_ok_stock W H); auto. }
  clear Hall.
  assert ((exists i sheet c, first_fit sheets p i c /\ sheets !! i = Some sheet)
          \/ all_reject sheets p) as [(i & s & c & Hff & Hs)|Hrej].
  { induction Htot as [|s l (b & Hb) _ [(i & s' & c & [Hex Hbef] & Hs)|Hrej]].
    - right. constructor.
    - destruct b as [c0|].
      + left. exists 0%nat, s, c0. split; [|reflexivity].
        split; [exists s; auto|]. intros j s0 Hj. lia.
      + left. exists (S i), s', c. split; [|exact Hs].
        split; [exact Hex|]. intros [|j] s0 Hj Hs0.
        * inversion Hs0; subst. exact Hb.
        * apply (Hbef j s0); [lia|exact Hs0].
    - destruct b as [c0|].
      + left. exists 0%nat, s, c0. split; [|reflexivity].
        split; [exists s; auto|]. intros j s0 Hj. lia.
      + right. constructor; assumption. }
  - eexists c, _. left. exists i, s. eauto.
  - destruct (fl_find_position_new W H p HW HH Hw Hh Hfit) as (c & Hc).
    eexists c, _. right. eauto.
Qed.

(** A queue of panels that can be placed is run to its end. *)
Lemma fl_while_remaining_placeable (W H : float) (rem : list ref) :
  is_finite W = true -> is_finite H = true ->
  forall (fuel : nat) (sheets : list StockSheet.t) (σ : heap),
    (length rem <= fuel)%nat -> queue_ok σ rem ->
    Forall (stock_sized W H) sheets -> queue_all (placeable W H) σ rem ->
    exists sheets' σ',
      while_remaining fuel W H (sheets, rem, σ) = Ok (sheets', [], σ').
Proof.
  intros HW HH. induction rem as [|r rem IH];
    intros fuel sheets σ Hfuel Hq Hstock Hgood.
  - exists sheets, σ. destruct fuel; reflexivity.
  - destruct fuel as [|fuel]; [simpl in Hfuel; lia|].
    cbn [while_remaining].
    inversion Hgood as [|r0 l (p & Hp & Hpl) Hrest]; subst.
    destruct (fl_placeable_placement W H sheets p r HW HH Hstock Hpl)
      as (c & sheets1 & Hplace).
    pose proof Hq as [Hnd Hone]. inversion Hnd as [|r0 l Hnotin _]; subst.
    inversion Hone as [|r0 l (p' & Hp' & Hqty) _]; subst.
    rewrite Hp in Hp'. inversion Hp'; subst p'.
    assert (loop_body W H sheets r (r :: rem) σ
            = Ok (sheets1,
                  if bool_decide (Panel.quantity p - 1 = 0)%Z
                  then tail (r :: rem) else r :: rem,
                  <[r := placed p c]> σ)) as Hbody.
    { apply (fl_loop_body_Ok W H sheets r (r :: rem) σ p _ Hp).
      exists c, sheets1. auto. }
    rewrite Hbody. cbn [mbind result_bind]. rewrite Hqty.
    rewrite bool_decide_eq_true_2 by reflexivity. cbn [tail].
    apply IH.
    + simpl in Hfuel. lia.
    + apply fl_queue_ok_tail. exact Hq.
    + apply (fl_placement_Forall (stock_sized W H) W H sheets p r c);
        [|exact Hstock|exact Hplace].
      intros sheet _ [[_ Hs]| ->]; [exact Hs|split; reflexivity].
    + apply (fl_queue_frame (placeable W H) σ r rem _ Hnotin). exact Hrest.
Qed.

(** A turn for a panel that fits in neither orientation raises. *)
Lemma fl_loop_body_unplaceable (W H : float) (sheets : list StockSheet.t)
    (r : ref) (rem : list ref) (σ : heap) (p : Panel.t) :
  is_finite W = true -> is_finite H = true ->
  Forall (stock_sized W H) sheets -> σ !! r = Some p -> unplaceable W H p ->
  loop_body W H sheets r rem σ = Raise ValueError.
Proof.
  intros HW HH Hstock Hp (Hw & Hh & Hfit). unfold loop_body.
  rewrite (proj2 (fl_deref_Ok σ r p) Hp). cbn [mbind result_bind].
  rewrite (proj2 (fl_try_sheets_None sheets p r σ)).
  2:{ unfold all_reject. rewrite Forall_forall in *. intros s Hs.
      apply (fl_find_position_unfit W H); auto. }
  cbn [mbind result_bind]. unfold place_on_new_sheet.
  rewrite (fl_find_position_unfit W H (new_StockSheet W H) p HW HH Hw Hh);
    [reflexivity|split; reflexivity|exact Hfit].
Qed.

(** A queue that holds a panel fitting in neither orientation is not run
    to its end: a turn raises. *)
Lemma fl_while_remaining_unplaceable (W H : float) (rem : list ref) :
  is_finite W = true -> is_finite H = true ->
  forall (fuel : nat) (sheets : list StockSheet.t) (σ : heap),
    (length rem <= fuel)%nat -> queue_ok σ rem ->
    Forall (stock_sized W H) sheets -> queue_any (unplaceable W H) σ rem ->
    (exists e, while_remaining fuel W H (sheets, rem, σ) = Raise e) /\
    (queue_all (fun p => placeable W H p \/ unplaceable W H p) σ rem ->
     while_remaining fuel W H (sheets, rem, σ) = Raise ValueError).
Proof.
  intros HW HH. induction rem as [|r rem IH];
    intros fuel sheets σ Hfuel Hq Hstock Hbad.
  - inversion Hbad.
  - destruct fuel as [|fuel]; [simpl in Hfuel; lia|].
    cbn [while_remaining].
    pose proof Hq as [Hnd Hone]. inversion Hnd as [|r0 l Hnotin _]; subst.
    inversion Hone as [|r0 l (p & Hp & Hqty) _]; subst.
    assert (unplaceable W H p \/
            queue_any (unplaceable W H) σ rem) as [Hhere|Hlater].
    { inversion Hbad as [r0 l (p' & Hp' & Hb)|r0 l Hl]; subst.
      - left. rewrite Hp in Hp'. inversion Hp'; subst. exact Hb.
      - right. exact Hl. }
    { rewrite (fl_loop_body_unplaceable W H sheets r (r :: rem) σ p)
        by assumption.
      split; [eexists; reflexivity|reflexivity]. }
    assert (forall st1, loop_body W H sheets r (r :: rem) σ = Ok st1 ->
              (exists e, while_remaining fuel W H st1 = Raise e) /\
              (queue_all (fun p => placeable W H p \/ unplaceable W H p)
                         σ rem ->
               while_remaining fuel W H st1 = Raise ValueError)) as Hnext.
    { intros st1 Hbody.
      apply (fl_loop_body_Ok W H sheets r (r :: rem) σ p st1 Hp) in Hbody
        as (c & sheets1 & Hplace & ->).
      rewrite Hqty. rewrite bool_decide_eq_true_2 by reflexivity. cbn [tail].
      destruct (IH fuel sheets1 (<[r := placed p c]> σ)) as [Hex Hval].
      - simpl in Hfuel. lia.
      - apply fl_queue_ok_tail. exact Hq.
      - apply (fl_placement_Forall (stock_sized W H) W H sheets p r c);
          [|exact Hstock|exact Hplace].
        intros sheet _ [[_ Hs]| ->]; [exact Hs|split; reflexivity].
      - apply (fl_queue_frame (unplaceable W H) σ r rem _ Hnotin).
        exact Hlater.
      - split; [exact Hex|]. intros Hall. apply Hval.
        apply (fl_queue_frame _ σ r rem _ Hnotin). exact Hall. }
    pose proof (fl_loop_body_not_Stuck W H sheets r (r :: rem) σ p Hp) as Hns.
    split.
    + destruct (loop_body W H sheets r (r :: rem) σ) as [st1|e|] eqn:Hbody;
        cbn [mbind result_bind].
      * apply (Hnext st1 eq_refl).
      * eexists; reflexivity.
      * contradiction.
    + intros Hall. inversion Hall as [|r0 l (p' & Hp' & Hcase) Hrest]; subst.
      rewrite Hp in Hp'. inversion Hp'; subst p'.
      destruct Hcase as [Hgood|Hbadp].
      * destruct (fl_placeable_placement W H sheets p r HW HH Hstock Hgood)
          as (c & sheets1 & Hplace).
        assert (loop_body W H sheets r (r :: rem) σ
                = Ok (sheets1,
                      if bool_decide (Panel.quantity p - 1 = 0)%Z
                      then tail (r :: rem) else r :: rem,
                      <[r := placed p c]> σ)) as Hbody.
        { apply (fl_loop_body_Ok W H sheets r (r :: rem) σ p _ Hp).
          exists c, sheets1. auto. }
        rewrite Hbody. cbn [mbind result_bind].
        apply (Hnext _ Hbody). exact Hrest.
      * rewrite (fl_loop_body_unplaceable W H sheets r (r :: rem) σ p)
          by assumption.
        reflexivity.
Qed.

(** ** Invariants of the sheets, whatever the queue *)

Lemma fl_loop_body_placement (W H : float) (sheets : list StockSheet.t)
    (r : ref) (rem : list ref) (σ : heap) (st' : state) :
  loop_body W H sheets r rem σ = Ok st' ->
  exists panel c, σ !! r = Some panel /\
    placement W H sheets panel r c st'.1.1 /\
    st'.2 = <[r := placed panel c]> σ.
Proof.
  intros Hrun. pose proof Hrun as Hrun'. unfold loop_body in Hrun'.
  apply bind_Ok in Hrun' as (panel & Hp & _). apply fl_deref_Ok in Hp.
  destruct (proj1 (fl_loop_body_Ok W H sheets r rem σ panel st' Hp) Hrun)
    as (c & sheets' & Hpl & Heq).
  rewrite Heq. exists panel, c. auto.
Qed.

Lemma fl_while_remaining_Forall (P : StockSheet.t -> Prop) (W H : float)
    (fuel : nat) (st st' : state) :
  (forall sheet panel r c,
     find_position sheet panel = Ok (Some c) ->
     (P sheet \/ sheet = new_StockSheet W H) ->
     P (with_entry sheet (entry panel r c))) ->
  Forall P st.1.1 -> while_remaining fuel W H st = Ok st' ->
  Forall P st'.1.1.
Proof.
  intros Hnew. revert st. induction fuel as [|fuel IH]; intros st HP Hrun.
  - destruct st as [[sheets [|r rem]] σ]; simpl in Hrun; [|discriminate].
    inversion Hrun; subst. exact HP.
  - destruct st as [[sheets [|r rem]] σ]; cbn [while_remaining] in Hrun.
    + inversion Hrun; subst. exact HP.
    + apply bind_Ok in Hrun as (st1 & Hbody & Hrun).
      apply (IH st1); [|exact Hrun].
      apply fl_loop_body_placement in Hbody as (panel & c & _ & Hpl & _).
      apply (fl_placement_Forall P W H sheets panel r c); [|exact HP|exact Hpl].
      intros sheet Hfind [[_ Hs]|Heq]; apply (Hnew sheet panel r c Hfind); auto.
Qed.

Lemma fl_optimize_layout_Forall (P : StockSheet.t -> Prop) (W H : float)
    (panels : list ref) (σ : heap) (sheets : list StockSheet.t) (σ' : heap) :
  (forall sheet panel r c,
     find_position sheet panel = Ok (Some c) ->
     (P sheet \/ sheet = new_StockSheet W H) ->
     P (with_entry sheet (entry panel r c))) ->
  P (new_StockSheet W H) ->
  optimize_layout W H panels σ = Ok (sheets, σ') ->
  exists sheets0, Forall P sheets0 /\ same_layout sheets0 sheets.
Proof.
  intros Hnew Hinit Hrun. apply fl_optimize_layout_Ok in Hrun
    as (panels_copy & σ1 & sorted & sheets0 & rem0 & _ & _ & Hloop & Heff).
  exists sheets0. split; [|apply fl_map_each_set_efficiency; exact Heff].
  apply (fl_while_remaining_Forall P W H _ _ _ Hnew) in Hloop; [exact Hloop|].
  constructor; [exact Hinit|constructor].
Qed.

Lemma fl_turns_length (W H : float) (st : list StockSheet.t * heap)
    (queue : list ref) (st' : list StockSheet.t * heap) :
  turns W H st queue st' -> (length st.1 <= length st'.1)%nat.
Proof.
  intros Hturns. induction Hturns as [st|sheets σ r queue panel c sheets1
    st' Hp Hpl Hturns IH]; [lia|].
  cbn [fst] in *. etransitivity; [|exact IH].
  destruct Hpl as [(i & s & _ & _ & ->)|(_ & _ & ->)].
  - rewrite length_insert. lia.
  - rewrite length_app. simpl. lia.
Qed.

Lemma fl_placement_length (W H : float) (sheets : list StockSheet.t)
    (panel : Panel.t) (r : ref) (c : candidate) (sheets' : list StockSheet.t) :
  placement W H sheets panel r c sheets' ->
  (length sheets <= length sheets')%nat.
Proof.
  intros [(i & s & _ & _ & ->)|(_ & _ & ->)].
  - rewrite length_insert. lia.
  - rewrite length_app. simpl. lia.
Qed.

Lemma fl_while_remaining_length (W H : float) (fuel : nat) (st st' : state) :
  while_remaining fuel W H st = Ok st' ->
  (length st.1.1 <= length st'.1.1)%nat.
Proof.
  revert st. induction fuel as [|fuel IH]; intros st Hrun.
  - destruct st as [[sheets [|r rem]] σ]; simpl in Hrun; [|discriminate].
    inversion Hrun; subst. lia.
  - destruct st as [[sheets [|r rem]] σ]; cbn [while_remaining] in Hrun.
    + inversion Hrun; subst. lia.
    + apply bind_Ok in Hrun as (st1 & Hbody & Hrun).
      apply IH in Hrun.
      apply fl_loop_body_placement in Hbody as (panel & c & _ & Hpl & _).
      apply fl_placement_length in Hpl. cbn [fst snd] in *. lia.
Qed.

(** ** The whole run *)

Lemma fl_placed_refs_same_layout (sheets sheets' : list StockSheet.t) :
  same_layout sheets sheets' -> placed_refs sheets' = placed_refs sheets.
Proof.
  intros Hsame. induction Hsame as [|s s' l l' (_ & _ & Hu) _ IH].
  - reflexivity.
  - unfold placed_refs in *. cbn [flat_map]. rewrite Hu, IH. reflexivity.
Qed.

(** The queue that the copy loop and the sort hand to the main loop. *)
Lemma fl_optimize_layout_queue (panels : list ref) (σ : heap)
    (specs : list Panel.t) :
  panels_in σ panels specs ->
  let σ1 := σ ++ expansion specs in
  let fresh := seq (length σ) (length (expansion specs)) in
  exists queue,
    copy_panels panels [] σ = Ok (fresh, σ1) /\
    sort_panels fresh σ1 = Ok queue /\
    queue ≡ₚ fresh /\ queue_ok σ1 queue /\
    Forall (fun r => exists p, σ1 !! r = Some p /\ p ∈ expansion specs) queue.
Proof.
  intros Hin σ1 fresh.
  destruct (fl_sort_panels_Ok σ1 fresh (expansion specs)) as (queue & Hs & Hp).
  { apply fl_panels_in_fresh. }
  exists queue. split; [apply (fl_copy_panels_Ok σ panels specs [] Hin)|].
  split; [exact Hs|]. split; [exact Hp|].
  apply fl_queue_ok_fresh. exact Hp.
Qed.

Lemma fl_optimize_layout_unfold (W H : float) (panels : list ref) (σ : heap)
    (specs : list Panel.t) (queue : list ref) :
  copy_panels panels [] σ
  = Ok (seq (length σ) (length (expansion specs)), σ ++ expansion specs) ->
  sort_panels (seq (length σ) (length (expansion specs)))
              (σ ++ expansion specs) = Ok queue ->
  optimize_layout W H panels σ
  = (st ← while_remaining (length queue) W H
            ([new_StockSheet W H], queue, σ ++ expansion specs);
     sheets ← map_each set_efficiency st.1.1;
     Ok (sheets, st.2)).
Proof.
  intros Hcopy Hsort. unfold optimize_layout. rewrite Hcopy.
  cbn [mbind result_bind]. rewrite Hsort. cbn [mbind result_bind].
  destruct (while_remaining _ _ _ _) as [[[s q] τ]| |]; reflexivity.
Qed.

Lemma fl_queue_all_specs (P : Panel.t -> Prop) (σ1 : heap)
    (specs : list Panel.t) (queue : list ref) :
  (forall spec, spec ∈ specs -> (1 <= Panel.quantity spec)%Z ->
                P (new_Panel (Panel.width spec) (Panel.height spec) 1)) ->
  Forall (fun r => exists p, σ1 !! r = Some p /\ p ∈ expansion specs) queue ->
  queue_all P σ1 queue.
Proof.
  intros HP Hall. unfold queue_all. rewrite Forall_forall in *.
  intros r Hr. destruct (Hall r Hr) as (p & Hp & Hin).
  exists p. split; [exact Hp|].
  apply fl_expansion_elem_of in Hin as (spec & Hs & Hq & ->). auto.
Qed.

Lemma fl_queue_any_specs (P : Panel.t -> Prop) (σ1 : heap)
    (specs : list Panel.t) (queue : list ref) :
  queue ≡ₚ seq (length σ1 - length (expansion specs))
               (length (expansion specs)) ->
  (exists τ, σ1 = τ ++ expansion specs) ->
  Exists (fun spec => (1 <= Panel.quantity spec)%Z /\
            P (new_Panel (Panel.width spec) (Panel.height spec) 1)) specs ->
  queue_any P σ1 queue.
Proof.
  intros Hperm (τ & ->) Hex. unfold queue_any.
  rewrite Exists_exists in Hex. rewrite Exists_exists.
  destruct Hex as (spec & Hs & Hq & HP).
  assert (new_Panel (Panel.width spec) (Panel.height spec) 1
          ∈ expansion specs) as Hin.
  { apply fl_expansion_elem_of. exists spec. auto. }
  apply list_elem_of_lookup_1 in Hin as (i & Hi).
  exists (length τ + i)%nat. split.
  - rewrite Hperm. apply list_elem_of_In, in_seq.
    rewrite length_app. apply lookup_lt_Some in Hi. lia.
  - eexists. split; [|exact HP].
    rewrite lookup_app_r by lia.
    replace (length τ + i - length τ)%nat with i by lia. exact Hi.
Qed.

(** The outcome of a run on a request of finite numbers. *)
Lemma fl_optimize_layout_outcome (W H : float) (panels : list ref) (σ : heap)
    (specs : list Panel.t) :
  is_finite W = true -> is_finite H = true ->
  panels_in σ panels specs -> Forall spec_ok specs ->
  (Forall (fun p => panel_fits W H p = true) specs ->
   Forall (scans_ok (new_StockSheet W H)) specs ->
   if W * H =? 0
   then optimize_layout W H panels σ = Raise ZeroDivisionError
   else exists sheets σ',
          optimize_layout W H panels σ = Ok (sheets, σ') /\
          placed_refs sheets ≡ₚ seq (length σ) (length (expansion specs))) /\
  (Exists (fun p => panel_fits W H p = false) specs ->
   (exists e, optimize_layout W H panels σ = Raise e) /\
   (Forall (scans_ok (new_StockSheet W H)) specs ->
    optimize_layout W H panels σ = Raise ValueError)).
Proof.
  intros HW HH Hin Hok.
  destruct (fl_optimize_layout_queue panels σ specs Hin)
    as (queue & Hcopy & Hsort & Hperm & Hq & Hobj).
  rewrite (fl_optimize_layout_unfold W H panels σ specs queue Hcopy Hsort).
  assert (Forall (stock_sized W H) [new_StockSheet W H]) as Hstock.
  { constructor; [split; reflexivity|constructor]. }
  rewrite Forall_forall in Hok.
  split.
  - intros Hfit Hscan. rewrite Forall_forall in Hfit, Hscan.
    destruct (fl_while_remaining_placeable W H queue HW HH (length queue)
                [new_StockSheet W H] (σ ++ expansion specs))
      as (sheets0 & σ' & Hloop); [lia|exact Hq|exact Hstock| |].
    { apply (fl_queue_all_specs _ _ specs); [|exact Hobj].
      intros spec Hs _. destruct (Hok spec Hs) as (Hw & Hh & _).
      split; [exact (Hscan spec Hs)|]. split; [exact Hw|].
      split; [exact Hh|exact (Hfit spec Hs)]. }
    rewrite Hloop. cbn [mbind result_bind fst snd].
    pose proof (fl_while_remaining_length W H _ _ _ Hloop) as Hlen.
    cbn [fst snd length] in Hlen.
    apply fl_while_remaining_turns in Hloop as [_ Hturns]; [|exact Hq].
    cbn [fst snd] in Hturns.
    pose proof (fl_turns_stock_sized W H _ _ _ Hturns Hstock) as Hsized.
    pose proof (fl_turns_placed_refs W H _ _ _ Hturns) as Hrefs.
    cbn [fst snd] in Hsized, Hrefs.
    pose proof (fl_map_each_set_efficiency_stock W H sheets0 Hsized) as Heff.
    destruct (W * H =? 0) eqn:Harea.
    { rewrite Heff. destruct sheets0; [simpl in Hlen; lia|reflexivity]. }
    rewrite Heff.
    cbn [mbind result_bind]. eexists _, _. split; [reflexivity|].
    apply fl_map_each_set_efficiency in Heff.
    rewrite (fl_placed_refs_same_layout _ _ Heff).
    rewrite Hperm in Hrefs. exact Hrefs.
  - intros Hex.
    assert (queue_any (unplaceable W H) (σ ++ expansion specs) queue) as Hany.
    { apply (fl_queue_any_specs _ _ specs).
      - rewrite length_app.
        replace (length σ + length (expansion specs)
                 - length (expansion specs))%nat with (length σ) by lia.
        exact Hperm.
      - exists σ. reflexivity.
      - rewrite Exists_exists in Hex. rewrite Exists_exists.
        destruct Hex as (spec & Hs & Hunfit).
        exists spec. split; [exact Hs|].
        destruct (Hok spec Hs) as (Hw & Hh & Hqty).
        split; [exact Hqty|]. split; [exact Hw|]. split; [exact Hh|].
        exact Hunfit. }
    destruct (fl_while_remaining_unplaceable W H queue HW HH (length queue)
                [new_StockSheet W H] (σ ++ expansion specs))
      as [(e & He) Hval]; [lia|exact Hq|exact Hstock|exact Hany|].
    split.
    + exists e. rewrite He. reflexivity.
    + intros Hscan. rewrite Hval; [reflexivity|].
      apply (fl_queue_all_specs _ _ specs); [|exact Hobj].
      intros spec Hs _. destruct (Hok spec Hs) as (Hw & Hh & _).
      rewrite Forall_forall in Hscan.
      destruct (panel_fits W H spec) eqn:Hfit.
      * left. split; [exact (Hscan spec Hs)|]. split; [exact Hw|].
        split; [exact Hh|exact Hfit].
      * right. split; [exact Hw|]. split; [exact Hh|exact Hfit].
Qed.

(** * The claims that depend on rounding, in binary64 *)

(** ** C2: the result of the placement search *)

(** C2 as stated fails.  On [sheet_two_tabs] the unrotated 3 by 1
    orientation is searched first and has admissible priority positions,
    the best at [(0.5, 0.5)].  The rotated 1 by 3 orientation has no
    admissible priority position, and its grid holds the admissible
    position [(0.5, 0)], lower than [(0.5, 0.5)].  Taking the two phases
    for each orientation on its own, [(0.5, 0)] is an admissible candidate
    and the smaller one; [find_position] returns [(0.5, 0.5)], because it
    scans the grid of an orientation only when nothing at all was found
    before. *)
Lemma find_position_not_independent :
  find_position sheet_two_tabs panel_3x1 = Ok (Some (0.5, 0.5, false)) /\
  exists c : candidate,
    c ∈ admissible sheet_two_tabs (grid_step sheet_two_tabs panel_3x1)
          (orientations sheet_two_tabs panel_3x1) /\
    c = (0.5, 0, true) /\
    fits sheet_two_tabs (placed_w panel_3x1 c.2) (placed_h panel_3x1 c.2)
    = true /\
    within sheet_two_tabs (placed_w panel_3x1 c.2) (placed_h panel_3x1 c.2)
           (c.1.1, c.1.2) = true /\
    is_valid (StockSheet.used_space sheet_two_tabs)
      (placed_w panel_3x1 c.2) (placed_h panel_3x1 c.2) c.1.1 c.1.2 = true /\
    improves (Some (0.5, 0.5, false)) c.1.1 c.1.2 = true /\
    ~ is_best (admissible sheet_two_tabs (grid_step sheet_two_tabs panel_3x1)
                 (orientations sheet_two_tabs panel_3x1))
              (Some (0.5, 0.5, false)).
Proof.
  split; [vm_compute; reflexivity|].
  assert ((0.5, 0, true)
          ∈ admissible sheet_two_tabs (grid_step sheet_two_tabs panel_3x1)
              (orientations sheet_two_tabs panel_3x1)) as Hin.
  { apply (list_elem_of_lookup_2 _ 4%nat). vm_compute. reflexivity. }
  exists (0.5, 0, true).
  split; [exact Hin|]. split; [reflexivity|].
  split; [vm_compute; reflexivity|]. split; [vm_compute; reflexivity|].
  split; [vm_compute; reflexivity|].
  assert (improves (Some (0.5, 0.5, false)) 0.5 0 = true) as Himp
    by (vm_compute; reflexivity).
  split; [exact Himp|].
  intros (C1 & C2 & HC & Hbefore & Hafter).
  rewrite HC in Hin. apply elem_of_app in Hin as [Hin|Hin].
  - specialize (Hbefore _ Hin). vm_compute in Hbefore. discriminate.
  - apply elem_of_cons in Hin as [Heq|Hin]; [discriminate|].
    specialize (Hafter _ Hin). cbn [fst snd] in Hafter. congruence.
Qed.

(** C2, amended.  When it raises nothing, [find_position] returns the
    choice among the candidates it examined: for each orientation that
    line 42 does not skip, in sorted order, the admissible priority
    positions, and the admissible grid positions only if nothing was found
    before, in that orientation or an earlier one.  The candidates are
    numbers; the choice has the smallest [(y, x)], the first examined among
    equals, and there is none only if there is no candidate.  The search
    raises nothing when the ranges of every orientation it searches have a
    length: the step is not zero and NumPy can size both arrays. *)
Theorem find_position_examined_best (sheet : StockSheet.t) (panel : Panel.t) :
  (forall b, find_position sheet panel = Ok b ->
     Forall comparable (examined sheet (grid_step sheet panel) false
                          (orientations sheet panel)) /\
     is_best (examined sheet (grid_step sheet panel) false
                (orientations sheet panel)) b) /\
  (scans_ok sheet panel -> exists b, find_position sheet panel = Ok b).
Proof.
  split.
  - intros b Hrun. split; [apply fl_examined_comparable|].
    apply fl_find_position_best. exact Hrun.
  - apply fl_find_position_total.
Qed.

Lemma find_position_examined_best_witness :
  find_position sheet_two_tabs panel_3x1 = Ok (Some (0.5, 0.5, false)) /\
  scans_ok sheet_two_tabs panel_3x1 /\
  is_best (examined sheet_two_tabs (grid_step sheet_two_tabs panel_3x1) false
             (orientations sheet_two_tabs panel_3x1))
          (Some (0.5, 0.5, false)) /\
  exists b, find_position sheet_two_tabs panel_3x1 = Ok b.
Proof.
  assert (find_position sheet_two_tabs panel_3x1
          = Ok (Some (0.5, 0.5, false))) as Hrun
    by (vm_compute; reflexivity).
  assert (scans_ok sheet_two_tabs panel_3x1) as Hscan.
  { intros w h rot Hin _.
    change (orientations sheet_two_tabs panel_3x1)
      with [(3, 1, false); (1, 3, true)] in Hin.
    apply elem_of_cons in Hin as [Heq|Hin].
    - inversion Heq; subst. split; eexists; vm_compute; reflexivity.
    - apply list_elem_of_singleton in Hin. inversion Hin; subst.
      split; eexists; vm_compute; reflexivity. }
  split; [exact Hrun|]. split; [exact Hscan|].
  destruct (find_position_examined_best sheet_two_tabs panel_3x1) as [H1 H2].
  split; [apply (H1 _ Hrun)|apply H2; exact Hscan].
Defined.

(** ** C9: the grid step *)

(** C9.  The step of the fallback scan is the binary64 product of 0.001
    and the least of the panel's width and height and the sheet's width and
    height, and the scan proceeds by that step: a position that
    [find_position] returns is a priority position of its orientation or a
    point [(i * step, j * step)] of the grid, as [np.arange] computes its
    coordinates, and when [find_position] finds nothing, every point of the
    grid of every orientation it searched fails the overlap test. *)
Theorem grid_step_permille_of_min (sheet : StockSheet.t) (panel : Panel.t) :
  let step := grid_step sheet panel in
  (exists m,
     step = m * 0.001 /\
     (m = Panel.width panel \/ m = Panel.height panel \/
      m = StockSheet.width sheet \/ m = StockSheet.height sheet) /\
     (Panel.width panel <? m) = false /\ (Panel.height panel <? m) = false /\
     (StockSheet.width sheet <? m) = false /\
     (StockSheet.height sheet <? m) = false) /\
  forall b, find_position sheet panel = Ok b ->
    match b with
    | Some (x, y, rot) =>
        (x, y) ∈ priority_positions sheet (placed_w panel rot)
                   (placed_h panel rot) \/
        exists nx ny i j,
          arange_length 0 (StockSheet.width sheet - placed_w panel rot + step)
                        step = Ok nx /\
          arange_length 0 (StockSheet.height sheet - placed_h panel rot + step)
                        step = Ok ny /\
          (Z.of_nat i < nx)%Z /\ (Z.of_nat j < ny)%Z /\
          x = grid_coordinate step i /\ y = grid_coordinate step j
    | None =>
        forall w h rot nx ny i j,
          (w, h, rot) ∈ orientations sheet panel ->
          searched sheet w h = true ->
          arange_length 0 (StockSheet.width sheet - w + step) step = Ok nx ->
          arange_length 0 (StockSheet.height sheet - h + step) step = Ok ny ->
          (Z.of_nat i < nx)%Z -> (Z.of_nat j < ny)%Z ->
          is_valid (StockSheet.used_space sheet) w h
                   (grid_coordinate step i) (grid_coordinate step j) = false
    end.
Proof.
  intros step. split.
  - exists (py_min (py_min (py_min (Panel.width panel) (Panel.height panel))
                           (StockSheet.width sheet))
                   (StockSheet.height sheet)).
    split; [reflexivity|].
    destruct (fl_py_min_le (Panel.width panel) (Panel.height panel))
      as [A1 A2].
    destruct (fl_py_min_le
                (py_min (Panel.width panel) (Panel.height panel))
                (StockSheet.width sheet)) as [_ B2].
    destruct (fl_py_min_le
                (py_min (py_min (Panel.width panel) (Panel.height panel))
                        (StockSheet.width sheet))
                (StockSheet.height sheet)) as [_ C2].
    split.
    { destruct (fl_py_min_spec
                  (py_min (py_min (Panel.width panel) (Panel.height panel))
                          (StockSheet.width sheet))
                  (StockSheet.height sheet)) as [[-> _]|[-> _]]; [|auto].
      destruct (fl_py_min_spec
                  (py_min (Panel.width panel) (Panel.height panel))
                  (StockSheet.width sheet)) as [[-> _]|[-> _]]; [|auto].
      destruct (fl_py_min_spec (Panel.width panel) (Panel.height panel))
        as [[-> _]|[-> _]]; auto. }
    split; [apply fl_py_min_le_trans, fl_py_min_le_trans, A1|].
    split; [apply fl_py_min_le_trans, fl_py_min_le_trans, A2|].
    split; [apply fl_py_min_le_trans, B2|exact C2].
  - intros b Hrun. apply fl_find_position_best in Hrun.
    destruct b as [[[x y] rot]|].
    + destruct Hrun as (C1 & C2 & HC & _).
      assert ((x, y, rot) ∈ examined sheet step false
                              (orientations sheet panel)) as Hin.
      { unfold step. rewrite HC. apply elem_of_app. right. left. }
      apply fl_examined_elem_of in Hin as (w & h & Ho & _ & _ & Hpos).
      apply fl_orientations_elem_of in Ho as [-> ->]. cbn [fst snd] in *.
      destruct Hpos as [Hprio|Hgrid]; [left; exact Hprio|right].
      apply fl_grid_positions_elem_of in Hgrid as [Hx Hy]. cbn [fst snd] in *.
      apply fl_range_values_elem_of in Hx as (nx & i & Hnx & Hi & ->).
      apply fl_range_values_elem_of in Hy as (ny & j & Hny & Hj & ->).
      exists nx, ny, i, j. repeat split; auto.
    + intros w h rot nx ny i j Ho Hs Hnx Hny Hi Hj.
      cbn [is_best] in Hrun.
      pose proof (fl_examined_nil sheet step _ (w, h, rot) Hrun Ho) as Hnil.
      unfold examined_in in Hnil. rewrite Hs in Hnil.
      destruct (valid_among sheet w h (priority_positions sheet w h))
        as [|p prio]; [|discriminate].
      apply map_eq_nil in Hnil.
      destruct (is_valid (StockSheet.used_space sheet) w h
                  (grid_coordinate step i) (grid_coordinate step j)) eqn:Hv;
        [|reflexivity].
      exfalso.
      assert ((grid_coordinate step i, grid_coordinate step j)
              ∈ valid_among sheet w h (grid_positions sheet step w h)) as Hin.
      { apply fl_valid_among_elem_of. split; [|exact Hv].
        apply fl_grid_positions_elem_of. cbn [fst snd].
        split; apply fl_range_values_elem_of; eauto 6. }
      rewrite Hnil in Hin. inversion Hin.
Qed.

Lemma grid_step_permille_of_min_witness :
  find_position sheet_B (new_Panel 80 80 1) = Ok None /\
  is_valid (StockSheet.used_space sheet_B) 80 80
    (grid_coordinate (grid_step sheet_B (new_Panel 80 80 1)) 3)
    (grid_coordinate (grid_step sheet_B (new_Panel 80 80 1)) 250) = false.
Proof.
  assert (find_position sheet_B (new_Panel 80 80 1) = Ok None) as Hrun
    by (vm_compute; reflexivity).
  split; [exact Hrun|].
  destruct (grid_step_permille_of_min sheet_B (new_Panel 80 80 1))
    as [_ Hscan].
  specialize (Hscan None Hrun). cbv beta iota in Hscan.
  refine (Hscan 80 80 false 251%Z 251%Z 3%nat 250%nat _ _ _ _ _ _).
  - apply (fl_orientations_unrotated sheet_B (new_Panel 80 80 1)).
  - vm_compute. reflexivity.
  - vm_compute. reflexivity.
  - vm_compute. reflexivity.
  - lia.
  - lia.
Defined.

(** ** What the search raises *)

(** [find_position] raises only what [np.arange] raises for a range of the
    scan of an orientation that it searched: [ZeroDivisionError], exactly
    when the grid step is zero, or [ValueError], when the length of the
    range cannot be computed or exceeds what an array can hold. *)
Theorem find_position_raises (sheet : StockSheet.t) (panel : Panel.t)
    (e : exn) :
  find_position sheet panel = Raise e ->
  ((e = ZeroDivisionError /\ (grid_step sheet panel =? 0) = true) \/
   (e = ValueError /\ (grid_step sheet panel =? 0) = false)) /\
  exists w h rot,
    (w, h, rot) ∈ orientations sheet panel /\ searched sheet w h = true /\
    (arange_length 0 (StockSheet.width sheet - w + grid_step sheet panel)
                   (grid_step sheet panel) = Raise e \/
     arange_length 0 (StockSheet.height sheet - h + grid_step sheet panel)
                   (grid_step sheet panel) = Raise e).
Proof.
  intros Hrun. unfold find_position in Hrun.
  apply fl_for_each_orientation_Raise in Hrun
    as (w & h & rot & Hin & Hs & Hraise).
  split; [|exists w, h, rot; auto].
  destruct Hraise as [H|H]; apply fl_arange_length_raises in H; exact H.
Qed.

Lemma find_position_raises_witness :
  find_position sheet_wide (new_Panel 6e19 0.6 1) = Raise ValueError /\
  (grid_step sheet_wide (new_Panel 6e19 0.6 1) =? 0) = false /\
  exists w h rot,
    (w, h, rot) ∈ orientations sheet_wide (new_Panel 6e19 0.6 1) /\
    searched sheet_wide w h = true.
Proof.
  assert (find_position sheet_wide (new_Panel 6e19 0.6 1) = Raise ValueError)
    as Hrun by (vm_compute; reflexivity).
  split; [exact Hrun|]. split; [vm_compute; reflexivity|].
  destruct (find_position_raises sheet_wide (new_Panel 6e19 0.6 1) ValueError
              Hrun) as [_ (w & h & rot & Hin & Hs & _)].
  exists w, h, rot. auto.
Defined.

(** ** The position returned passes the overlap test *)

(** A position returned by [find_position] belongs to an orientation that
    line 42 did not skip, its coordinates are numbers, and it passes the
    overlap test of lines 70-71, on the sums as they are computed, against
    every entry of the sheet. *)
Theorem find_position_admissible (sheet : StockSheet.t) (panel : Panel.t)
    (x y : float) (rot : bool) :
  find_position sheet panel = Ok (Some (x, y, rot)) ->
  let w := placed_w panel rot in
  let h := placed_h panel rot in
  (StockSheet.width sheet <? w) = false /\
  (StockSheet.height sheet <? h) = false /\
  is_nan x = false /\ is_nan y = false /\
  Forall (fun used =>
            (x + w <=? Rect.x used) || (Rect.x used + Rect.w used <=? x) ||
            (y + h <=? Rect.y used) || (Rect.y used + Rect.h used <=? y)
            = true)
         (StockSheet.used_space sheet).
Proof.
  intros Hrun w h.
  pose proof (fl_find_position_valid sheet panel x y rot Hrun) as [Hs Hv].
  unfold searched in Hs. apply negb_true_iff, orb_false_iff in Hs as [H1 H2].
  split; [exact H1|]. split; [exact H2|].
  apply fl_find_position_best in Hrun as Hbest.
  destruct Hbest as (C1 & C2 & HC & _).
  pose proof (fl_examined_comparable sheet (grid_step sheet panel) false
                (orientations sheet panel)) as Hnum.
  rewrite HC, Forall_app in Hnum. destruct Hnum as [_ Hnum].
  inversion Hnum as [|c l [Hx Hy] _]; subst.
  split; [exact Hx|]. split; [exact Hy|].
  apply fl_is_valid_Forall in Hv. exact Hv.
Qed.

Lemma find_position_admissible_witness :
  find_position sheet_two_tabs panel_3x1 = Ok (Some (0.5, 0.5, false)) /\
  Forall (fun used =>
            (0.5 + 3 <=? Rect.x used) || (Rect.x used + Rect.w used <=? 0.5) ||
            (0.5 + 1 <=? Rect.y used) || (Rect.y used + Rect.h used <=? 0.5)
            = true)
         (StockSheet.used_space sheet_two_tabs).
Proof.
  assert (find_position sheet_two_tabs panel_3x1
          = Ok (Some (0.5, 0.5, false))) as Hrun
    by (vm_compute; reflexivity).
  split; [exact Hrun|].
  apply (find_position_admissible sheet_two_tabs panel_3x1 _ _ _ Hrun).
Defined.

(** Requests on concrete numbers: the ranges of the scans are sized by
    computation. *)
Ltac scans_ok_by_computation :=
  let w := fresh "w" in
  let h := fresh "h" in
  let rot := fresh "rot" in
  let Hin := fresh "Hin" in
  let Hs := fresh "Hs" in
  intros w h rot Hin Hs; vm_compute in Hin;
  repeat (apply elem_of_cons in Hin as [Hin|Hin];
          [inversion Hin; subst; clear Hin;
           first [vm_compute in Hs; discriminate
                 |split; eexists; vm_compute; reflexivity]|]);
  inversion Hin.

(** ** C3: rejection *)

(** C3 as stated fails.  On a stock [1e20] wide and 1 high, a panel
    [1e20] by 0.5 and a panel [6e19] by 0.6 both fit.  The first takes the
    lower half of the sheet; for the second no priority position is free,
    and the outer range of the scan, with a step of 0.0006 up to [4e19],
    has more values than an array can hold: [np.arange] raises
    [ValueError], and so does the run, although no spec is too large. *)
Lemma optimize_layout_rejects_placeable :
  Forall spec_ok [new_Panel 1e20 0.5 1; new_Panel 6e19 0.6 1] /\
  Forall (fun p => panel_fits 1e20 1 p = true)
         [new_Panel 1e20 0.5 1; new_Panel 6e19 0.6 1] /\
  optimize_layout 1e20 1 [0%nat; 1%nat]
    [new_Panel 1e20 0.5 1; new_Panel 6e19 0.6 1] = Raise ValueError /\
  ~ (optimize_layout 1e20 1 [0%nat; 1%nat]
       [new_Panel 1e20 0.5 1; new_Panel 6e19 0.6 1] = Raise ValueError <->
     Exists (fun p => panel_fits 1e20 1 p = false)
            [new_Panel 1e20 0.5 1; new_Panel 6e19 0.6 1]).
Proof.
  assert (optimize_layout 1e20 1 [0%nat; 1%nat]
            [new_Panel 1e20 0.5 1; new_Panel 6e19 0.6 1] = Raise ValueError)
    as Hrun by (vm_compute; reflexivity).
  split.
  { repeat constructor; vm_compute; try reflexivity; discriminate. }
  split.
  { repeat constructor. }
  split; [exact Hrun|].
  intros [Hex _]. specialize (Hex Hrun).
  apply Exists_cons in Hex as [Hex|Hex]; [vm_compute in Hex; discriminate|].
  apply Exists_cons in Hex as [Hex|Hex]; [vm_compute in Hex; discriminate|].
  inversion Hex.
Qed.

(** C3, amended.  On a request of finite numbers with at least one piece
    per spec, a spec that fits the stock sheet in neither orientation makes
    [optimize_layout] raise, so that no sheet list is returned.  When the
    ranges of every scan have a length (the grid step is not zero and
    NumPy can size the arrays), [optimize_layout] raises the [ValueError]
    of line 156 if and only if some spec fits in neither orientation, and
    otherwise, when the stock area [W * H] is not zero as computed, the
    sheet list is returned with every instance placed: the panels that
    the entries point to are the instances, each once.  When the area is
    zero as computed the efficiency pass raises [ZeroDivisionError]
    instead. *)
Theorem optimize_layout_rejection (W H : float) (panels : list ref)
    (σ : heap) (specs : list Panel.t) :
  is_finite W = true -> is_finite H = true ->
  panels_in σ panels specs -> Forall spec_ok specs ->
  (Exists (fun p => panel_fits W H p = false) specs ->
   exists e, optimize_layout W H panels σ = Raise e) /\
  (Forall (scans_ok (new_StockSheet W H)) specs ->
   (optimize_layout W H panels σ = Raise ValueError <->
    Exists (fun p => panel_fits W H p = false) specs) /\
   (~ Exists (fun p => panel_fits W H p = false) specs ->
    if W * H =? 0
    then optimize_layout W H panels σ = Raise ZeroDivisionError
    else exists sheets σ',
           optimize_layout W H panels σ = Ok (sheets, σ') /\
           placed_refs sheets ≡ₚ seq (length σ) (length (expansion specs)) /\
           length (placed_refs sheets) = length (expansion specs))).
Proof.
  intros HW HH Hin Hok.
  destruct (fl_optimize_layout_outcome W H panels σ specs HW HH Hin Hok)
    as [Hgood Hbad].
  assert (~ Exists (fun p => panel_fits W H p = false) specs ->
          Forall (fun p => panel_fits W H p = true) specs) as Hall.
  { intros Hnone. rewrite Forall_forall. intros s Hs.
    destruct (panel_fits W H s) eqn:Hfit; [reflexivity|].
    exfalso. apply Hnone. rewrite Exists_exists. exists s. auto. }
  split; [intros Hex; apply Hbad, Hex|].
  intros Hscan. split.
  - split; [|intros Hex; apply Hbad; assumption].
    intros Hraise.
    destruct (decide (Exists (fun p => panel_fits W H p = false) specs))
      as [Hyes|Hno]; [exact Hyes|].
    specialize (Hgood (Hall Hno) Hscan).
    destruct (W * H =? 0).
    + rewrite Hgood in Hraise. discriminate.
    + destruct Hgood as (sheets & σ' & Hrun & _).
      rewrite Hrun in Hraise. discriminate.
  - intros Hno. specialize (Hgood (Hall Hno) Hscan).
    destruct (W * H =? 0); [exact Hgood|].
    destruct Hgood as (sheets & σ' & Hrun & Hperm).
    exists sheets, σ'. split; [exact Hrun|]. split; [exact Hperm|].
    rewrite Hperm. apply length_seq.
Qed.

Lemma optimize_layout_rejection_witness :
  is_finite 10 = true /\
  panels_in [new_Panel 20 20 1; new_Panel 5 4 2] [0%nat; 1%nat]
            [new_Panel 20 20 1; new_Panel 5 4 2] /\
  Forall spec_ok [new_Panel 20 20 1; new_Panel 5 4 2] /\
  Forall (scans_ok (new_StockSheet 10 10))
         [new_Panel 20 20 1; new_Panel 5 4 2] /\
  Exists (fun p => panel_fits 10 10 p = false)
         [new_Panel 20 20 1; new_Panel 5 4 2] /\
  optimize_layout 10 10 [0%nat; 1%nat] [new_Panel 20 20 1; new_Panel 5 4 2]
  = Raise ValueError.
Proof.
  assert (is_finite 10 = true) as HW by reflexivity.
  assert (panels_in [new_Panel 20 20 1; new_Panel 5 4 2] [0%nat; 1%nat]
                    [new_Panel 20 20 1; new_Panel 5 4 2]) as Hin.
  { repeat constructor. }
  assert (Forall spec_ok [new_Panel 20 20 1; new_Panel 5 4 2]) as Hok.
  { repeat constructor; simpl; discriminate. }
  assert (Forall (scans_ok (new_StockSheet 10 10))
                 [new_Panel 20 20 1; new_Panel 5 4 2]) as Hscan.
  { constructor; [scans_ok_by_computation|].
    constructor; [scans_ok_by_computation|constructor]. }
  assert (Exists (fun p => panel_fits 10 10 p = false)
                 [new_Panel 20 20 1; new_Panel 5 4 2]) as Hex.
  { left. reflexivity. }
  split; [exact HW|]. split; [exact Hin|]. split; [exact Hok|].
  split; [exact Hscan|]. split; [exact Hex|].
  destruct (optimize_layout_rejection 10 10 _ _ _ HW HW Hin Hok)
    as [_ Hrest].
  destruct (Hrest Hscan) as [Hraise _]. apply (proj2 Hraise), Hex.
Defined.

(** ** C4: no overlap *)

(** C4 as stated fails.  On a stock [2e16] wide and 1 high with a panel
    [1e16] by 1 and two panels 1 by 1, the first unit panel goes to the
    right of the long one, at [x = 1e16].  For the second, the position to
    the right of the first is [1e16 + 1], which rounds to [1e16]; there the
    overlap test compares [1e16 + 1], again [1e16], with the left edge
    [1e16] of the first unit panel and passes.  Both unit panels are at
    [(1e16, 0)]: the point [(1e16 + 1/2, 1/2)] is strictly inside both. *)
Lemma optimize_layout_overlap :
  exists sheet σ' u v,
    optimize_layout 2e16 1 [0%nat; 1%nat]
      [new_Panel 1e16 1 1; new_Panel 1 1 2] = Ok ([sheet], σ') /\
    StockSheet.used_space sheet !! 1%nat = Some u /\
    StockSheet.used_space sheet !! 2%nat = Some v /\
    (Rect.x u, Rect.y u, Rect.w u, Rect.h u) = (1e16, 0, 1, 1) /\
    (Rect.x v, Rect.y v, Rect.w v, Rect.h v) = (1e16, 0, 1, 1) /\
    Rect.panel u <> Rect.panel v /\
    interior u (10000000000000000 + (1 # 2))%Q (1 # 2)%Q /\
    interior v (10000000000000000 + (1 # 2))%Q (1 # 2)%Q.
Proof.
  eexists _, _, _, _. split; [vm_compute; reflexivity|].
  split; [reflexivity|]. split; [reflexivity|].
  split; [reflexivity|]. split; [reflexivity|].
  split; [discriminate|].
  split; unfold interior; repeat split; vm_compute; reflexivity.
Qed.

(** C4, amended.  In every layout that [optimize_layout] returns, any two
    entries of a sheet pass the overlap test of lines 70-71 in both
    directions, on the sums as they are computed in binary64: the right
    edge [x + w] of one, rounded, is at or before the left edge of the
    other, or the top edge [y + h] of one, rounded, is at or below the
    bottom edge of the other; equality (a shared edge) passes. *)
Theorem optimize_layout_no_overlap (W H : float) (panels : list ref)
    (σ : heap) (sheets : list StockSheet.t) (σ' : heap) :
  optimize_layout W H panels σ = Ok (sheets, σ') ->
  forall sheet i j u v,
    sheet ∈ sheets -> i <> j ->
    StockSheet.used_space sheet !! i = Some u ->
    StockSheet.used_space sheet !! j = Some v ->
    (Rect.x u + Rect.w u <=? Rect.x v) || (Rect.x v + Rect.w v <=? Rect.x u) ||
    (Rect.y u + Rect.h u <=? Rect.y v) || (Rect.y v + Rect.h v <=? Rect.y u)
    = true.
Proof.
  intros Hrun sheet i j u v Hsheet Hij Hi Hj.
  destruct (fl_optimize_layout_Forall
              (fun s => pairwise_apart (StockSheet.used_space s))
              W H panels σ sheets σ') as (sheets0 & Hall & Hsame);
    [| |exact Hrun|].
  - intros s panel r [[x y] rot] Hfind Hs.
    assert (pairwise_apart (StockSheet.used_space s)) as Hap.
    { destruct Hs as [Hs| ->]; [exact Hs|apply fl_pairwise_apart_nil]. }
    apply fl_find_position_valid in Hfind as [_ Hv].
    apply fl_is_valid_Forall in Hv.
    cbn [with_entry StockSheet.used_space].
    apply fl_pairwise_apart_snoc; [exact Hap|exact Hv].
  - apply fl_pairwise_apart_nil.
  - assert (pairwise_apart (StockSheet.used_space sheet)) as Hap.
    { clear Hi Hj Hrun. induction Hsame as [|s s' l l' (_ & _ & Hu) _ IH].
      - inversion Hsheet.
      - inversion Hall as [|s0 l0 Hs Hl]; subst.
        apply elem_of_cons in Hsheet as [Heq|Hsheet].
        + subst sheet. rewrite Hu. exact Hs.
        + apply IH; assumption. }
    exact (fl_pairwise_apart_any _ i j u v Hap Hij Hi Hj).
Qed.

Lemma optimize_layout_no_overlap_witness :
  exists sheet σ' u v,
    optimize_layout 100 100 [0%nat] [new_Panel 50 40 4] = Ok ([sheet], σ') /\
    StockSheet.used_space sheet !! 1%nat = Some u /\
    StockSheet.used_space sheet !! 3%nat = Some v /\
    (Rect.x u + Rect.w u <=? Rect.x v) || (Rect.x v + Rect.w v <=? Rect.x u) ||
    (Rect.y u + Rect.h u <=? Rect.y v) || (Rect.y v + Rect.h v <=? Rect.y u)
    = true.
Proof.
  eexists _, _, _, _.
  split; [vm_compute; reflexivity|].
  split; [reflexivity|]. split; [reflexivity|].
  eapply (optimize_layout_no_overlap 100 100 [0%nat] [new_Panel 50 40 4]
            _ _ ltac:(vm_compute; reflexivity) _ 1%nat 3%nat).
  - left.
  - discriminate.
  - reflexivity.
  - reflexivity.
Defined.

(** ** C10: the empty request *)

(** C10 as stated fails for positive stock dimensions whose product
    rounds to zero: on a stock [1e-200] by [1e-200] the efficiency pass
    divides by [0.0]. *)
Lemma optimize_layout_empty_underflow :
  (0 <? 1e-200) = true /\
  optimize_layout 1e-200 1e-200 [] [] = Raise ZeroDivisionError.
Proof. split; vm_compute; reflexivity. Qed.

(** C10, amended.  On an empty panel list and finite stock dimensions
    whose product [W * H] is not zero as computed, [optimize_layout]
    returns one sheet, of the stock dimensions, with no entry and an
    efficiency of 0, and leaves the store as it was. *)
Theorem optimize_layout_empty (W H : float) (σ : heap) :
  is_finite W = true -> is_finite H = true -> (W * H =? 0) = false ->
  exists sheet,
    optimize_layout W H [] σ = Ok ([sheet], σ) /\
    StockSheet.width sheet = W /\ StockSheet.height sheet = H /\
    StockSheet.used_space sheet = [] /\
    (StockSheet.efficiency sheet =? 0) = true.
Proof.
  intros HW HH Harea. unfold optimize_layout.
  cbn [copy_panels mbind result_bind sort_panels map_each list_sort foldr map
       length while_remaining].
  unfold set_efficiency.
  cbn [new_StockSheet StockSheet.width StockSheet.height
       StockSheet.used_space].
  rewrite Harea. cbn [mbind result_bind]. eexists. split; [reflexivity|].
  cbn [StockSheet.width StockSheet.height StockSheet.used_space
       StockSheet.efficiency].
  split; [reflexivity|]. split; [reflexivity|]. split; [reflexivity|].
  unfold used_area. cbn [StockSheet.used_space foldl].
  apply zero_div_mul; [|exact Harea].
  apply mul_finite_finite_number; assumption.
Qed.

Lemma optimize_layout_empty_witness :
  is_finite 100 = true /\ is_finite 50 = true /\ (100 * 50 =? 0) = false /\
  exists sheet,
    optimize_layout 100 50 [] [] = Ok ([sheet], []) /\
    StockSheet.width sheet = 100 /\ StockSheet.height sheet = 50 /\
    StockSheet.used_space sheet = [] /\
    (StockSheet.efficiency sheet =? 0) = true.
Proof.
  assert (is_finite 100 = true) as HW by reflexivity.
  assert (is_finite 50 = true) as HH by reflexivity.
  assert ((100 * 50 =? 0) = false) as Harea by reflexivity.
  split; [exact HW|]. split; [exact HH|]. split; [exact Harea|].
  apply (optimize_layout_empty 100 50 [] HW HH Harea).
Defined.

(** ** C7: first fit *)

(** C7.  A turn of the allocation loop returns exactly when the head of
    the queue has a placement: on the first sheet, in creation order, for
    which [find_position] succeeds, whose entries get one more, the entry
    of the panel at the position found, the other sheets staying as they
    are; or, when every existing sheet rejected it, on a new sheet of the
    stock dimensions appended to the list.  The turn records the position
    in the panel object and takes one from its quantity.  A run that
    returns has made such a turn for every instance of the queue, in queue
    order, starting from one empty sheet; what it returns are the sheets
    after the last turn, with their efficiency. *)
Theorem first_fit_across_sheets (W H : float) (panels : list ref)
    (σ : heap) (specs : list Panel.t) :
  panels_in σ panels specs ->
  (forall sheets r rem τ panel st',
     τ !! r = Some panel ->
     loop_body W H sheets r rem τ = Ok st' <->
     exists c sheets',
       ((exists i sheet,
           first_fit sheets panel i c /\ sheets !! i = Some sheet /\
           sheets' = <[i := with_entry sheet (entry panel r c)]> sheets) \/
        (all_reject sheets panel /\
         find_position (new_StockSheet W H) panel = Ok (Some c) /\
         sheets' = sheets ++
                   [with_entry (new_StockSheet W H) (entry panel r c)])) /\
       st' = (sheets',
              if bool_decide (Panel.quantity panel - 1 = 0)%Z
              then tail rem else rem,
              <[r := placed panel c]> τ)) /\
  (forall sheets σ',
     optimize_layout W H panels σ = Ok (sheets, σ') ->
     exists queue sheets0,
       sort_panels (seq (length σ) (length (expansion specs)))
                   (σ ++ expansion specs) = Ok queue /\
       queue ≡ₚ seq (length σ) (length (expansion specs)) /\
       turns W H ([new_StockSheet W H], σ ++ expansion specs) queue
             (sheets0, σ') /\
       same_layout sheets0 sheets).
Proof.
  intros Hin. split.
  - intros sheets r rem τ panel st' Hp.
    apply (fl_loop_body_Ok W H sheets r rem τ panel st' Hp).
  - intros sheets σ' Hrun.
    destruct (fl_optimize_layout_queue panels σ specs Hin)
      as (queue & Hcopy & Hsort & Hperm & Hq & _).
    apply fl_optimize_layout_Ok in Hrun
      as (panels_copy & σ1 & sorted & sheets0 & rem0 & Hcopy' & Hsort' & Hloop
          & Heff).
    rewrite Hcopy in Hcopy'. inversion Hcopy'; subst panels_copy σ1.
    rewrite Hsort in Hsort'. inversion Hsort'; subst sorted.
    apply fl_while_remaining_turns in Hloop as [_ Hturns]; [|exact Hq].
    exists queue, sheets0. split; [exact Hsort|]. split; [exact Hperm|].
    split; [exact Hturns|]. apply fl_map_each_set_efficiency. exact Heff.
Qed.

Lemma first_fit_across_sheets_witness :
  panels_in [new_Panel 80 80 2] [0%nat] [new_Panel 80 80 2] /\
  exists queue sheets0 sheets σ',
    optimize_layout 100 100 [0%nat] [new_Panel 80 80 2] = Ok (sheets, σ') /\
    turns 100 100
      ([new_StockSheet 100 100], [new_Panel 80 80 2] ++
                                 expansion [new_Panel 80 80 2])
      queue (sheets0, σ') /\
    same_layout sheets0 sheets.
Proof.
  assert (panels_in [new_Panel 80 80 2] [0%nat] [new_Panel 80 80 2]) as Hin
    by (repeat constructor).
  split; [exact Hin|].
  destruct (first_fit_across_sheets 100 100 [0%nat] [new_Panel 80 80 2]
              [new_Panel 80 80 2] Hin) as [_ Hrun].
  destruct (Hrun _ _ ltac:(vm_compute; reflexivity))
    as (queue & sheets0 & _ & _ & Hturns & Hsame).
  exists queue, sheets0. eexists _, _.
  split; [vm_compute; reflexivity|]. split; [exact Hturns|exact Hsame].
Defined.

(** ** Sheets of the stock dimensions *)

(** Every sheet of a returned layout has the stock dimensions, and there
    is at least one sheet. *)
Theorem layout_sheets_stock_sized (W H : float) (panels : list ref)
    (σ : heap) (sheets : list StockSheet.t) (σ' : heap) :
  optimize_layout W H panels σ = Ok (sheets, σ') ->
  (1 <= length sheets)%nat /\ Forall (stock_sized W H) sheets.
Proof.
  intros Hrun. split.
  - apply fl_optimize_layout_Ok in Hrun
      as (panels_copy & σ1 & sorted & sheets0 & rem0 & _ & _ & Hloop & Heff).
    apply fl_while_remaining_length in Hloop. cbn [fst snd length] in Hloop.
    apply fl_map_each_set_efficiency in Heff.
    apply Forall2_length in Heff. lia.
  - destruct (fl_optimize_layout_Forall (stock_sized W H) W H panels σ
                sheets σ') as (sheets0 & Hall & Hsame);
      [| |exact Hrun|].
    + intros s panel r c _ [Hs| ->]; [exact Hs|split; reflexivity].
    + split; reflexivity.
    + clear Hrun. induction Hsame as [|s s' l l' (Hw & Hh & _) _ IH].
      * constructor.
      * inversion Hall as [|s0 l0 [Hsw Hsh] Hl]; subst.
        constructor; [|apply IH; exact Hl].
        split; congruence.
Qed.

Lemma layout_sheets_stock_sized_witness :
  exists sheets σ',
    optimize_layout 100 100 [0%nat] [new_Panel 80 80 2] = Ok (sheets, σ') /\
    (1 <= length sheets)%nat /\ Forall (stock_sized 100 100) sheets.
Proof.
  eexists _, _. split; [vm_compute; reflexivity|].
  apply (layout_sheets_stock_sized 100 100 [0%nat] [new_Panel 80 80 2] _ _
           ltac:(vm_compute; reflexivity)).
Defined.

(** * Relocation of a run, in binary64 *)

(** ** The search does not look at panel references *)

Lemma fl_is_valid_shift (k : nat) (used_space : list Rect.t)
    (w h x y : float) :
  is_valid (map (shift_rect k) used_space) w h x y
  = is_valid used_space w h x y.
Proof.
  unfold is_valid. induction used_space as [|u l IH]; simpl.
  - reflexivity.
  - rewrite IH. reflexivity.
Qed.

Lemma fl_consider_shift (k : nat) (used_space : list Rect.t) (w h : float)
    (rot : bool) (b : best) (x y : float) :
  consider (map (shift_rect k) used_space) w h rot b x y
  = consider used_space w h rot b x y.
Proof. unfold consider. rewrite fl_is_valid_shift. reflexivity. Qed.

Lemma fl_priority_positions_shift (k : nat) (s : StockSheet.t)
    (w h : float) :
  priority_positions (shift_sheet k s) w h = priority_positions s w h.
Proof.
  unfold priority_positions. cbn [shift_sheet StockSheet.width
    StockSheet.height StockSheet.used_space].
  f_equal. f_equal.
  induction (StockSheet.used_space s) as [|u l IH]; simpl.
  - reflexivity.
  - rewrite IH. reflexivity.
Qed.

Lemma fl_grid_scan_shift (k : nat) (s : StockSheet.t) (step w h : float)
    (rot : bool) (b : best) :
  grid_scan (shift_sheet k s) step w h rot b = grid_scan s step w h rot b.
Proof.
  unfold grid_scan.
  cbn [shift_sheet StockSheet.width StockSheet.height StockSheet.used_space].
  destruct (arange 0 (StockSheet.width s - w + step) step) as [xs| |];
    cbn [mbind result_bind]; [|reflexivity|reflexivity].
  apply for_each_ext. intros b' x.
  destruct (arange 0 (StockSheet.height s - h + step) step) as [ys| |];
    cbn [mbind result_bind]; [|reflexivity|reflexivity].
  f_equal. apply foldl_ext. intros b'' y. apply fl_consider_shift.
Qed.

Lemma fl_try_orientation_shift (k : nat) (s : StockSheet.t) (step : float)
    (b : best) (o : orientation) :
  try_orientation (shift_sheet k s) step b o = try_orientation s step b o.
Proof.
  destruct o as [[w h] rot]. unfold try_orientation.
  rewrite fl_priority_positions_shift.
  cbn [shift_sheet StockSheet.width StockSheet.height StockSheet.used_space].
  destruct ((StockSheet.width s <? w) || (StockSheet.height s <? h));
    [reflexivity|].
  rewrite (foldl_ext _
             (fun b p => consider (StockSheet.used_space s) w h rot b p.1 p.2))
    by (intros; apply fl_consider_shift).
  destruct (foldl _ b (priority_positions s w h)); [reflexivity|].
  apply (fl_grid_scan_shift k s step w h rot None).
Qed.

Lemma fl_find_position_shift (k : nat) (s : StockSheet.t) (p : Panel.t) :
  find_position (shift_sheet k s) p = find_position s p.
Proof.
  unfold find_position.
  change (grid_step (shift_sheet k s) p) with (grid_step s p).
  change (orientations (shift_sheet k s) p) with (orientations s p).
  apply for_each_ext. intros b o. apply fl_try_orientation_shift.
Qed.

(** ** The allocation loop commutes with relocation *)

Lemma fl_deref_app_r (α τ : heap) (r : ref) :
  deref (α ++ τ) (length α + r) = deref τ r.
Proof.
  unfold deref. rewrite lookup_app_r by lia.
  replace (length α + r - length α)%nat with r by lia. reflexivity.
Qed.

Lemma fl_add_used_shift (k : nat) (s : StockSheet.t) (p : Panel.t) (r : ref)
    (x y : float) (rot : bool) :
  add_used (shift_sheet k s) p (k + r) x y rot
  = shift_sheet k (add_used s p r x y rot).
Proof.
  unfold add_used, shift_sheet. simpl. rewrite map_app. reflexivity.
Qed.

Lemma fl_try_sheets_shift (α τ : heap) (sheets : list StockSheet.t)
    (p : Panel.t) (r : ref) :
  try_sheets (map (shift_sheet (length α)) sheets) p (length α + r) (α ++ τ)
  = result_map
      (option_map (fun res : list StockSheet.t * heap =>
                     (map (shift_sheet (length α)) res.1, α ++ res.2)))
      (try_sheets sheets p r τ).
Proof.
  induction sheets as [|s sheets IH]; cbn [map try_sheets].
  - reflexivity.
  - rewrite fl_find_position_shift.
    destruct (find_position s p) as [[[[x y] rot]|]| |];
      cbn [mbind result_bind result_map option_map]; try reflexivity.
    + rewrite fl_add_used_shift, insert_app_r. reflexivity.
    + rewrite IH.
      destruct (try_sheets sheets p r τ) as [[[s1 τ1]|]| |];
        cbn [mbind result_bind result_map option_map]; reflexivity.
Qed.

Lemma fl_loop_body_shift (W H : float) (α τ : heap)
    (sheets : list StockSheet.t) (r : ref) (rem : list ref) :
  loop_body W H (map (shift_sheet (length α)) sheets) (length α + r)
            (map (Nat.add (length α)) rem) (α ++ τ)
  = result_map (shift_state α) (loop_body W H sheets r rem τ).
Proof.
  unfold loop_body. rewrite fl_deref_app_r.
  destruct (deref τ r) as [p| |]; cbn [mbind result_bind result_map];
    [|reflexivity|reflexivity].
  rewrite fl_try_sheets_shift.
  assert (forall sheets1 τ1,
    (deref (α ++ τ1) (length α + r) ≫= fun panel =>
       if bool_decide (Panel.quantity panel = 0%Z)
       then Ok (map (shift_sheet (length α)) sheets1,
                tail (map (Nat.add (length α)) rem), α ++ τ1)
       else Ok (map (shift_sheet (length α)) sheets1,
                map (Nat.add (length α)) rem, α ++ τ1))
    = result_map (shift_state α)
        (deref τ1 r ≫= fun panel =>
           if bool_decide (Panel.quantity panel = 0%Z)
           then Ok (sheets1, tail rem, τ1) else Ok (sheets1, rem, τ1)))
    as Hpop.
  { intros sheets1 τ1. rewrite fl_deref_app_r.
    destruct (deref τ1 r) as [q| |]; cbn [mbind result_bind result_map];
      [|reflexivity|reflexivity].
    case_bool_decide; cbn [result_map]; unfold shift_state; simpl;
      [|reflexivity].
    destruct rem; reflexivity. }
  destruct (try_sheets sheets p r τ) as [[[sheets1 τ1]|]| |];
    cbn [mbind result_bind result_map option_map fst snd];
    [apply Hpop| |reflexivity|reflexivity].
  unfold place_on_new_sheet.
  destruct (find_position (new_StockSheet W H) p) as [[[[x y] rot]|]| |];
    cbn [mbind result_bind result_map]; try reflexivity.
  change [add_used (new_StockSheet W H) p (length α + r) x y rot]
    with [add_used (shift_sheet (length α) (new_StockSheet W H)) p
            (length α + r) x y rot].
  rewrite fl_add_used_shift.
  change (map (shift_sheet (length α)) sheets ++
          [shift_sheet (length α) (add_used (new_StockSheet W H) p r x y rot)])
    with (map (shift_sheet (length α)) sheets ++
          map (shift_sheet (length α))
              [add_used (new_StockSheet W H) p r x y rot]).
  rewrite <- map_app. rewrite insert_app_r. apply Hpop.
Qed.

Lemma fl_while_remaining_shift (W H : float) (α : heap) (fuel : nat)
    (st : state) :
  while_remaining fuel W H (shift_state α st)
  = result_map (shift_state α) (while_remaining fuel W H st).
Proof.
  revert st. induction fuel as [|fuel IH]; intros [[sheets rem] τ].
  - destruct rem; reflexivity.
  - destruct rem as [|r rem]; [reflexivity|].
    unfold shift_state. cbn [fst snd map while_remaining].
    pose proof (fl_loop_body_shift W H α τ sheets r (r :: rem)) as Hbody.
    cbn [map] in Hbody. rewrite Hbody.
    destruct (loop_body W H sheets r (r :: rem) τ) as [st1| |];
      cbn [mbind result_bind result_map]; [|reflexivity|reflexivity].
    apply IH.
Qed.

(** ** The sort and the efficiency pass commute with relocation *)

Lemma fl_sort_panels_shift (α τ : heap) (refs : list ref) :
  sort_panels (map (Nat.add (length α)) refs) (α ++ τ)
  = result_map (map (Nat.add (length α))) (sort_panels refs τ).
Proof.
  unfold sort_panels.
  assert (map_each (fun r => p ← deref (α ++ τ) r; Ok (panel_key p, r))
                   (map (Nat.add (length α)) refs)
          = result_map
              (map (fun kr : float * float * float * ref =>
                      (kr.1, (length α + kr.2)%nat)))
              (map_each (fun r => p ← deref τ r; Ok (panel_key p, r)) refs))
    as ->.
  { induction refs as [|r refs IH]; cbn [map map_each].
    - reflexivity.
    - rewrite fl_deref_app_r.
      destruct (deref τ r) as [p| |]; cbn [mbind result_bind result_map];
        [|reflexivity|reflexivity].
      rewrite IH.
      destruct (map_each _ refs); cbn [mbind result_bind result_map];
        reflexivity. }
  destruct (map_each _ refs) as [keyed| |];
    cbn [mbind result_bind result_map]; [|reflexivity|reflexivity].
  rewrite list_sort_map by reflexivity. rewrite !map_map. reflexivity.
Qed.

Lemma fl_used_area_shift (k : nat) (s : StockSheet.t) :
  used_area (shift_sheet k s) = used_area s.
Proof.
  unfold used_area. cbn [shift_sheet StockSheet.used_space].
  generalize 0. induction (StockSheet.used_space s) as [|u l IH]; intros a.
  - reflexivity.
  - simpl. apply IH.
Qed.

Lemma fl_set_efficiency_shift (k : nat) (s : StockSheet.t) :
  set_efficiency (shift_sheet k s)
  = result_map (shift_sheet k) (set_efficiency s).
Proof.
  unfold set_efficiency. rewrite fl_used_area_shift.
  cbn [shift_sheet StockSheet.width StockSheet.height StockSheet.used_space].
  destruct (StockSheet.width s * StockSheet.height s =? 0); reflexivity.
Qed.

Lemma fl_map_each_set_efficiency_shift (k : nat)
    (sheets : list StockSheet.t) :
  map_each set_efficiency (map (shift_sheet k) sheets)
  = result_map (map (shift_sheet k)) (map_each set_efficiency sheets).
Proof.
  induction sheets as [|s sheets IH]; cbn [map map_each].
  - reflexivity.
  - rewrite fl_set_efficiency_shift.
    destruct (set_efficiency s); cbn [mbind result_bind result_map];
      [|reflexivity|reflexivity].
    rewrite IH.
    destruct (map_each set_efficiency sheets);
      cbn [mbind result_bind result_map]; reflexivity.
Qed.

(** ** A run is the allocation of its instances, relocated *)

Lemma fl_optimize_layout_relocate (W H : float) (panels : list ref)
    (σ : heap) (specs : list Panel.t) :
  panels_in σ panels specs ->
  optimize_layout W H panels σ
  = result_map
      (fun res : list StockSheet.t * heap =>
         (map (shift_sheet (length σ)) res.1, σ ++ res.2))
      (allocate W H (expansion specs)).
Proof.
  intros Hin. unfold optimize_layout, allocate.
  rewrite (fl_copy_panels_Ok σ panels specs [] Hin).
  cbn [mbind result_bind app].
  rewrite <- (Nat.add_0_r (length σ)) at 1.
  rewrite <- (fmap_add_seq (length σ) 0).
  change (Nat.add (length σ) <$> seq 0 (length (expansion specs)))
    with (map (Nat.add (length σ)) (seq 0 (length (expansion specs)))).
  rewrite fl_sort_panels_shift.
  destruct (sort_panels (seq 0 (length (expansion specs))) (expansion specs))
    as [sorted| |]; cbn [mbind result_bind result_map];
    [|reflexivity|reflexivity].
  rewrite length_map.
  change ([new_StockSheet W H], map (Nat.add (length σ)) sorted,
          σ ++ expansion specs)
    with (shift_state σ ([new_StockSheet W H], sorted, expansion specs)).
  rewrite fl_while_remaining_shift.
  destruct (while_remaining (length sorted) W H _) as [[[sheets rem] τ]| |];
    cbn [mbind result_bind result_map]; [|reflexivity|reflexivity].
  unfold shift_state. cbn [fst snd]. rewrite fl_map_each_set_efficiency_shift.
  destruct (map_each set_efficiency sheets);
    cbn [mbind result_bind result_map]; reflexivity.
Qed.

Lemma fl_rect_view_shift (α τ : heap) (u : Rect.t) :
  rect_view (α ++ τ) (shift_rect (length α) u) = rect_view τ u.
Proof.
  unfold rect_view. cbn [shift_rect Rect.x Rect.y Rect.w Rect.h Rect.panel].
  rewrite lookup_app_r by lia.
  replace (length α + Rect.panel u - length α)%nat with (Rect.panel u) by lia.
  reflexivity.
Qed.

Lemma fl_layout_view_shift (α τ : heap) (sheets : list StockSheet.t) :
  layout_view (α ++ τ) (map (shift_sheet (length α)) sheets)
  = layout_view τ sheets.
Proof.
  unfold layout_view. rewrite map_map. apply map_ext. intros s.
  unfold sheet_view.
  cbn [shift_sheet StockSheet.width StockSheet.height StockSheet.used_space
       StockSheet.efficiency].
  rewrite map_map. f_equal. apply map_ext. intros u. apply fl_rect_view_shift.
Qed.

(** What a caller sees of a run is what it sees of the allocation of the
    instances of the request. *)
Lemma fl_outcome_view_relocate (W H : float) (panels : list ref) (σ : heap)
    (specs : list Panel.t) :
  panels_in σ panels specs ->
  outcome_view (optimize_layout W H panels σ)
  = outcome_view (allocate W H (expansion specs)).
Proof.
  intros Hin. unfold outcome_view.
  rewrite (fl_optimize_layout_relocate W H panels σ specs Hin).
  destruct (allocate W H (expansion specs)) as [[sheets τ]| |];
    cbn [result_map fst snd]; [|reflexivity|reflexivity].
  rewrite fl_layout_view_shift. reflexivity.
Qed.

(** A run leaves the objects it was given as they were. *)
Lemma fl_optimize_layout_frame (W H : float) (panels : list ref)
    (σ σ' : heap) (specs : list Panel.t) (sheets : list StockSheet.t) :
  panels_in σ panels specs ->
  optimize_layout W H panels σ = Ok (sheets, σ') ->
  exists τ, σ' = σ ++ τ /\ panels_in σ' panels specs.
Proof.
  intros Hin Hrun.
  rewrite (fl_optimize_layout_relocate W H panels σ specs Hin) in Hrun.
  destruct (allocate W H (expansion specs)) as [[sheets0 τ]| |];
    cbn [result_map fst snd] in Hrun; [|discriminate|discriminate].
  inversion Hrun; subst. exists τ. split; [reflexivity|].
  apply fl_panels_in_app. exact Hin.
Qed.

(** ** C5: determinism *)

(** C5.  Two runs on the same stock dimensions and on panel lists that
    give the same specs in the same order, whatever the objects that hold
    them and whatever else the two stores hold, end alike: both raise the
    same exception, or both return, and then the layouts look alike, as
    many sheets, each with the same dimensions and efficiency, the entries
    of each sheet in the same order with the same coordinates and extents,
    and panels with the same sides, quantity, position and rotated flag.
    A run leaves the panels it was given as they were, so a run on the
    same list after it returns a layout that looks like the first. *)
Theorem optimize_layout_deterministic (W H : float)
    (panels1 panels2 : list ref) (σ1 σ2 : heap) (specs : list Panel.t) :
  panels_in σ1 panels1 specs -> panels_in σ2 panels2 specs ->
  outcome_view (optimize_layout W H panels1 σ1)
  = outcome_view (optimize_layout W H panels2 σ2) /\
  forall sheets σ',
    optimize_layout W H panels1 σ1 = Ok (sheets, σ') ->
    panels_in σ' panels1 specs /\
    exists sheets' σ'',
      optimize_layout W H panels1 σ' = Ok (sheets', σ'') /\
      layout_view σ'' sheets' = layout_view σ' sheets.
Proof.
  intros H1 H2. split.
  - rewrite (fl_outcome_view_relocate W H panels1 σ1 specs H1).
    rewrite (fl_outcome_view_relocate W H panels2 σ2 specs H2).
    reflexivity.
  - intros sheets σ' Hrun.
    destruct (fl_optimize_layout_frame W H panels1 σ1 σ' specs sheets H1 Hrun)
      as (τ & _ & Hin').
    split; [exact Hin'|].
    pose proof (fl_outcome_view_relocate W H panels1 σ1 specs H1) as Hv1.
    pose proof (fl_outcome_view_relocate W H panels1 σ' specs Hin') as Hv2.
    rewrite <- Hv1 in Hv2. rewrite Hrun in Hv2. unfold outcome_view in Hv2.
    cbn [result_map fst snd] in Hv2.
    destruct (optimize_layout W H panels1 σ') as [[sheets' σ'']| |];
      cbn [result_map fst snd] in Hv2; [|discriminate|discriminate].
    exists sheets', σ''. split; [reflexivity|]. congruence.
Qed.

Lemma optimize_layout_deterministic_witness :
  panels_in [new_Panel 50 40 3; new_Panel 30 20 2] [0%nat; 1%nat]
            [new_Panel 50 40 3; new_Panel 30 20 2] /\
  panels_in [new_Panel 30 20 2; new_Panel 9 9 9; new_Panel 50 40 3]
            [2%nat; 0%nat] [new_Panel 50 40 3; new_Panel 30 20 2] /\
  outcome_view
    (optimize_layout 100 100 [0%nat; 1%nat]
       [new_Panel 50 40 3; new_Panel 30 20 2])
  = outcome_view
      (optimize_layout 100 100 [2%nat; 0%nat]
         [new_Panel 30 20 2; new_Panel 9 9 9; new_Panel 50 40 3]).
Proof.
  assert (panels_in [new_Panel 50 40 3; new_Panel 30 20 2] [0%nat; 1%nat]
                    [new_Panel 50 40 3; new_Panel 30 20 2]) as H1
    by (repeat constructor).
  assert (panels_in [new_Panel 30 20 2; new_Panel 9 9 9; new_Panel 50 40 3]
                    [2%nat; 0%nat] [new_Panel 50 40 3; new_Panel 30 20 2])
    as H2 by (repeat constructor).
  split; [exact H1|]. split; [exact H2|].
  apply (proj1 (optimize_layout_deterministic 100 100 _ _ _ _ _ H1 H2)).
Defined.
